(** * LightRAG multi-tenant control plane: instance pool, sessions, API keys
      and project access control.

    A shallow embedding of
      - [lightrag/api/instance_manager.py]           (module [InstanceManager]),
      - [lightrag/api/services/project_service.py]   (module [ProjectService]),
      - [lightrag/api/services/api_key_service.py]   (module [APIKeyService]),
      - [lightrag/api/services/auth_service.py] and
        [lightrag/api/routers/auth_routes.py]        (module [AuthService]),
      - [lightrag/api/middleware/auth_middleware.py] (module [AuthMiddleware]).

    Times ([datetime]) and durations ([timedelta]) are integers (microseconds),
    Python dictionaries are insertion-ordered association lists, database
    tables are lists of rows, and every exception the code can raise is a
    value of an error type that the operations return. *)

From Stdlib Require Import ZArith Lia.
From Stdlib Require QArith.
From stdpp Require Import base tactics option list strings sorting.

Local Open Scope string_scope.
Local Open Scope list_scope.
Local Open Scope Z_scope.

(** ** Insertion-ordered dictionaries ([dict], [collections.OrderedDict]) *)

Section PyDict.
Context {K V : Type} `{EqDecision K}.

(** [d.get(k)] *)
Fixpoint dict_get (k : K) (d : list (K * V)) : option V :=
  match d with
  | [] => None
  | (k', v) :: d' => if decide (k = k') then Some v else dict_get k d'
  end.

(** [d[k] = v]: an existing key keeps its position, a new key goes last. *)
Fixpoint dict_set (k : K) (v : V) (d : list (K * V)) : list (K * V) :=
  match d with
  | [] => [(k, v)]
  | (k', v') :: d' =>
      if decide (k = k') then (k, v) :: d' else (k', v') :: dict_set k v d'
  end.

(** [del d[k]] on a dictionary that holds [k] (the callers test for the
    [KeyError] case themselves). *)
Fixpoint dict_del (k : K) (d : list (K * V)) : list (K * V) :=
  match d with
  | [] => []
  | (k', v') :: d' =>
      if decide (k = k') then dict_del k d' else (k', v') :: dict_del k d'
  end.

(** [OrderedDict.move_to_end(k)] for a key that is present. *)
Definition move_to_end (k : K) (d : list (K * V)) : list (K * V) :=
  match dict_get k d with
  | Some v => dict_del k d ++ [(k, v)]
  | None => d
  end.

Definition keys (d : list (K * V)) : list K := d.*1.

Lemma dict_get_None k d : dict_get k d = None ↔ k ∉ keys d.
Proof.
  induction d as [|[k' v] d IH]; simpl.
  - split; [intros _; apply not_elem_of_nil | done].
  - rewrite not_elem_of_cons. destruct (decide (k = k')) as [->|Hne].
    + split; [done | intros [? _]; done].
    + rewrite IH. tauto.
Qed.

Lemma dict_get_is_Some k d : is_Some (dict_get k d) ↔ k ∈ keys d.
Proof.
  rewrite <- not_eq_None_Some, dict_get_None.
  split; [apply dec_stable | auto].
Qed.

Lemma dict_get_elem_of k v d : dict_get k d = Some v → (k, v) ∈ d.
Proof.
  induction d as [|[k' v'] d IH]; simpl; [done|].
  destruct (decide (k = k')) as [->|]; intros Hg.
  - injection Hg as ->. left.
  - right. auto.
Qed.

Lemma keys_dict_del k d : keys (dict_del k d) = filter (λ x, x ≠ k) (keys d).
Proof.
  induction d as [|[k' v] d IH]; simpl; [done|].
  rewrite filter_cons. simpl.
  destruct (decide (k = k')) as [->|Hne].
  - rewrite decide_False by auto. done.
  - rewrite decide_True by auto. simpl. by f_equal.
Qed.

Lemma elem_of_keys_dict_del k k' d :
  k' ∈ keys (dict_del k d) ↔ k' ∈ keys d ∧ k' ≠ k.
Proof. rewrite keys_dict_del, list_elem_of_filter. tauto. Qed.

Lemma dict_del_absent k d : k ∉ keys d → dict_del k d = d.
Proof.
  induction d as [|[k' v] d IH]; simpl; [done|].
  rewrite not_elem_of_cons. intros [Hne Hd].
  rewrite decide_False by done. f_equal. auto.
Qed.

Lemma NoDup_keys_dict_del k d : NoDup (keys d) → NoDup (keys (dict_del k d)).
Proof. rewrite keys_dict_del. apply NoDup_filter. Qed.

Lemma length_dict_del k d :
  NoDup (keys d) → k ∈ keys d → S (length (dict_del k d)) = length d.
Proof.
  induction d as [|[k' v] d IH]; simpl.
  - intros _ Hin. by apply elem_of_nil in Hin.
  - rewrite NoDup_cons. intros [Hk' Hnd] Hin.
    destruct (decide (k = k')) as [->|Hne].
    + by rewrite dict_del_absent.
    + simpl. f_equal. apply IH; [done|].
      apply elem_of_cons in Hin as [?|?]; [done|done].
Qed.

Lemma dict_get_dict_del k k' d :
  dict_get k' (dict_del k d) = if decide (k' = k) then None else dict_get k' d.
Proof.
  induction d as [|[k'' v] d IH]; simpl.
  - by destruct (decide (k' = k)).
  - destruct (decide (k = k'')) as [->|Hne]; simpl.
    + rewrite IH. destruct (decide (k' = k'')); done.
    + rewrite IH. destruct (decide (k' = k'')) as [->|].
      * rewrite decide_False by auto. done.
      * done.
Qed.

Lemma keys_dict_set k v d :
  keys (dict_set k v d) = if decide (k ∈ keys d) then keys d else keys d ++ [k].
Proof.
  induction d as [|[k' v'] d IH].
  - cbn. destruct (decide (k ∈ [])) as [Hin|]; [by apply elem_of_nil in Hin|done].
  - cbn [dict_set]. destruct (decide (k = k')) as [->|Hne].
    + destruct (decide (k' ∈ keys ((k', v') :: d))) as [|Hn]; [done|].
      exfalso. apply Hn. left.
    + change (keys ((k', v') :: dict_set k v d)) with (k' :: keys (dict_set k v d)).
      rewrite IH. change (keys ((k', v') :: d)) with (k' :: keys d).
      destruct (decide (k ∈ keys d)) as [Hin|Hin];
        destruct (decide (k ∈ k' :: keys d)) as [Hin'|Hin']; try done.
      * exfalso. apply Hin'. by right.
      * apply elem_of_cons in Hin' as [?|?]; done.
Qed.

Lemma dict_set_absent k v d : k ∉ keys d → dict_set k v d = d ++ [(k, v)].
Proof.
  induction d as [|[k' v'] d IH]; simpl; [done|].
  rewrite not_elem_of_cons. intros [Hne Hd].
  rewrite decide_False by done. f_equal. auto.
Qed.

Lemma elem_of_keys_dict_set k v k' d :
  k' ∈ keys (dict_set k v d) ↔ k' = k ∨ k' ∈ keys d.
Proof.
  rewrite keys_dict_set. destruct (decide (k ∈ keys d)).
  - split; [auto | intros [->|?]; done].
  - rewrite elem_of_app, list_elem_of_singleton. tauto.
Qed.

Lemma dict_get_dict_set k v k' d :
  dict_get k' (dict_set k v d) = if decide (k' = k) then Some v else dict_get k' d.
Proof.
  induction d as [|[k'' v''] d IH]; simpl.
  - destruct (decide (k' = k)); done.
  - destruct (decide (k = k'')) as [->|Hne]; simpl.
    + destruct (decide (k' = k'')); done.
    + rewrite IH. destruct (decide (k' = k'')) as [->|].
      * rewrite decide_False by auto. done.
      * done.
Qed.

Lemma keys_move_to_end k d :
  k ∈ keys d → keys (move_to_end k d) = filter (λ x, x ≠ k) (keys d) ++ [k].
Proof.
  intros Hin. apply dict_get_is_Some in Hin as [v Hv].
  unfold move_to_end. rewrite Hv. unfold keys at 1.
  rewrite fmap_app. fold (keys (dict_del k d)). by rewrite keys_dict_del.
Qed.

Lemma NoDup_keys_dict_set k v d : NoDup (keys d) → NoDup (keys (dict_set k v d)).
Proof.
  intros Hnd. rewrite keys_dict_set. destruct (decide (k ∈ keys d)); [done|].
  apply NoDup_app. split_and!; [done| |apply NoDup_singleton].
  intros x Hx ->%list_elem_of_singleton. done.
Qed.

Lemma elem_of_dict_get k v d : NoDup (keys d) → (k, v) ∈ d → dict_get k d = Some v.
Proof.
  induction d as [|[k' v'] d IH]; simpl.
  - intros _ Hin. by apply elem_of_nil in Hin.
  - rewrite NoDup_cons. intros [Hk' Hnd] Hin.
    apply elem_of_cons in Hin as [[= <- <-]|Hin].
    + by rewrite decide_True.
    + destruct (decide (k = k')) as [->|]; [|by auto].
      exfalso. apply Hk'. apply list_elem_of_fmap. by exists (k', v).
Qed.

Lemma dict_get_app k d1 d2 :
  dict_get k (d1 ++ d2)
  = match dict_get k d1 with Some v => Some v | None => dict_get k d2 end.
Proof.
  induction d1 as [|[k' v'] d1 IH]; simpl; [done|].
  by destruct (decide (k = k')).
Qed.
End PyDict.

(** ** Lists *)

Lemma filter_none {A} (P : A → Prop) `{!∀ x, Decision (P x)} (l : list A) :
  (∀ x, x ∈ l → ¬ P x) → filter P l = [].
Proof.
  induction l as [|a l IH]; intros Hl; [done|].
  rewrite filter_cons, decide_False by (apply Hl; left).
  apply IH. intros x Hx. apply Hl. by right.
Qed.

Lemma head_None {A} (l : list A) : head l = None ↔ l = [].
Proof. by destruct l. Qed.

Lemma head_elem_of {A} (l : list A) (x : A) : head l = Some x → x ∈ l.
Proof. destruct l; [done|]. intros [= ->]. left. Qed.
Lemma head_filter_fmap {A} (P : A → Prop) `{!∀ x, Decision (P x)} (f : A → A)
    (l : list A) :
  (∀ x, P (f x) ↔ P x) → head (filter P (f <$> l)) = f <$> head (filter P l).
Proof.
  intros Hf. induction l as [|a l IH]; [done|].
  rewrite fmap_cons, !filter_cons.
  destruct (decide (P a)) as [Ha|Ha].
  - by rewrite decide_True by by apply Hf.
  - by rewrite decide_False by by rewrite Hf.
Qed.

Lemma fmap_id_on {A} (f : A → A) (l : list A) :
  (∀ x, x ∈ l → f x = x) → f <$> l = l.
Proof.
  induction l as [|a l IH]; intros Hf; [done|].
  rewrite fmap_cons, Hf by left. f_equal. apply IH. intros x Hx. apply Hf. by right.
Qed.

Lemma head_filter_None {A} (P : A → Prop) `{!∀ x, Decision (P x)} (l : list A) :
  head (filter P l) = None ↔ ∀ x, x ∈ l → ¬ P x.
Proof.
  rewrite head_None. split.
  - intros Hnil x Hx HP.
    assert (x ∈ filter P l) as Hin by by apply list_elem_of_filter.
    rewrite Hnil in Hin. by apply elem_of_nil in Hin.
  - apply filter_none.
Qed.

Lemma head_filter_Some {A} (P : A → Prop) `{!∀ x, Decision (P x)} (l : list A) x :
  head (filter P l) = Some x → x ∈ l ∧ P x.
Proof.
  intros Hh. apply head_elem_of, list_elem_of_filter in Hh. tauto.
Qed.

(** The first element with [P] stays the first one when [f] leaves it as it
    is and gives no other element [P]. *)
Lemma head_filter_spared {A} (P : A → Prop) `{!∀ x, Decision (P x)} (f : A → A)
    (l : list A) (x : A) :
  (∀ y, f y = y ∨ ¬ P (f y)) → f x = x →
  head (filter P l) = Some x → head (filter P (f <$> l)) = Some x.
Proof.
  intros Hf Hx. induction l as [|a l IH]; [done|].
  rewrite fmap_cons, !filter_cons. destruct (decide (P a)) as [Ha|Ha].
  - simpl. intros [= Heq]. subst a. rewrite Hx. by rewrite decide_True.
  - intros Hh. destruct (Hf a) as [->|Hn]; rewrite decide_False by done; auto.
Qed.

Lemma head_filter_sub {A} (P Q : A → Prop) `{!∀ x, Decision (P x)}
    `{!∀ x, Decision (Q x)} (l : list A) (x : A) :
  Q x → head (filter P l) = Some x → head (filter P (filter Q l)) = Some x.
Proof.
  intros Hx. induction l as [|a l IH]; [done|].
  rewrite !filter_cons. destruct (decide (P a)) as [Ha|Ha].
  - simpl. intros [= Heq]. subst a.
    rewrite decide_True by done. by rewrite filter_cons, decide_True.
  - intros Hh. case_decide; [|by auto]. rewrite filter_cons, decide_False by done.
    by auto.
Qed.

Lemma head_filter_app_None {A} (P : A → Prop) `{!∀ x, Decision (P x)} (l l' : list A) :
  head (filter P l) = None → head (filter P (l ++ l')) = head (filter P l').
Proof. intros Hh%head_None. by rewrite filter_app, Hh. Qed.

Lemma head_filter_is_Some {A} (P : A → Prop) `{!∀ x, Decision (P x)} (l : list A) x :
  x ∈ l → P x → is_Some (head (filter P l)).
Proof.
  intros Hx HP. destruct (head (filter P l)) eqn:Hh; [done|].
  by destruct (proj1 (head_filter_None _ _) Hh x).
Qed.

(** ** The instance manager ([lightrag/api/instance_manager.py]) *)

Module InstanceManager.

(** A cache key is the pair [(tenant_id, project_id)]. *)
Definition key : Type := string * string.

(** The storage attributes [_remove_instance] probes, in the order it
    probes them. *)
Inductive storage :=
| llm_response_cache | text_chunks | full_docs | entities_vdb
| relationships_vdb | chunks_vdb | chunk_entity_relation_graph | doc_status.

#[global] Instance storage_eq_dec : EqDecision storage.
Proof. solve_decision. Defined.

Definition all_storages : list storage :=
  [llm_response_cache; text_chunks; full_docs; entities_vdb;
   relationships_vdb; chunks_vdb; chunk_entity_relation_graph; doc_status].

(** A [LightRAG] object: its identity, the key it was built for, the
    storage attributes it has ([hasattr]) and those whose [finalize()]
    raises. *)
Record LightRAG := {
  obj_id : nat;
  tenant_id : string;
  project_id : string;
  attrs : list storage;
  finalize_raises : list storage
}.

#[global] Instance LightRAG_eq_dec : EqDecision LightRAG.
Proof. solve_decision. Defined.

Inductive exn :=
| ValueError (msg : string)
| KeyError (k : key)
| Exception (msg : string).

(** What a call does to the outside world: the [logger] lines and the calls
    to the collaborators (configuration service, factory and constructor,
    storage finalizers). *)
Inductive event :=
| InfoRemovingExpired (k : key)
| DebugReusing (k : key)
| CallGetDefaultConfig (project : string)
| InfoUsingConfig
| ErrorFetchFailed (project : string)
| CallCreateLLM
| InfoCreating (k : key)
| CallLightRAG (k : key)
| InfoEvicting (k : key)
| InfoActive (n : nat) (max : Z) (k : key)
| CallFinalize (obj : nat) (s : storage)
| WarningFinalize (k : key)
| InfoCleaningExpired (k : key)
| InfoShuttingDown
| InfoAllCleaned.

#[global] Instance event_eq_dec : EqDecision event.
Proof. solve_decision. Defined.

(** The manager object ([self]). [ttl] is the [timedelta] of
    [ttl_minutes]; [llm_config_service] records whether a service was
    given. *)
Record manager := Manager {
  llm_config_service : bool;
  max_instances : Z;
  ttl : Z;
  _instances : list (key * LightRAG);
  _last_access : list (key * Z)
}.

Definition minute : Z := 60000000.

(** [__init__] *)
Definition init (svc : bool) (max_instances ttl_minutes : Z) : manager :=
  Manager svc max_instances (ttl_minutes * minute) [] [].

Definition set_instances (d : list (key * LightRAG)) (s : manager) : manager :=
  Manager (llm_config_service s) (max_instances s) (ttl s) d (_last_access s).

Definition set_last_access (d : list (key * Z)) (s : manager) : manager :=
  Manager (llm_config_service s) (max_instances s) (ttl s) (_instances s) d.

(** *** A state, output and exception monad for the coroutines *)

Definition M (A : Type) : Type := manager → manager * list event * (exn + A).

#[global] Instance M_ret : MRet M := λ A a s, (s, [], inr a).

#[global] Instance M_bind : MBind M := λ A B f m s,
  match m s with
  | (s1, out1, inl e) => (s1, out1, inl e)
  | (s1, out1, inr a) =>
      match f a s1 with
      | (s2, out2, r) => (s2, out1 ++ out2, r)
      end
  end.

Definition raise {A} (e : exn) : M A := λ s, (s, [], inl e).

Definition self : M manager := λ s, (s, [], inr s).

Definition update (f : manager → manager) : M unit := λ s, (f s, [], inr tt).

Definition emit (out : list event) : M unit := λ s, (s, out, inr tt).

(** *** [_remove_instance] *)

(** The [try] block: finalize, in order, each storage the instance has;
    the first [finalize()] that raises ends the block with a warning. *)
Fixpoint finalize_storages (k : key) (instance : LightRAG)
    (ss : list storage) : list event :=
  match ss with
  | [] => []
  | st :: ss' =>
      if decide (st ∈ attrs instance) then
        if decide (st ∈ finalize_raises instance) then
          [CallFinalize (obj_id instance) st; WarningFinalize k]
        else
          CallFinalize (obj_id instance) st :: finalize_storages k instance ss'
      else finalize_storages k instance ss'
  end.

Definition _remove_instance (k : key) : M unit :=
  s ← self;
  match dict_get k (_instances s) with
  | None => mret tt
  | Some instance =>
      emit (finalize_storages k instance all_storages);;
      update (set_instances (dict_del k (_instances s)));;
      match dict_get k (_last_access s) with
      | None => raise (KeyError k)
      | Some _ => update (set_last_access (dict_del k (_last_access s)))
      end
  end.

(** *** [get_instance] *)

(** What the collaborators answer during one call: the two readings of
    [datetime.now()] (the one compared with the TTL and the one stored as
    last access), the configuration service, the LLM factory and the
    [LightRAG] constructor. *)
Inductive fetch_result := FetchRaises (msg : string) | FetchNone | FetchConfig.

Record call_env := {
  now_check : Z;
  now_stamp : Z;
  fetch : fetch_result;
  factory : option exn;
  construct : exn + LightRAG
}.

(** Lines 83-94: [Some instance] on reuse, [None] when the build must run. *)
Definition lookup (k : key) (env : call_env) : M (option LightRAG) :=
  s ← self;
  match dict_get k (_instances s) with
  | None => mret None
  | Some instance =>
      let reuse : M (option LightRAG) :=
        update (λ s, set_instances (move_to_end k (_instances s)) s);;
        update (λ s, set_last_access (dict_set k (now_stamp env) (_last_access s)) s);;
        emit [DebugReusing k];;
        mret (Some instance) in
      match dict_get k (_last_access s) with
      | Some last_access =>
          if decide (now_check env - last_access > ttl s) then
            emit [InfoRemovingExpired k];;
            _remove_instance k;;
            mret None
          else reuse
      | None => reuse
      end
  end.

(** Lines 96-112: the configuration of the project, when a service is set. *)
Definition fetch_llm_config (project : string) (env : call_env) : M bool :=
  s ← self;
  if llm_config_service s then
    emit [CallGetDefaultConfig project];;
    match fetch env with
    | FetchConfig => emit [InfoUsingConfig];; mret true
    | FetchNone =>
        emit [ErrorFetchFailed project];;
        raise (ValueError "Failed to fetch LLM configuration")
    | FetchRaises _ =>
        emit [ErrorFetchFailed project];;
        raise (ValueError "Failed to fetch LLM configuration")
    end
  else mret false.

(** Lines 114-136: the factory functions and the constructor. *)
Definition build (k : key) (has_config : bool) (env : call_env) : M LightRAG :=
  (if has_config then
     emit [CallCreateLLM];;
     match factory env with
     | Some e => raise e
     | None => mret tt
     end
   else mret tt);;
  emit [InfoCreating k; CallLightRAG k];;
  match construct env with
  | inl e => raise e
  | inr instance => mret instance
  end.

(** Lines 142-149: the LRU eviction. *)
Definition enforce_max_instances : M unit :=
  s ← self;
  if decide (Z.of_nat (length (_instances s)) > max_instances s) then
    match keys (_instances s) with
    | oldest_key :: _ =>
        emit [InfoEvicting oldest_key];;
        _remove_instance oldest_key
    | [] => raise (Exception "StopIteration")
    end
  else mret tt.

(** Lines 96-156: what a miss does while it holds the lock. *)
Definition create_instance (k : key) (env : call_env) : M LightRAG :=
  has_config ← fetch_llm_config k.2 env;
  instance ← build k has_config env;
  update (λ s, set_instances (dict_set k instance (_instances s)) s);;
  update (λ s, set_last_access (dict_set k (now_stamp env) (_last_access s)) s);;
  enforce_max_instances;;
  s ← self;
  emit [InfoActive (length (_instances s)) (max_instances s) k];;
  mret instance.

Definition get_instance (k : key) (env : call_env) : M LightRAG :=
  hit ← lookup k env;
  match hit with
  | Some instance => mret instance
  | None => create_instance k env
  end.

(** *** [cleanup_expired] and [shutdown] *)

Fixpoint remove_each (log : key → list event) (ks : list key) : M unit :=
  match ks with
  | [] => mret tt
  | k :: ks' => emit (log k);; _remove_instance k;; remove_each log ks'
  end.

Definition cleanup_expired (now : Z) : M unit :=
  s ← self;
  let expired_keys :=
    keys (filter (λ kv, now - kv.2 > ttl s) (_last_access s)) in
  remove_each (λ k, [InfoCleaningExpired k]) expired_keys.

Definition shutdown : M unit :=
  emit [InfoShuttingDown];;
  s ← self;
  remove_each (λ _, []) (keys (_instances s));;
  emit [InfoAllCleaned].


(** *** [get_stats] *)

(** One element of ["instances"]; [last_access] is the time that the code
    renders with [isoformat()]. *)
Record instance_stats := {
  stats_tenant_id : string;
  stats_project_id : string;
  last_access : Z
}.

(** The dictionary [get_stats] returns. [ttl_minutes] is the quotient
    [self.ttl.total_seconds() / 60], kept as a fraction. *)
Record stats := {
  active_instances : nat;
  stats_max_instances : Z;
  ttl_minutes : QArith_base.Q;
  instances : list instance_stats
}.

(** The list comprehension over [self._instances.keys()]; the subscript
    [self._last_access[key]] raises [KeyError] for a key that has no last
    access. *)
Fixpoint instance_stats_of (la : list (key * Z)) (ks : list key)
    : exn + list instance_stats :=
  match ks with
  | [] => inr []
  | k :: ks' =>
      match dict_get k la with
      | None => inl (KeyError k)
      | Some t =>
          match instance_stats_of la ks' with
          | inl e => inl e
          | inr l =>
              inr ({| stats_tenant_id := k.1; stats_project_id := k.2;
                      last_access := t |} :: l)
          end
      end
  end.

Definition get_stats (s : manager) : exn + stats :=
  match instance_stats_of (_last_access s) (keys (_instances s)) with
  | inl e => inl e
  | inr l =>
      inr {| active_instances := length (_instances s);
             stats_max_instances := max_instances s;
             ttl_minutes := QArith_base.Qmake (ttl s) 60000000;
             instances := l |}
  end.

(** Lines 96-140 of [get_instance]: what a miss does up to the eviction.
    The next statement awaits the [finalize()] calls of the entry it evicts,
    and [get_stats], which takes no lock, can run at that await. *)
Definition insert_instance (k : key) (env : call_env) : M LightRAG :=
  has_config ← fetch_llm_config k.2 env;
  instance ← build k has_config env;
  update (λ s, set_instances (dict_set k instance (_instances s)) s);;
  update (λ s, set_last_access (dict_set k (now_stamp env) (_last_access s)) s);;
  mret instance.

(** *** The public operations, and runs of them *)

Inductive op :=
| GetInstance (k : key) (env : call_env)
| CleanupExpired (now : Z)
| Shutdown.

Definition exec (o : op) : M unit :=
  match o with
  | GetInstance k env => get_instance k env;; mret tt
  | CleanupExpired now => cleanup_expired now
  | Shutdown => shutdown
  end.

(** The manager after the operations [ops], run one after the other; an
    operation that raises leaves the state it had reached. *)
Definition run (ops : list op) (s : manager) : manager :=
  foldl (λ s o, (exec o s).1.1) s ops.

(** The keys the operations log as evicted for capacity. *)
Definition evicted (out : list event) : list key :=
  omap (λ e, match e with InfoEvicting k => Some k | _ => None end) out.

(** The builder runs once per [LightRAG(...)] call. *)
Definition is_build (e : event) : bool :=
  match e with CallLightRAG _ => true | _ => false end.

Definition builds (out : list event) : nat := length (filter is_build out).

(** *** Coroutines that call [get_instance] at the same time

    The body of [get_instance] runs under [async with self._lock]. A
    coroutine waits for the lock, takes it and runs the lookup; on a hit it
    returns at once, on a miss it keeps the lock over the awaits of the build
    and releases it when the build has ended. Between two awaits a coroutine
    runs alone, so a run of the system is a sequence of such segments. *)

Inductive task :=
| Waiting (k : key)
| Building (k : key) (env : call_env)
| Returned (r : exn + LightRAG).

Record system := System {
  cache : manager;
  lock : option nat;
  tasks : list task;
  output : list event
}.

Inductive label :=
| Enter (i : nat) (env : call_env)
| Complete (i : nat).

(** One segment; [None] when the coroutine cannot run it (it is not at that
    point, or the lock is taken). *)
Definition step (l : label) (sys : system) : option system :=
  match l with
  | Enter i env =>
      match lock sys, tasks sys !! i with
      | None, Some (Waiting k) =>
          match lookup k env (cache sys) with
          | (s, out, inr None) =>
              Some (System s (Some i) (<[i := Building k env]> (tasks sys))
                      (output sys ++ out))
          | (s, out, inr (Some instance)) =>
              Some (System s None (<[i := Returned (inr instance)]> (tasks sys))
                      (output sys ++ out))
          | (s, out, inl e) =>
              Some (System s None (<[i := Returned (inl e)]> (tasks sys))
                      (output sys ++ out))
          end
      | _, _ => None
      end
  | Complete i =>
      match tasks sys !! i with
      | Some (Building k env) =>
          if decide (lock sys = Some i) then
            match create_instance k env (cache sys) with
            | (s, out, r) =>
                Some (System s None (<[i := Returned r]> (tasks sys))
                        (output sys ++ out))
            end
          else None
      | _ => None
      end
  end.

Fixpoint run_schedule (schedule : list label) (sys : system) : option system :=
  match schedule with
  | [] => Some sys
  | l :: schedule' =>
      match step l sys with
      | Some sys' => run_schedule schedule' sys'
      | None => None
      end
  end.

(** [n] calls for the key [k], all issued before any of them has the lock. *)
Definition concurrent_calls (s : manager) (k : key) (n : nat) : system :=
  System s None (replicate n (Waiting k)) [].

Definition all_returned (sys : system) : Prop :=
  Forall (λ t, ∃ r, t = Returned r) (tasks sys).

(** Single flight, for the calls of one schedule: one build, one instance for
    every caller. *)
Definition single_flight (s : manager) (k : key) (n : nat)
    (schedule : list label) : Prop :=
  ∀ sys, run_schedule schedule (concurrent_calls s k n) = Some sys →
    all_returned sys →
    builds (output sys) = 1%nat ∧
    ∃ instance, tasks sys = replicate n (Returned (inr instance)).

(** *** The vocabulary of the statements *)

(** Both dictionaries hold the same keys. *)
Definition synced (s : manager) : Prop :=
  ∀ k, k ∈ keys (_instances s) ↔ k ∈ keys (_last_access s).

(** The dictionaries have one entry per key, the same keys, and never more
    entries than a non-negative [max_instances]. *)
Record well_formed (s : manager) : Prop := {
  wf_instances : NoDup (keys (_instances s));
  wf_last_access : NoDup (keys (_last_access s));
  wf_synced : synced s;
  wf_bounded : Z.of_nat (length (_instances s)) ≤ Z.max 0 (max_instances s)
}.

Definition within_capacity (s : manager) : Prop :=
  Z.of_nat (length (_instances s)) ≤ max_instances s.

(** [o] is a [get_instance] call for the key [k]. *)
Definition is_call_for (k : key) (o : op) : Prop :=
  match o with
  | GetInstance k' _ => k' = k
  | _ => False
  end.

#[global] Instance is_call_for_dec k o : Decision (is_call_for k o).
Proof. destruct o; simpl; apply _. Defined.

(** The position, counted from 1, of the last [get_instance] call for [k]
    among the calls [ops], and 0 when there is none. A call that raises
    leaves no entry for its key, so for a cached entry this is the call that
    returned it last. *)
Fixpoint last_use (ops : list op) (k : key) : nat :=
  match ops with
  | [] => 0
  | o :: ops' =>
      match last_use ops' k with
      | S n => S (S n)
      | O => if decide (is_call_for k o) then 1 else 0
      end
  end.

(** Among the entries [ks], [k0] is the one that was used least recently:
    the last call for it comes before the last call for any other. *)
Definition least_recently_used (ops : list op) (ks : list key) (k0 : key) : Prop :=
  k0 ∈ ks ∧ ∀ k, k ∈ ks → k ≠ k0 → (last_use ops k0 < last_use ops k)%nat.

(** The order of [_instances] is the order of the last uses. *)
Definition by_use (ops : list op) (s : manager) : Prop :=
  StronglySorted lt (last_use ops <$> keys (_instances s)).

(** The entry of [k] has been idle for more than the TTL at the time [now]. *)
Definition idle_past_ttl (now : Z) (s : manager) (k : key) : Prop :=
  ∃ t, dict_get k (_last_access s) = Some t ∧ now - t > ttl s.

(** The call does not reuse a cached instance. *)
Definition miss (k : key) (env : call_env) (s : manager) : Prop :=
  k ∉ keys (_instances s) ∨ idle_past_ttl (now_check env) s k.

(** The configuration of [s'] is that of [s]. *)
Definition same_config (s s' : manager) : Prop :=
  llm_config_service s' = llm_config_service s ∧
  max_instances s' = max_instances s ∧
  ttl s' = ttl s.

(** The cache without the entry of [k]. *)
Definition remove_entry (k : key) (s : manager) : manager :=
  Manager (llm_config_service s) (max_instances s) (ttl s)
    (dict_del k (_instances s)) (dict_del k (_last_access s)).

Definition remove_entries (ks : list key) (s : manager) : manager :=
  foldl (λ s k, remove_entry k s) s ks.

(** What [_remove_instance k] writes. *)
Definition finalize_out (k : key) (s : manager) : list event :=
  match dict_get k (_instances s) with
  | Some instance => finalize_storages k instance all_storages
  | None => []
  end.

(** The cache with [k] as its most recent entry, holding [instance]. *)
Definition touched (k : key) (instance : LightRAG) (now : Z) (s : manager) : manager :=
  Manager (llm_config_service s) (max_instances s) (ttl s)
    (dict_del k (_instances s) ++ [(k, instance)])
    (dict_set k now (_last_access s)).

(** The keys [cleanup_expired] collects. *)
Definition expired_keys (now : Z) (s : manager) : list key :=
  keys (filter (λ kv, now - kv.2 > ttl s) (_last_access s)).

(** The storages that [_remove_instance] finds on an instance, in the order
    it probes them. *)
Definition storages_of (instance : LightRAG) : list storage :=
  filter (λ st, st ∈ attrs instance) all_storages.

(** What a sweep over the keys [ks] writes. *)
Fixpoint sweep_out (log : key → list event) (ks : list key) (s : manager)
    : list event :=
  match ks with
  | [] => []
  | k :: ks' => log k ++ finalize_out k s ++ sweep_out log ks' (remove_entry k s)
  end.

(** What lines 96-136 give: the instance, or the exception they raise. *)
Definition builder_result (svc : bool) (env : call_env) : exn + LightRAG :=
  if svc then
    match fetch env with
    | FetchConfig =>
        match factory env with
        | Some e => inl e
        | None => construct env
        end
    | _ => inl (ValueError "Failed to fetch LLM configuration")
    end
  else construct env.

(** The ways [create_instance] ends on a cache that does not hold [k]. *)
Inductive create_outcome (k : key) (env : call_env) (s : manager) :
    manager * list event * (exn + LightRAG) → Prop :=
| CreateFailed e out :
    evicted out = [] → (builds out ≤ 1)%nat →
    create_outcome k env s (s, out, inl e)
| Created instance out :
    let m := touched k instance (now_stamp env) s in
    within_capacity m → evicted out = [] → builds out = 1%nat →
    create_outcome k env s (m, out, inr instance)
| CreatedEvicting instance out oldest :
    let m := touched k instance (now_stamp env) s in
    ¬ within_capacity m → head (keys (_instances m)) = Some oldest →
    evicted out = [oldest] → builds out = 1%nat →
    create_outcome k env s (remove_entry oldest m, out, inr instance).

(** The ways [get_instance] ends. *)
Inductive get_instance_outcome (k : key) (env : call_env) (s : manager) :
    manager * list event * (exn + LightRAG) → Prop :=
| Reused instance t :
    dict_get k (_instances s) = Some instance →
    dict_get k (_last_access s) = Some t →
    now_check env - t ≤ ttl s →
    get_instance_outcome k env s
      (touched k instance (now_stamp env) s, [DebugReusing k], inr instance)
| Missed res out :
    miss k env s →
    create_outcome k env (remove_entry k s) res →
    evicted out = [] → builds out = 0%nat →
    get_instance_outcome k env s (res.1.1, out ++ res.1.2, res.2).

(** The statement of the capacity claim for the call [get_instance k env]
    issued after the operations [ops] on a new manager: the count is within
    the maximum when the call returns; a call that inserts nothing evicts
    nothing; and a call that inserts evicts nothing while the count is
    within the maximum, and otherwise exactly the least recently used
    entry of the cache that holds the new one. *)
Definition capacity_respected (svc : bool) (max_inst ttl_minutes : Z)
    (ops : list op) (k : key) (env : call_env) : Prop :=
  let s := run ops (init svc max_inst ttl_minutes) in
  let result := get_instance k env s in
  let s' := result.1.1 in
  let out := result.1.2 in
  within_capacity s' ∧
  (¬ miss k env s → evicted out = []) ∧
  (∀ e, result.2 = inl e → evicted out = []) ∧
  (∀ instance, miss k env s → result.2 = inr instance →
     let m := touched k instance (now_stamp env) (remove_entry k s) in
     (within_capacity m → evicted out = [] ∧ s' = m) ∧
     (¬ within_capacity m →
        ∃ lru, evicted out = [lru] ∧ s' = remove_entry lru m ∧
               least_recently_used (ops ++ [GetInstance k env])
                 (keys (_instances m)) lru ∧
               (lru ∉ keys (_instances s')) ∧
               S (length (_instances s')) = length (_instances m))).

Definition sample_instance (n : nat) (k : key) : LightRAG :=
  {| obj_id := n; tenant_id := k.1; project_id := k.2;
     attrs := all_storages; finalize_raises := [] |}.

Definition sample_env (t : Z) (n : nat) (k : key) : call_env :=
  {| now_check := t; now_stamp := t + 1; fetch := FetchConfig; factory := None;
     construct := inr (sample_instance n k) |}.

(** What the call writes when it drops the idle entry of [k]. *)
Definition teardown (k : key) (old : LightRAG) : list event :=
  InfoRemovingExpired k :: finalize_storages k old all_storages.

(** What the amended single-flight statement asks of a call that enters:
    its build succeeds, and its two clock readings lie in a window, starting
    at [t0], that is no longer than the TTL. *)
Definition env_ok (s : manager) (t0 : Z) (env : call_env) : Prop :=
  (∃ instance, builder_result (llm_config_service s) env = inr instance) ∧
  t0 ≤ now_stamp env ∧ now_check env ≤ t0 + ttl s.

Definition enters_ok (s : manager) (t0 : Z) (l : label) : Prop :=
  match l with
  | Enter _ env => env_ok s t0 env
  | Complete _ => True
  end.

(** Where [n] concurrent calls for [k] stand: none has the lock yet; one holds
    it and builds; or the instance is cached and callers get it. *)
Inductive phase (s0 : manager) (k : key) (n : nat) (t0 : Z) (sys : system) : Prop :=
| AllWaiting :
    lock sys = None →
    tasks sys = replicate n (Waiting k) →
    k ∉ keys (_instances (cache sys)) →
    builds (output sys) = 0%nat →
    phase s0 k n t0 sys
| OneBuilding i env :
    lock sys = Some i →
    tasks sys = <[i := Building k env]> (replicate n (Waiting k)) →
    (i < n)%nat →
    env_ok s0 t0 env →
    k ∉ keys (_instances (cache sys)) →
    builds (output sys) = 0%nat →
    phase s0 k n t0 sys
| InstanceBuilt instance t :
    lock sys = None →
    dict_get k (_instances (cache sys)) = Some instance →
    dict_get k (_last_access (cache sys)) = Some t →
    t0 ≤ t →
    builds (output sys) = 1%nat →
    length (tasks sys) = n →
    Forall (λ x, x = Waiting k ∨ x = Returned (inr instance)) (tasks sys) →
    phase s0 k n t0 sys.

Definition failing_env : call_env :=
  {| now_check := 0; now_stamp := 0; fetch := FetchConfig; factory := None;
     construct := inl (Exception "provider error") |}.

(** *** [_remove_instance], [remove_entry] and [touched] *)

Ltac unfold_M :=
  unfold mbind, M_bind, mret, M_ret, raise, self, update, emit in *; simpl in *.

Lemma remove_instance_synced k s :
  synced s → _remove_instance k s = (remove_entry k s, finalize_out k s, inr tt).
Proof.
  intros Hs. unfold _remove_instance, finalize_out, remove_entry. unfold_M.
  destruct (dict_get k (_instances s)) as [i|] eqn:Hi.
  - assert (k ∈ keys (_instances s)) as Hin by (apply dict_get_is_Some; eauto).
    apply Hs, dict_get_is_Some in Hin as [t Ht]. rewrite Ht. simpl.
    by rewrite app_nil_r.
  - apply dict_get_None in Hi. assert (k ∉ keys (_last_access s)) as Hl
      by (intros ?; by apply Hi, Hs).
    rewrite !dict_del_absent by done. by destruct s.
Qed.

Lemma sorted_fmap_filter {A B} (R : relation B) (f : A → B) (P : A → Prop)
    `{!∀ x, Decision (P x)} (l : list A) :
  StronglySorted R (f <$> l) → StronglySorted R (f <$> filter P l).
Proof.
  induction l as [|a l IH]; simpl; [done|].
  intros Hs. apply StronglySorted_inv in Hs as [Hl Ha].
  rewrite filter_cons. destruct (decide (P a)); [|by auto].
  simpl. constructor; [by auto|].
  rewrite Forall_fmap in Ha |- *. rewrite Forall_forall in Ha |- *.
  intros x Hx. apply list_elem_of_filter in Hx as [_ Hx]. by apply Ha.
Qed.

Section RemoveEntry.
Context (k : key) (s : manager).

Lemma remove_entry_synced : synced s → synced (remove_entry k s).
Proof.
  intros Hs k'. simpl. rewrite !elem_of_keys_dict_del. by rewrite (Hs k').
Qed.

Lemma remove_entry_length :
  NoDup (keys (_instances s)) → k ∈ keys (_instances s) →
  S (length (_instances (remove_entry k s))) = length (_instances s).
Proof. apply length_dict_del. Qed.

Lemma remove_entry_length_le :
  (length (_instances (remove_entry k s)) ≤ length (_instances s))%nat.
Proof.
  simpl. rewrite <- !(length_fmap fst). fold (keys (dict_del k (_instances s))).
  rewrite keys_dict_del. apply length_filter.
Qed.

Lemma remove_entry_absent :
  synced s → k ∉ keys (_instances s) → remove_entry k s = s.
Proof.
  intros Hs Hk. unfold remove_entry.
  assert (k ∉ keys (_last_access s)) by (intros ?; by apply Hk, Hs).
  rewrite !dict_del_absent by done. by destruct s.
Qed.

Lemma remove_entry_removes : k ∉ keys (_instances (remove_entry k s)).
Proof. simpl. rewrite elem_of_keys_dict_del. tauto. Qed.

Lemma remove_entry_well_formed : well_formed s → well_formed (remove_entry k s).
Proof.
  intros [Hi Hl Hsy Hb]. split.
  - by apply NoDup_keys_dict_del.
  - by apply NoDup_keys_dict_del.
  - by apply remove_entry_synced.
  - pose proof remove_entry_length_le. simpl in *. lia.
Qed.
End RemoveEntry.

Lemma remove_entries_well_formed ks s :
  well_formed s → well_formed (remove_entries ks s).
Proof.
  revert s. induction ks as [|k ks IH]; intros s Hs; simpl; [done|].
  by apply IH, remove_entry_well_formed.
Qed.

Lemma keys_remove_entries ks s k :
  k ∈ keys (_instances (remove_entries ks s)) ↔ k ∈ keys (_instances s) ∧ k ∉ ks.
Proof.
  revert s. induction ks as [|k' ks IH]; intros s; simpl.
  - split; [intros ?; split; [done|apply not_elem_of_nil] | tauto].
  - rewrite IH. simpl. rewrite elem_of_keys_dict_del, not_elem_of_cons. tauto.
Qed.

Lemma last_access_remove_entries ks s k :
  dict_get k (_last_access (remove_entries ks s))
  = if decide (k ∈ ks) then None else dict_get k (_last_access s).
Proof.
  revert s. induction ks as [|k' ks IH]; intros s; simpl.
  - destruct (decide (k ∈ [])) as [Hin|]; [by apply elem_of_nil in Hin|done].
  - rewrite IH. simpl. rewrite dict_get_dict_del.
    destruct (decide (k ∈ k' :: ks)) as [Hin|Hin].
    + apply elem_of_cons in Hin as [->|Hin].
      * destruct (decide (k' ∈ ks)); [done|]. by rewrite decide_True.
      * by rewrite decide_True.
    + apply not_elem_of_cons in Hin as [? ?].
      rewrite decide_False by done. by rewrite decide_False.
Qed.

Section Touched.
Context (k : key) (instance : LightRAG) (now : Z) (s : manager).

Lemma keys_touched :
  keys (_instances (touched k instance now s))
  = filter (λ x, x ≠ k) (keys (_instances s)) ++ [k].
Proof.
  simpl. unfold keys at 1. rewrite fmap_app.
  fold (keys (dict_del k (_instances s))). by rewrite keys_dict_del.
Qed.

Lemma touched_synced : synced s → synced (touched k instance now s).
Proof.
  intros Hs k'. rewrite keys_touched. simpl.
  rewrite elem_of_keys_dict_set, elem_of_app, list_elem_of_filter,
    list_elem_of_singleton, <- (Hs k').
  destruct (decide (k' = k)); tauto.
Qed.

Lemma touched_NoDup :
  NoDup (keys (_instances s)) → NoDup (keys (_instances (touched k instance now s))).
Proof.
  intros Hnd. rewrite keys_touched. apply NoDup_app. split_and!.
  - by apply NoDup_filter.
  - intros x Hx ->%list_elem_of_singleton. by apply list_elem_of_filter in Hx as [? _].
  - apply NoDup_singleton.
Qed.

Lemma touched_length :
  length (_instances (touched k instance now s))
  = S (length (dict_del k (_instances s))).
Proof. simpl. rewrite length_app. simpl. lia. Qed.

Lemma touched_length_present :
  NoDup (keys (_instances s)) → k ∈ keys (_instances s) →
  length (_instances (touched k instance now s)) = length (_instances s).
Proof. intros Hnd Hin. rewrite touched_length. by apply length_dict_del. Qed.

Lemma touched_lookup :
  dict_get k (_instances (touched k instance now s)) = Some instance ∧
  dict_get k (_last_access (touched k instance now s)) = Some now.
Proof.
  simpl. rewrite dict_get_app, dict_get_dict_del, dict_get_dict_set.
  rewrite !decide_True by done. simpl. by rewrite decide_True.
Qed.
End Touched.

Lemma evicted_app out1 out2 : evicted (out1 ++ out2) = evicted out1 ++ evicted out2.
Proof. apply omap_app. Qed.

Lemma builds_app out1 out2 : builds (out1 ++ out2) = (builds out1 + builds out2)%nat.
Proof. unfold builds. by rewrite filter_app, length_app. Qed.

Lemma finalize_storages_quiet k instance ss :
  evicted (finalize_storages k instance ss) = [] ∧
  builds (finalize_storages k instance ss) = 0%nat.
Proof.
  induction ss as [|st ss IH]; simpl; [done|].
  repeat case_decide; done.
Qed.

Lemma finalize_out_quiet k s :
  evicted (finalize_out k s) = [] ∧ builds (finalize_out k s) = 0%nat.
Proof.
  unfold finalize_out. destruct (dict_get k (_instances s)); [|done].
  apply finalize_storages_quiet.
Qed.

(** *** The phases of [get_instance] *)

Lemma lookup_absent k env s :
  dict_get k (_instances s) = None → lookup k env s = (s, [], inr None).
Proof. intros Hg. unfold lookup. unfold_M. by rewrite Hg. Qed.

Lemma lookup_expired k env s instance t :
  synced s →
  dict_get k (_instances s) = Some instance →
  dict_get k (_last_access s) = Some t →
  now_check env - t > ttl s →
  lookup k env s
  = (remove_entry k s,
     InfoRemovingExpired k :: finalize_storages k instance all_storages,
     inr None).
Proof.
  intros Hs Hi Ht Hexp. unfold lookup. unfold_M. rewrite Hi, Ht.
  rewrite decide_True by done.
  rewrite (remove_instance_synced _ _ Hs). unfold finalize_out. rewrite Hi.
  by rewrite app_nil_r.
Qed.

Lemma lookup_reuse k env s instance t :
  dict_get k (_instances s) = Some instance →
  dict_get k (_last_access s) = Some t →
  now_check env - t ≤ ttl s →
  lookup k env s
  = (touched k instance (now_stamp env) s, [DebugReusing k], inr (Some instance)).
Proof.
  intros Hi Ht Hexp. unfold lookup. unfold_M. rewrite Hi, Ht.
  rewrite decide_False by lia. unfold move_to_end. rewrite Hi. done.
Qed.

Lemma lookup_cases k env s :
  synced s →
  (∃ instance t, dict_get k (_instances s) = Some instance ∧
     dict_get k (_last_access s) = Some t ∧ now_check env - t ≤ ttl s) ∨
  (miss k env s ∧ ∃ out, lookup k env s = (remove_entry k s, out, inr None) ∧
     evicted out = [] ∧ builds out = 0%nat).
Proof.
  intros Hs. destruct (dict_get k (_instances s)) as [instance|] eqn:Hi.
  - assert (k ∈ keys (_instances s)) as Hin by (apply dict_get_is_Some; eauto).
    apply Hs, dict_get_is_Some in Hin as [t Ht].
    destruct (decide (now_check env - t > ttl s)) as [Hexp|Hexp].
    + right. split; [right; by exists t|].
      eexists. split; [by eapply lookup_expired|].
      destruct (finalize_storages_quiet k instance all_storages) as [He Hb].
      split; [exact He | exact Hb].
    + left. exists instance, t. split_and!; [done..|lia].
  - right. assert (k ∉ keys (_instances s)) by by apply dict_get_None.
    split; [by left|]. exists []. rewrite lookup_absent by done.
    by rewrite remove_entry_absent.
Qed.

Lemma miss_not_reused k env s instance t :
  miss k env s →
  dict_get k (_instances s) = Some instance →
  dict_get k (_last_access s) = Some t →
  now_check env - t ≤ ttl s → False.
Proof.
  intros [Habs|(t' & Ht' & Hexp)] Hi Ht Hfresh.
  - apply Habs, dict_get_is_Some. eauto.
  - rewrite Ht in Ht'. injection Ht' as <-. lia.
Qed.

Lemma fetch_llm_config_spec project env s :
  ∃ out,
    fetch_llm_config project env s
    = (s, out,
       if llm_config_service s then
         match fetch env with
         | FetchConfig => inr true
         | _ => inl (ValueError "Failed to fetch LLM configuration")
         end
       else inr false) ∧
    evicted out = [] ∧ builds out = 0%nat.
Proof.
  unfold fetch_llm_config. unfold_M.
  destruct (llm_config_service s); [|by exists []].
  destruct (fetch env); simpl; eexists; split_and!; reflexivity.
Qed.

Lemma build_spec (k : key) (has_config : bool) (env : call_env) (s : manager) :
  let r : exn + LightRAG :=
    if has_config then
      match factory env with Some e => inl e | None => construct env end
    else construct env in
  ∃ out,
    build k has_config env s = (s, out, r) ∧ evicted out = [] ∧
    match r with
    | inl _ => (builds out ≤ 1)%nat
    | inr _ => builds out = 1%nat
    end.
Proof.
  unfold build. unfold_M.
  destruct has_config, (factory env) as [e|], (construct env) as [e'|instance];
    simpl; eexists; (split_and!; [reflexivity..|]);
    first [ reflexivity | vm_compute; lia ].
Qed.

Lemma enforce_within m :
  within_capacity m → enforce_max_instances m = (m, [], inr tt).
Proof.
  intros Hc. unfold enforce_max_instances. unfold_M.
  unfold within_capacity in Hc. by rewrite decide_False by lia.
Qed.

Lemma enforce_exceeding m oldest :
  synced m → ¬ within_capacity m →
  head (keys (_instances m)) = Some oldest →
  enforce_max_instances m
  = (remove_entry oldest m, InfoEvicting oldest :: finalize_out oldest m, inr tt).
Proof.
  intros Hs Hc Hh. unfold enforce_max_instances. unfold_M.
  unfold within_capacity in Hc. rewrite decide_True by lia.
  destruct (keys (_instances m)) as [|k0 ks]; [done|].
  injection Hh as ->. by rewrite (remove_instance_synced _ _ Hs).
Qed.

Lemma insert_absent k instance now s :
  k ∉ keys (_instances s) →
  set_last_access (dict_set k now (_last_access s))
    (set_instances (dict_set k instance (_instances s)) s)
  = touched k instance now s.
Proof.
  intros Hk. unfold touched, set_last_access, set_instances. simpl. f_equal.
  rewrite dict_del_absent by done. by apply dict_set_absent.
Qed.

Lemma head_touched k instance now s :
  ∃ oldest, head (keys (_instances (touched k instance now s))) = Some oldest.
Proof. rewrite keys_touched. destruct (filter _ _); simpl; eauto. Qed.

Lemma create_instance_cases k env s :
  synced s → k ∉ keys (_instances s) →
  create_outcome k env s (create_instance k env s) ∧
  (create_instance k env s).2 = builder_result (llm_config_service s) env.
Proof.
  intros Hs Hk. unfold create_instance, builder_result. unfold_M.
  destruct (fetch_llm_config_spec k.2 env s) as (out1 & -> & He1 & Hb1).
  assert (∃ has_config, has_config = llm_config_service s) as [has_config Hsvc]
    by eauto.
  destruct (build_spec k has_config env s) as (out2 & Hbuild & He2 & Hb2).
  cbv zeta in Hb2. rewrite <- Hsvc.
  destruct has_config; [destruct (fetch env)|].
  1,2: split; [|done]; apply CreateFailed; [done|lia].
  all: rewrite Hbuild; clear Hbuild; simpl.
  all: destruct (factory env) as [e0|]; try (destruct (construct env) as [e|instance]).
  all: try (split; [|done]; apply CreateFailed;
            [by rewrite evicted_app, He1, He2|rewrite builds_app, Hb1; lia]).
  all: rewrite (insert_absent _ _ _ _ Hk).
  all: set (m := touched k instance (now_stamp env) s).
  all: assert (synced m) as Hsm by by apply touched_synced.
  all: destruct (decide (within_capacity m)) as [Hcap|Hcap];
       [ rewrite enforce_within by done; simpl; split; [|done];
         apply Created;
         [ done | by rewrite !evicted_app, He1, He2
         | by rewrite !builds_app, Hb1, Hb2 ]
       | destruct (head_touched k instance (now_stamp env) s) as [oldest Ho];
         rewrite (enforce_exceeding _ _ Hsm Hcap Ho); simpl; split; [|done];
         destruct (finalize_out_quiet oldest m) as [He4 Hb4];
         apply CreatedEvicting;
         [ done | done
         | rewrite !evicted_app, He1, He2; simpl; by rewrite evicted_app, He4
         | rewrite !builds_app, Hb1, Hb2; simpl;
           change (builds (InfoEvicting oldest :: ?l)) with (builds l);
           by rewrite builds_app, Hb4 ] ].
Qed.

Lemma get_instance_miss k env s out1 :
  lookup k env s = (remove_entry k s, out1, inr None) →
  get_instance k env s
  = ((create_instance k env (remove_entry k s)).1.1,
     out1 ++ (create_instance k env (remove_entry k s)).1.2,
     (create_instance k env (remove_entry k s)).2).
Proof.
  intros Hl. unfold get_instance. unfold mbind at 1. unfold M_bind at 1.
  rewrite Hl. by destruct (create_instance k env (remove_entry k s)) as [[s' out] r].
Qed.

Lemma get_instance_cases k env s :
  synced s → get_instance_outcome k env s (get_instance k env s).
Proof.
  intros Hs. destruct (lookup_cases k env s Hs)
    as [(instance & t & Hi & Ht & Hfresh)|(Hmiss & out1 & Hl & He1 & Hb1)].
  - unfold get_instance. unfold_M. rewrite (lookup_reuse _ _ _ _ _ Hi Ht Hfresh).
    simpl. eapply Reused; eauto.
  - rewrite (get_instance_miss _ _ _ _ Hl). apply Missed; [done| |done..].
    apply create_instance_cases.
    + by apply remove_entry_synced.
    + apply remove_entry_removes.
Qed.

(** A miss returns what the builder gives. *)
Lemma get_instance_miss_result k env s :
  synced s → miss k env s →
  (get_instance k env s).2 = builder_result (llm_config_service s) env.
Proof.
  intros Hs Hmiss. destruct (lookup_cases k env s Hs)
    as [(instance & t & Hi & Ht & Hfresh)|(_ & out1 & Hl & _)].
  - destruct (miss_not_reused _ _ _ _ _ Hmiss Hi Ht Hfresh).
  - rewrite (get_instance_miss _ _ _ _ Hl). simpl.
    apply (create_instance_cases k env (remove_entry k s)).
    + by apply remove_entry_synced.
    + apply remove_entry_removes.
Qed.

(** *** Sweeps *)

Lemma remove_each_synced log ks s :
  synced s →
  (∀ k, evicted (log k) = []) →
  ∃ out, remove_each log ks s = (remove_entries ks s, out, inr tt) ∧ evicted out = [].
Proof.
  intros Hs Hlog. revert s Hs. induction ks as [|k ks IH]; intros s Hs; simpl.
  - by exists [].
  - unfold_M. rewrite (remove_instance_synced _ _ Hs).
    destruct (IH (remove_entry k s)) as (out & -> & He); [by apply remove_entry_synced|].
    eexists. split; [done|].
    rewrite !evicted_app, Hlog, He. by destruct (finalize_out_quiet k s) as [-> _].
Qed.

Lemma cleanup_expired_synced now s :
  synced s →
  ∃ out, cleanup_expired now s = (remove_entries (expired_keys now s) s, out, inr tt)
         ∧ evicted out = [].
Proof.
  intros Hs. unfold cleanup_expired. unfold_M.
  destruct (remove_each_synced (λ k, [InfoCleaningExpired k]) (expired_keys now s) s)
    as (out & Hr & He); [done..|].
  unfold expired_keys in Hr. rewrite Hr. eauto.
Qed.

Lemma shutdown_synced s :
  synced s →
  ∃ out, shutdown s = (remove_entries (keys (_instances s)) s, out, inr tt)
         ∧ evicted out = [].
Proof.
  intros Hs. unfold shutdown. unfold_M.
  destruct (remove_each_synced (λ _, []) (keys (_instances s)) s)
    as (out & -> & He); [done..|].
  eexists. split; [done|].
  change (evicted (InfoShuttingDown :: ?l)) with (evicted l).
  by rewrite evicted_app, He.
Qed.

Lemma elem_of_expired_keys now s k :
  NoDup (keys (_last_access s)) →
  k ∈ expired_keys now s ↔ idle_past_ttl now s k.
Proof.
  intros Hnd. unfold expired_keys, idle_past_ttl, keys.
  rewrite list_elem_of_fmap. split.
  - intros ([k' t] & -> & Hin). apply list_elem_of_filter in Hin as [Hexp Hin].
    exists t. split; [by apply elem_of_dict_get|done].
  - intros (t & Ht & Hexp). exists (k, t). split; [done|].
    apply list_elem_of_filter. split; [done|]. by apply dict_get_elem_of.
Qed.

(** *** Well-formedness is kept by every operation *)

Lemma touched_well_formed k instance now s :
  well_formed s →
  Z.of_nat (length (_instances (touched k instance now s))) ≤ Z.max 0 (max_instances s) →
  well_formed (touched k instance now s).
Proof.
  intros [Hi Hl Hsy Hb] Hlen. split.
  - by apply touched_NoDup.
  - by apply NoDup_keys_dict_set.
  - by apply touched_synced.
  - done.
Qed.

Lemma create_outcome_well_formed k env s res :
  well_formed s → create_outcome k env s res → well_formed res.1.1.
Proof.
  intros Hwf Hout. destruct Hout as [e out|instance out m Hcap|instance out oldest m Hcap Hh];
    cbn [fst].
  - done.
  - apply touched_well_formed; [done|]. unfold within_capacity in Hcap. simpl in *. lia.
  - assert (NoDup (keys (_instances m))) as Hnd by by apply touched_NoDup, Hwf.
    assert (oldest ∈ keys (_instances m)) as Hin.
    { destruct (keys (_instances m)); [done|]. injection Hh as ->. left. }
    pose proof (remove_entry_length oldest m Hnd Hin) as Hlen.
    pose proof (touched_length k instance (now_stamp env) s) as Hlen'. fold m in Hlen'.
    pose proof (remove_entry_length_le k s) as Hle. destruct Hwf as [Hi Hl Hsy Hb].
    assert (length (dict_del k (_instances s)) ≤ length (_instances s))%nat as Hle'
      by apply Hle.
    split.
    + by apply NoDup_keys_dict_del.
    + apply NoDup_keys_dict_del. by apply NoDup_keys_dict_set.
    + by apply remove_entry_synced, touched_synced.
    + change (max_instances (remove_entry oldest m)) with (max_instances s). lia.
Qed.

Lemma get_instance_well_formed k env s :
  well_formed s → well_formed (get_instance k env s).1.1.
Proof.
  intros Hwf. destruct (get_instance_cases k env s (wf_synced _ Hwf))
    as [instance t Hi Ht Hfresh|res out Hmiss Hout He Hb]; cbn [fst].
  - apply touched_well_formed; [done|].
    rewrite touched_length_present; [apply Hwf..|].
    apply dict_get_is_Some. eauto.
  - eapply create_outcome_well_formed; [|done]. by apply remove_entry_well_formed.
Qed.

Lemma exec_well_formed o s : well_formed s → well_formed (exec o s).1.1.
Proof.
  intros Hwf. pose proof (wf_synced _ Hwf) as Hs. destruct o as [k env|now|]; simpl.
  - unfold_M. pose proof (get_instance_well_formed k env s Hwf) as H.
    destruct (get_instance k env s) as [[s' out] [e|i]]; done.
  - destruct (cleanup_expired_synced now s Hs) as (out & -> & _).
    by apply remove_entries_well_formed.
  - destruct (shutdown_synced s Hs) as (out & -> & _).
    by apply remove_entries_well_formed.
Qed.

Lemma run_snoc ops o s : run (ops ++ [o]) s = (exec o (run ops s)).1.1.
Proof. unfold run. by rewrite foldl_snoc. Qed.

Lemma run_well_formed svc max_inst ttl_minutes ops :
  well_formed (run ops (init svc max_inst ttl_minutes)).
Proof.
  induction ops as [|o ops IH] using rev_ind.
  - split; simpl; [apply NoDup_nil_2..|done|lia].
  - rewrite run_snoc. by apply exec_well_formed.
Qed.

(** *** The order of the cache along a run *)

Lemma last_use_snoc ops o k :
  last_use (ops ++ [o]) k
  = if decide (is_call_for k o) then S (length ops) else last_use ops k.
Proof.
  induction ops as [|a ops IH]; simpl.
  - by case_decide.
  - rewrite IH. by case_decide.
Qed.

Lemma last_use_le ops k : (last_use ops k ≤ length ops)%nat.
Proof.
  induction ops as [|a ops IH]; simpl; [done|].
  destruct (last_use ops k); [case_decide|]; lia.
Qed.

Lemma by_use_remove_entry ops k s : by_use ops s → by_use ops (remove_entry k s).
Proof. unfold by_use. simpl. rewrite keys_dict_del. apply sorted_fmap_filter. Qed.

Lemma by_use_remove_entries ops ks s : by_use ops s → by_use ops (remove_entries ks s).
Proof.
  revert s. induction ks as [|k ks IH]; intros s Hs; simpl; [done|].
  by apply IH, by_use_remove_entry.
Qed.

(** A call that is for none of the cached keys leaves their last uses. *)
Lemma by_use_later ops o s :
  (∀ k, k ∈ keys (_instances s) → ¬ is_call_for k o) →
  by_use ops s → by_use (ops ++ [o]) s.
Proof.
  intros Hother Hs. unfold by_use.
  rewrite (list_fmap_ext _ (last_use ops) (keys (_instances s))); [done|].
  intros i k Hk. rewrite last_use_snoc. rewrite decide_False; [done|].
  by apply Hother, list_elem_of_lookup_2 with i.
Qed.

Lemma by_use_touched ops k env instance now s :
  by_use ops s → by_use (ops ++ [GetInstance k env]) (touched k instance now s).
Proof.
  intros Hs. unfold by_use. rewrite keys_touched, fmap_app. simpl.
  rewrite last_use_snoc, decide_True by done.
  rewrite (list_fmap_ext _ (last_use ops) (filter _ _)).
  - apply StronglySorted_app_2.
    + intros n1 n2 Hn1 ->%list_elem_of_singleton.
      apply list_elem_of_fmap in Hn1 as (k' & -> & _).
      pose proof (last_use_le ops k'). lia.
    + by apply sorted_fmap_filter.
    + repeat constructor.
  - intros i k' Hk'. apply list_elem_of_lookup_2, list_elem_of_filter in Hk' as [Hne _].
    rewrite last_use_snoc. rewrite decide_False; [done|]. simpl. congruence.
Qed.

Lemma by_use_get_instance ops k env s :
  synced s → by_use ops s →
  by_use (ops ++ [GetInstance k env]) (get_instance k env s).1.1.
Proof.
  intros Hsy Hs.
  destruct (get_instance_cases k env s Hsy)
    as [instance t Hi Ht Hfresh|res out Hmiss Hout He Hb]; cbn [fst].
  - by apply by_use_touched.
  - destruct Hout as [e out'|instance out' m Hcap|instance out' oldest m Hcap Hh];
      cbn [fst].
    + apply by_use_later; [|by apply by_use_remove_entry].
      intros k' Hk'. simpl in *. apply elem_of_keys_dict_del in Hk' as [? ?]. congruence.
    + by apply by_use_touched, by_use_remove_entry.
    + by apply by_use_remove_entry, by_use_touched, by_use_remove_entry.
Qed.

Lemma by_use_exec ops o s :
  synced s → by_use ops s → by_use (ops ++ [o]) (exec o s).1.1.
Proof.
  intros Hsy Hs. destruct o as [k env|now|]; simpl.
  - unfold_M. pose proof (by_use_get_instance ops k env s Hsy Hs) as H.
    destruct (get_instance k env s) as [[s' out] [e|i]]; done.
  - destruct (cleanup_expired_synced now s Hsy) as (out & -> & _).
    apply by_use_later; [intros ? ? []|]. by apply by_use_remove_entries.
  - destruct (shutdown_synced s Hsy) as (out & -> & _).
    apply by_use_later; [intros ? ? []|]. by apply by_use_remove_entries.
Qed.

Lemma run_by_use svc max_inst ttl_minutes ops :
  by_use ops (run ops (init svc max_inst ttl_minutes)).
Proof.
  induction ops as [|o ops IH] using rev_ind.
  - constructor.
  - rewrite run_snoc. apply by_use_exec; [|done]. apply run_well_formed.
Qed.

Lemma head_least_recently_used ops s oldest :
  by_use ops s → head (keys (_instances s)) = Some oldest →
  least_recently_used ops (keys (_instances s)) oldest.
Proof.
  unfold by_use. destruct (keys (_instances s)) as [|k0 ks]; [done|].
  simpl. intros Hs [= ->]. split; [left|].
  intros k Hk Hne. apply elem_of_cons in Hk as [->|Hk]; [done|].
  apply StronglySorted_inv in Hs as [_ Hall].
  rewrite Forall_fmap, Forall_forall in Hall. by apply Hall.
Qed.

(** With room for one entry, the entry just created is not the one evicted. *)
Lemma created_is_cached k env s res instance :
  synced s → k ∉ keys (_instances s) → 1 ≤ max_instances s →
  create_outcome k env s res → res.2 = inr instance →
  dict_get k (_instances res.1.1) = Some instance ∧
  dict_get k (_last_access res.1.1) = Some (now_stamp env).
Proof.
  intros Hsy Hk Hmax Hout Hres.
  destruct Hout as [e out|i out m Hcap|i out oldest m Hcap Hh];
    cbn [fst snd] in *; [done|injection Hres as ->..].
  - apply touched_lookup.
  - assert (oldest ≠ k) as Hne.
    { intros ->. unfold m in Hh, Hcap. unfold within_capacity in Hcap.
      rewrite touched_length in Hcap. simpl in Hh, Hcap.
      rewrite dict_del_absent in Hh, Hcap by done.
      destruct (_instances s) as [|[k1 i1] d]; [simpl in Hcap; lia|].
      simpl in Hh. injection Hh as ->. apply Hk. left. }
    cbn [remove_entry _instances _last_access]. rewrite !dict_get_dict_del.
    rewrite !decide_False by done. apply touched_lookup.
Qed.

(** *** The configuration never changes *)

Lemma remove_entries_same_config ks s : same_config s (remove_entries ks s).
Proof.
  revert s. induction ks as [|k ks IH]; intros s; simpl; [done|].
  destruct (IH (remove_entry k s)) as (? & ? & ?). done.
Qed.

Lemma create_outcome_same_config k env s res :
  create_outcome k env s res → same_config s res.1.1.
Proof. intros []; done. Qed.

Lemma get_instance_same_config k env s :
  synced s → same_config s (get_instance k env s).1.1.
Proof.
  intros Hsy. destruct (get_instance_cases k env s Hsy)
    as [instance t Hi Ht Hfresh|res out Hmiss Hout He Hb]; cbn [fst]; [done|].
  by destruct (create_outcome_same_config _ _ _ _ Hout) as (? & ? & ?).
Qed.

Lemma exec_same_config o s : synced s → same_config s (exec o s).1.1.
Proof.
  intros Hs. destruct o as [k env|now|]; simpl.
  - unfold_M. pose proof (get_instance_same_config k env s Hs) as H.
    destruct (get_instance k env s) as [[s' out] [e|i]]; done.
  - destruct (cleanup_expired_synced now s Hs) as (out & -> & _).
    apply remove_entries_same_config.
  - destruct (shutdown_synced s Hs) as (out & -> & _).
    apply remove_entries_same_config.
Qed.

Lemma run_same_config svc max_inst ttl_minutes ops :
  same_config (init svc max_inst ttl_minutes) (run ops (init svc max_inst ttl_minutes)).
Proof.
  induction ops as [|o ops IH] using rev_ind; [done|].
  rewrite run_snoc.
  destruct (exec_same_config o (run ops (init svc max_inst ttl_minutes)))
    as (? & ? & ?); [apply run_well_formed|].
  destruct IH as (? & ? & ?). split_and!; congruence.
Qed.

(** *** Expiry *)

Lemma get_instance_absent k env s :
  synced s → k ∉ keys (_instances s) →
  get_instance k env s = create_instance k env s.
Proof.
  intros Hsy Hk. rewrite (get_instance_miss k env s []).
  - rewrite remove_entry_absent by done.
    by destruct (create_instance k env s) as [[s' out] r].
  - rewrite remove_entry_absent by done. apply lookup_absent. by apply dict_get_None.
Qed.

Lemma remove_entries_not_idle now s k :
  NoDup (keys (_last_access s)) →
  ¬ idle_past_ttl now (remove_entries (expired_keys now s) s) k.
Proof.
  intros Hnd (t & Ht & Hexp). rewrite last_access_remove_entries in Ht.
  destruct (decide (k ∈ expired_keys now s)) as [|Hn]; [done|].
  apply Hn, elem_of_expired_keys; [done|]. exists t. split; [done|].
  by destruct (remove_entries_same_config (expired_keys now s) s) as (_ & _ & <-).
Qed.

(** *** Concurrent callers *)

Lemma step_phase s0 k n t0 l sys sys' :
  1 ≤ max_instances s0 →
  well_formed (cache sys) → same_config s0 (cache sys) →
  phase s0 k n t0 sys →
  enters_ok s0 t0 l →
  step l sys = Some sys' →
  well_formed (cache sys') ∧ same_config s0 (cache sys') ∧ phase s0 k n t0 sys'.
Proof.
  intros Hmax Hwf (Hsvc & Hmaxs & Httl) Hphase Hl Hstep.
  pose proof (wf_synced _ Hwf) as Hsy.
  destruct Hphase as [Hlock Htasks Hk Hb|i env Hlock Htasks Hi Henv Hk Hb
                     |instance t Hlock Hinst Ht Ht0 Hb Hlen Hall].
  - (* nobody has entered *)
    destruct l as [i env|i]; simpl in Hstep; rewrite ?Hlock, Htasks in Hstep.
    + destruct (replicate n (Waiting k) !! i) as [x|] eqn:Hx; [|done].
      apply lookup_replicate in Hx as [-> Hi].
      rewrite lookup_absent in Hstep by by apply dict_get_None.
      injection Hstep as <-. simpl. split_and!; [done..|].
      eapply OneBuilding; simpl; [done..| |done|].
      * exact Hl.
      * by rewrite app_nil_r.
    + destruct (replicate n (Waiting k) !! i) as [x|] eqn:Hx; [|done].
      by apply lookup_replicate in Hx as [-> Hi].
  - (* one caller builds *)
    destruct l as [j env'|j]; simpl in Hstep; rewrite ?Hlock in Hstep; [done|].
    rewrite Htasks in Hstep.
    destruct (decide (i = j)) as [<-|Hne].
    + rewrite list_lookup_insert_eq in Hstep by by rewrite length_replicate.
      rewrite decide_True in Hstep by done.
      destruct (create_instance_cases k env (cache sys) Hsy Hk) as [Hout Hres].
      destruct Henv as ([instance Hinst] & Hstamp & _).
      rewrite Hsvc, Hinst in Hres.
      pose proof (create_outcome_well_formed _ _ _ _ Hwf Hout) as Hwf'.
      destruct (create_outcome_same_config _ _ _ _ Hout) as (Hsvc' & Hmaxs' & Httl').
      destruct (created_is_cached k env (cache sys)
                  (create_instance k env (cache sys)) instance Hsy Hk)
        as [Hc1 Hc2]; [lia|done..|].
      assert (builds (create_instance k env (cache sys)).1.2 = 1%nat) as Hb'.
      { destruct Hout; cbn [fst snd] in *; done. }
      destruct (create_instance k env (cache sys)) as [[s' out] r].
      cbn [fst snd] in *. subst r. injection Hstep as <-. simpl.
      split_and!; [done|split_and!; congruence|].
      eapply InstanceBuilt; simpl; [done|exact Hc1|exact Hc2|done| | |].
      * rewrite builds_app. lia.
      * by rewrite !length_insert, length_replicate.
      * rewrite list_insert_insert_eq. apply Forall_insert; [|by right].
        apply Forall_forall. intros x [-> _]%elem_of_replicate. by left.
    + rewrite list_lookup_insert_ne in Hstep by done.
      destruct (replicate n (Waiting k) !! j) as [x|] eqn:Hx; [|done].
      by apply lookup_replicate in Hx as [-> _].
  - (* the instance is cached *)
    destruct l as [j env'|j]; simpl in Hstep; rewrite ?Hlock in Hstep.
    + destruct (tasks sys !! j) as [x|] eqn:Hx; [|done].
      pose proof (proj1 (Forall_lookup _ _) Hall j x Hx) as [->| ->]; [|done].
      destruct Hl as (_ & Hstamp & Hcheck).
      rewrite (lookup_reuse k env' (cache sys) instance t) in Hstep
        by (try done; lia).
      injection Hstep as <-. simpl.
      destruct (touched_lookup k instance (now_stamp env') (cache sys)) as [Hc1 Hc2].
      split_and!; [|done..|].
      * apply touched_well_formed; [done|].
        rewrite touched_length_present; [apply Hwf..|].
        apply dict_get_is_Some. eauto.
      * eapply InstanceBuilt; simpl; [done|exact Hc1|exact Hc2|done| | |].
        -- rewrite builds_app, Hb. done.
        -- by rewrite length_insert.
        -- apply Forall_insert; [done|by right].
    + destruct (tasks sys !! j) as [x|] eqn:Hx; [|done].
      by pose proof (proj1 (Forall_lookup _ _) Hall j x Hx) as [->| ->].
Qed.

Lemma run_schedule_phase s0 k n t0 schedule sys sys' :
  1 ≤ max_instances s0 →
  well_formed (cache sys) → same_config s0 (cache sys) →
  phase s0 k n t0 sys →
  Forall (enters_ok s0 t0) schedule →
  run_schedule schedule sys = Some sys' →
  phase s0 k n t0 sys'.
Proof.
  intros Hmax. revert sys. induction schedule as [|l schedule IH];
    intros sys Hwf Hcfg Hphase Hok Hrun; simpl in Hrun.
  - by injection Hrun as <-.
  - apply Forall_cons in Hok as [Hl Hok].
    destruct (step l sys) as [sys1|] eqn:Hstep; [|done].
    destruct (step_phase _ _ _ _ _ _ _ Hmax Hwf Hcfg Hphase Hl Hstep)
      as (Hwf1 & Hcfg1 & Hphase1).
    by eapply IH.
Qed.

Lemma phase_all_returned s0 k n t0 sys :
  (0 < n)%nat → phase s0 k n t0 sys → all_returned sys →
  ∃ instance, builds (output sys) = 1%nat ∧
              tasks sys = replicate n (Returned (inr instance)).
Proof.
  intros Hn Hphase Hret. unfold all_returned in Hret.
  destruct Hphase as [Hlock Htasks Hk Hb|i env Hlock Htasks Hi Henv Hk Hb
                     |instance t Hlock Hinst Ht Ht0 Hb Hlen Hall].
  - rewrite Htasks in Hret. destruct n; [lia|]. simpl in Hret.
    apply Forall_cons in Hret as [[r [=]] _].
  - rewrite Htasks in Hret.
    assert (<[i:=Building k env]> (replicate n (Waiting k)) !! i = Some (Building k env))
      as Hx by (apply list_lookup_insert_eq; by rewrite length_replicate).
    by destruct (proj1 (Forall_lookup _ _) Hret i _ Hx) as [r [=]].
  - exists instance. split; [done|]. symmetry. apply replicate_as_Forall_2; [done|].
    apply Forall_forall. intros x Hx.
    destruct (proj1 (Forall_forall _ _) Hall x Hx) as [->| ->]; [|done].
    by destruct (proj1 (Forall_forall _ _) Hret _ Hx) as [r [=]].
Qed.

(** *** The claims about the cache *)

(** C10. After every sequence of public operations ([get_instance],
    [cleanup_expired], [shutdown]) on a new manager, whatever the builder
    answers and whichever [finalize()] calls raise, [_instances] and
    [_last_access] hold exactly the same keys. *)
Theorem instances_and_last_access_hold_the_same_keys svc max_inst ttl_minutes ops :
  let s := run ops (init svc max_inst ttl_minutes) in
  ∀ k, k ∈ keys (_instances s) ↔ k ∈ keys (_last_access s).
Proof. apply (wf_synced _ (run_well_formed svc max_inst ttl_minutes ops)). Qed.

(** A [finalize()] that raises ends the finalization with a warning, and the
    entry still leaves both dictionaries. *)
Example eviction_with_a_failing_finalize :
  let broken :=
    {| obj_id := 1; tenant_id := "acme"; project_id := "proj1";
       attrs := [text_chunks; full_docs]; finalize_raises := [text_chunks] |} in
  let s := Manager false 1 (60 * minute)
             [(("acme", "proj1"), broken)] [(("acme", "proj1"), 0)] in
  _remove_instance ("acme", "proj1") s
  = (Manager false 1 (60 * minute) [] [],
     [CallFinalize 1 text_chunks; WarningFinalize ("acme", "proj1")], inr tt).
Proof. reflexivity. Qed.

(** C1. After any sequence of operations on a new manager whose
    [max_instances] is not negative, whatever the clock reads, a
    [get_instance] call leaves at most [max_instances] entries; it evicts
    nothing while the count after its insertion is within [max_instances],
    and when the insertion exceeds it, it evicts exactly one entry: the one
    of the cache holding the new entry whose last [get_instance] call comes
    before the last call for every other entry. *)
Theorem get_instance_capacity svc max_inst ttl_minutes ops k env :
  0 ≤ max_inst →
  capacity_respected svc max_inst ttl_minutes ops k env.
Proof.
  intros Hmax. unfold capacity_respected.
  set (s := run ops (init svc max_inst ttl_minutes)).
  pose proof (run_well_formed svc max_inst ttl_minutes ops) as Hwf. fold s in Hwf.
  assert (max_instances s = max_inst) as Hmaxs
    by apply (run_same_config svc max_inst ttl_minutes ops).
  pose proof (run_by_use svc max_inst ttl_minutes ops) as Huse. fold s in Huse.
  pose proof (get_instance_well_formed k env s Hwf) as Hwf'.
  pose proof (wf_synced _ Hwf) as Hsy.
  cbv zeta.
  destruct (get_instance_cases k env s Hsy)
    as [instance t Hi Ht Hfresh|res out Hmiss Hout He Hb]; cbn [fst snd] in *.
  - split_and!.
    + unfold within_capacity. pose proof (wf_bounded _ Hwf') as Hb. simpl in *. lia.
    + done.
    + done.
    + intros i Hm _. destruct (miss_not_reused _ _ _ _ _ Hm Hi Ht Hfresh).
  - split_and!.
    + unfold within_capacity. pose proof (wf_bounded _ Hwf') as Hb'.
      assert (max_instances res.1.1 = max_instances s) as Heq
        by (destruct Hout; done).
      rewrite Heq in *. lia.
    + intros Hn. by destruct Hn.
    + intros e Hres. rewrite evicted_app, He. destruct Hout; done.
    + intros i _ Hres. rewrite evicted_app, He. simpl.
      destruct Hout as [e out'|instance out' m Hcap He' Hb'
                       |instance out' oldest m Hcap Hh He' Hb']; cbn [fst snd] in *;
        [done|injection Hres as <-; fold m..].
      * split; [done|]. intros Hn. by destruct Hn.
      * split; [intros Hw; by destruct Hcap|]. intros _. exists oldest.
        assert (NoDup (keys (_instances m))) as Hnd
          by apply touched_NoDup, NoDup_keys_dict_del, Hwf.
        split_and!; [done|done| | |].
        -- apply (head_least_recently_used _ m); [|done].
           by apply by_use_touched, by_use_remove_entry.
        -- simpl. rewrite elem_of_keys_dict_del. by intros [? ?].
        -- apply (remove_entry_length oldest m); [done|by apply head_elem_of].
Qed.

(** Three calls with a clock that steps back: the third fills a cache of
    two. *)
Lemma get_instance_capacity_witness :
  capacity_respected true 2 60
    [GetInstance ("acme", "proj1") (sample_env 100 1 ("acme", "proj1"));
     GetInstance ("acme", "proj2") (sample_env 50 2 ("acme", "proj2"))]
    ("acme", "proj3") (sample_env 10 3 ("acme", "proj3")).
Proof. apply get_instance_capacity. lia. Defined.

(** C1, as stated, fails with a negative [max_instances]: the first call
    builds an instance, evicts it at once and returns it, and the empty cache
    it leaves has more entries than the maximum. *)
Theorem capacity_fails_with_a_negative_maximum :
  let k := ("acme", "proj1") in
  let result := get_instance k (sample_env 0 1 k) (init true (-1) 60) in
  result.2 = inr (sample_instance 1 k) ∧
  evicted result.1.2 = [k] ∧
  length (_instances result.1.1) = 0%nat ∧
  max_instances result.1.1 = -1 ∧
  ¬ capacity_respected true (-1) 60 [] k (sample_env 0 1 k).
Proof.
  cbv zeta. split_and!; [reflexivity..|].
  intros [Hcap _]. vm_compute in Hcap. by apply Hcap.
Qed.






(** *** Teardown *)

Lemma finalize_storages_all k instance ss :
  (∀ st, st ∈ ss → st ∈ attrs instance → st ∉ finalize_raises instance) →
  finalize_storages k instance ss
  = CallFinalize (obj_id instance) <$> filter (λ st, st ∈ attrs instance) ss.
Proof.
  induction ss as [|st ss IH]; intros Hok; [done|].
  cbn [finalize_storages]. rewrite filter_cons.
  destruct (decide (st ∈ attrs instance)) as [Hin|Hin].
  - rewrite decide_False by (apply Hok; [left|done]).
    rewrite fmap_cons. f_equal. apply IH. intros x Hx. apply Hok. by right.
  - apply IH. intros x Hx. apply Hok. by right.
Qed.

Lemma finalize_storages_until k instance ss before st rest :
  filter (λ st, st ∈ attrs instance) ss = before ++ st :: rest →
  (∀ x, x ∈ before → x ∉ finalize_raises instance) →
  st ∈ finalize_raises instance →
  finalize_storages k instance ss
  = (CallFinalize (obj_id instance) <$> before ++ [st]) ++ [WarningFinalize k].
Proof.
  revert before. induction ss as [|x ss IH]; intros before Hf Hok Hst.
  - by destruct before.
  - cbn [finalize_storages]. rewrite filter_cons in Hf.
    destruct (decide (x ∈ attrs instance)) as [Hin|Hin]; [|by eapply IH].
    destruct before as [|b before]; simpl in Hf; injection Hf as -> Hf.
    + by rewrite decide_True.
    + rewrite decide_False by (apply Hok; left).
      rewrite (IH before Hf); [done| |done]. intros y Hy. apply Hok. by right.
Qed.

Lemma remove_each_out log ks s :
  synced s → remove_each log ks s = (remove_entries ks s, sweep_out log ks s, inr tt).
Proof.
  revert s. induction ks as [|k ks IH]; intros s Hs; simpl; [done|].
  unfold_M. rewrite (remove_instance_synced _ _ Hs).
  rewrite (IH (remove_entry k s)) by by apply remove_entry_synced.
  done.
Qed.

Lemma instances_remove_entries ks s k :
  dict_get k (_instances (remove_entries ks s))
  = if decide (k ∈ ks) then None else dict_get k (_instances s).
Proof.
  revert s. induction ks as [|k' ks IH]; intros s; simpl.
  - destruct (decide (k ∈ [])) as [Hin|]; [by apply elem_of_nil in Hin|done].
  - rewrite IH. simpl. rewrite dict_get_dict_del.
    destruct (decide (k ∈ k' :: ks)) as [Hin|Hin].
    + apply elem_of_cons in Hin as [->|Hin].
      * destruct (decide (k' ∈ ks)); [done|]. by rewrite decide_True.
      * by rewrite decide_True.
    + apply not_elem_of_cons in Hin as [? ?].
      rewrite decide_False by done. by rewrite decide_False.
Qed.

Lemma keys_nil_inv {A} (d : list (key * A)) : keys d = [] → d = [].
Proof. by destruct d. Qed.

Lemma remove_all_entries s :
  well_formed s →
  remove_entries (keys (_instances s)) s
  = Manager (llm_config_service s) (max_instances s) (ttl s) [] [].
Proof.
  intros Hwf.
  pose proof (remove_entries_well_formed (keys (_instances s)) s Hwf) as Hwf'.
  destruct (remove_entries_same_config (keys (_instances s)) s) as (Hc1 & Hc2 & Hc3).
  assert (keys (_instances (remove_entries (keys (_instances s)) s)) = []) as Hi.
  { apply elem_of_nil_inv. intros k Hk. apply keys_remove_entries in Hk. tauto. }
  assert (keys (_last_access (remove_entries (keys (_instances s)) s)) = []) as Hl.
  { apply elem_of_nil_inv. intros k Hk. apply (wf_synced _ Hwf') in Hk.
    rewrite Hi in Hk. by apply elem_of_nil in Hk. }
  apply keys_nil_inv in Hi, Hl.
  destruct (remove_entries (keys (_instances s)) s). simpl in *. congruence.
Qed.

Lemma sweep_out_all d svc m t la :
  NoDup (keys d) →
  sweep_out (λ _, []) (keys d) (Manager svc m t d la)
  = kv ← d; finalize_storages kv.1 kv.2 all_storages.
Proof.
  revert la. induction d as [|[k i] d IH]; intros la Hnd; [done|].
  apply NoDup_cons in Hnd as [Hk Hnd].
  cbn [keys fmap list_fmap fst sweep_out app]. unfold finalize_out, remove_entry.
  cbn [_instances dict_get dict_del llm_config_service max_instances ttl _last_access].
  rewrite !decide_True by done. rewrite (dict_del_absent k d) by done.
  change (list_fmap _ _ fst d) with (keys d).
  rewrite (IH _ Hnd). done.
Qed.


(** [_remove_instance] finalizes the storages the instance has in the order
    it probes them; the first [finalize()] that raises ends the finalization
    with one warning, so that the storages after it are not finalized; and
    the entry leaves both dictionaries either way. *)
Theorem remove_instance_finalizes_up_to_the_first_failure
    svc max_inst ttl_minutes ops k instance :
  let s := run ops (init svc max_inst ttl_minutes) in
  dict_get k (_instances s) = Some instance →
  let result := _remove_instance k s in
  result.1.1 = remove_entry k s ∧ result.2 = inr tt ∧
  (k ∉ keys (_instances result.1.1)) ∧ (k ∉ keys (_last_access result.1.1)) ∧
  ((∀ st, st ∈ storages_of instance → st ∉ finalize_raises instance) →
   result.1.2 = CallFinalize (obj_id instance) <$> storages_of instance) ∧
  (∀ before st rest,
     storages_of instance = before ++ st :: rest →
     (∀ x, x ∈ before → x ∉ finalize_raises instance) →
     st ∈ finalize_raises instance →
     result.1.2
     = (CallFinalize (obj_id instance) <$> before ++ [st]) ++ [WarningFinalize k]).
Proof.
  intros s Hi. pose proof (run_well_formed svc max_inst ttl_minutes ops) as Hwf.
  fold s in Hwf. cbv zeta.
  rewrite (remove_instance_synced _ _ (wf_synced _ Hwf)). cbn [fst snd].
  unfold finalize_out. rewrite Hi. split_and!; [done|done| | | |].
  - apply remove_entry_removes.
  - simpl. rewrite elem_of_keys_dict_del. tauto.
  - intros Hok. apply finalize_storages_all. intros st Hst Hin.
    apply Hok. by apply list_elem_of_filter.
  - intros before st rest. apply finalize_storages_until.
Qed.

Lemma remove_instance_finalizes_up_to_the_first_failure_witness :
  let broken :=
    {| obj_id := 1; tenant_id := "acme"; project_id := "proj1";
       attrs := [text_chunks; full_docs; doc_status];
       finalize_raises := [full_docs] |} in
  let env :=
    {| now_check := 0; now_stamp := 0; fetch := FetchConfig; factory := None;
       construct := inr broken |} in
  let s := run [GetInstance ("acme", "proj1") env] (init false 10 60) in
  (_remove_instance ("acme", "proj1") s).1.2
  = [CallFinalize 1 text_chunks; CallFinalize 1 full_docs;
     WarningFinalize ("acme", "proj1")].
Proof.
  cbv zeta.
  set (broken := {| obj_id := 1; tenant_id := "acme"; project_id := "proj1";
                    attrs := [text_chunks; full_docs; doc_status];
                    finalize_raises := [full_docs] |}).
  set (env := {| now_check := 0; now_stamp := 0; fetch := FetchConfig;
                 factory := None; construct := inr broken |}).
  eapply (proj2 (proj2 (proj2 (proj2 (proj2
            (remove_instance_finalizes_up_to_the_first_failure false 10 60
               [GetInstance ("acme", "proj1") env] ("acme", "proj1") broken eq_refl)))))
          [text_chunks] full_docs [doc_status]).
  - reflexivity.
  - intros x ->%list_elem_of_singleton. vm_compute.
    intros H. repeat (apply elem_of_cons in H as [H|H]; [discriminate|]).
    by apply elem_of_nil in H.
  - left.
Defined.

(** *** Hits and misses *)

Lemma dict_get_snoc_ne {A} (k k' : key) (v : A) (d : list (key * A)) :
  k' ≠ k → dict_get k' (dict_del k d ++ [(k, v)]) = dict_get k' d.
Proof.
  intros Hne. rewrite dict_get_app, dict_get_dict_del, decide_False by done.
  destruct (dict_get k' d); [done|]. simpl. by rewrite decide_False.
Qed.

(** A call for a key whose entry has not been idle for more than the TTL
    returns the cached instance and only writes a debug line: it calls neither
    the configuration service, nor the factory, nor the constructor. The entry
    becomes the most recent one, with the time of the call, and the other
    entries stay as they are. *)
Theorem hit_returns_the_cached_instance k env s instance t :
  dict_get k (_instances s) = Some instance →
  dict_get k (_last_access s) = Some t →
  now_check env - t ≤ ttl s →
  let result := get_instance k env s in
  result.2 = inr instance ∧
  result.1.2 = [DebugReusing k] ∧
  keys (_instances result.1.1) = filter (λ x, x ≠ k) (keys (_instances s)) ++ [k] ∧
  dict_get k (_last_access result.1.1) = Some (now_stamp env) ∧
  (∀ k', k' ≠ k →
     dict_get k' (_instances result.1.1) = dict_get k' (_instances s) ∧
     dict_get k' (_last_access result.1.1) = dict_get k' (_last_access s)).
Proof.
  intros Hi Ht Hfresh. cbv zeta. unfold get_instance. unfold_M.
  rewrite (lookup_reuse _ _ _ _ _ Hi Ht Hfresh). cbn [fst snd].
  split_and!; [done|done|apply keys_touched|apply touched_lookup|].
  intros k' Hne. simpl. split; [by apply dict_get_snoc_ne|].
  by rewrite dict_get_dict_set, decide_False.
Qed.

Lemma hit_returns_the_cached_instance_witness :
  let k := ("acme", "proj1") in
  let s := run [GetInstance k (sample_env 0 1 k)] (init true 10 60) in
  (get_instance k (sample_env 5 2 k) s).2 = inr (sample_instance 1 k).
Proof.
  cbv zeta.
  apply (hit_returns_the_cached_instance ("acme", "proj1")
           (sample_env 5 2 ("acme", "proj1")) _ (sample_instance 1 ("acme", "proj1")) 1).
  - reflexivity.
  - reflexivity.
  - vm_compute. discriminate.
Defined.

(** With room for an entry, the oldest entry of a cache that has just taken
    a new key is not the new one. *)
Lemma oldest_is_not_the_new_key k instance now s oldest :
  k ∉ keys (_instances s) → 1 ≤ max_instances s →
  ¬ within_capacity (touched k instance now s) →
  head (keys (_instances (touched k instance now s))) = Some oldest →
  oldest ≠ k.
Proof.
  intros Hk Hmax Hcap Hh ->. unfold within_capacity in Hcap.
  rewrite touched_length in Hcap. simpl in Hh, Hcap.
  rewrite dict_del_absent in Hh, Hcap by done.
  destruct (_instances s) as [|[k1 i1] d]; [simpl in Hcap; lia|].
  simpl in Hh. injection Hh as ->. apply Hk. left.
Qed.

Lemma last_keys_touched k instance now s :
  last (keys (_instances (touched k instance now s))) = Some k.
Proof. rewrite keys_touched. apply last_snoc. Qed.

Lemma last_keys_remove_entry k k' s :
  k' ≠ k → last (keys (_instances s)) = Some k →
  last (keys (_instances (remove_entry k' s))) = Some k.
Proof.
  intros Hne. simpl. rewrite keys_dict_del.
  destruct (keys (_instances s)) as [|x l] using rev_ind; [done|].
  rewrite last_snoc. intros [= ->].
  rewrite filter_app, filter_cons, decide_True by done. apply last_snoc.
Qed.

(** When the manager has room for at least one entry, the instance that
    [get_instance] returns is the one the cache holds for the key when the call
    returns, stamped with the time of the call, and it is the most recent
    entry. *)
Theorem returned_instance_is_cached svc max_inst ttl_minutes ops k env instance :
  1 ≤ max_inst →
  let s := run ops (init svc max_inst ttl_minutes) in
  let result := get_instance k env s in
  result.2 = inr instance →
  dict_get k (_instances result.1.1) = Some instance ∧
  dict_get k (_last_access result.1.1) = Some (now_stamp env) ∧
  last (keys (_instances result.1.1)) = Some k.
Proof.
  intros Hmax s. pose proof (run_well_formed svc max_inst ttl_minutes ops) as Hwf.
  fold s in Hwf.
  assert (max_instances s = max_inst) as Hmaxs
    by apply (run_same_config svc max_inst ttl_minutes ops).
  pose proof (wf_synced _ Hwf) as Hsy. cbv zeta.
  destruct (get_instance_cases k env s Hsy)
    as [i t Hi Ht Hfresh|res out Hmiss Hout He Hb]; cbn [fst snd].
  - intros [= <-]. destruct (touched_lookup k i (now_stamp env) s).
    split_and!; [done..|apply last_keys_touched].
  - intros Hres.
    assert (synced (remove_entry k s)) as Hsy1 by by apply remove_entry_synced.
    pose proof (remove_entry_removes k s) as Hk.
    assert (1 ≤ max_instances (remove_entry k s)) as Hmax1 by (simpl; lia).
    destruct (created_is_cached k env _ res instance Hsy1 Hk Hmax1 Hout Hres).
    split_and!; [done..|].
    destruct Hout as [e out'|i out' m Hcap|i out' oldest m Hcap Hh];
      cbn [fst snd] in *; [done| |].
    + apply last_keys_touched.
    + apply last_keys_remove_entry; [|apply last_keys_touched].
      by eapply oldest_is_not_the_new_key.
Qed.

Lemma returned_instance_is_cached_witness :
  let k := ("acme", "proj2") in
  let s := run [GetInstance ("acme", "proj1") (sample_env 0 1 ("acme", "proj1"))]
             (init true 1 60) in
  dict_get k (_instances (get_instance k (sample_env 10 2 k) s).1.1)
  = Some (sample_instance 2 k).
Proof.
  cbv zeta.
  apply (returned_instance_is_cached true 1 60
           [GetInstance ("acme", "proj1") (sample_env 0 1 ("acme", "proj1"))]
           ("acme", "proj2") (sample_env 10 2 ("acme", "proj2"))).
  - lia.
  - reflexivity.
Defined.

Lemma create_instance_without_config k env s :
  llm_config_service s = true → fetch env ≠ FetchConfig →
  ∃ out, create_instance k env s
         = (s, out, inl (ValueError "Failed to fetch LLM configuration")) ∧
         builds out = 0%nat.
Proof.
  intros Hsvc Hfetch. unfold create_instance. unfold_M.
  destruct (fetch_llm_config_spec k.2 env s) as (out1 & -> & _ & Hb1).
  rewrite Hsvc. destruct (fetch env); [eauto|eauto|done].
Qed.

(** A [get_instance] that raises leaves no entry for the key: an entry that
    was idle past the TTL has been removed, nothing has been inserted, no
    other entry has been touched and nothing has been evicted. When the
    configuration service raises or has no default configuration for the
    project, the exception is a [ValueError] and the constructor has not been
    called. *)
Theorem failed_build_caches_nothing svc max_inst ttl_minutes ops k env e :
  let s := run ops (init svc max_inst ttl_minutes) in
  let result := get_instance k env s in
  result.2 = inl e →
  result.1.1 = remove_entry k s ∧
  (k ∉ keys (_instances result.1.1)) ∧
  evicted result.1.2 = [] ∧
  (svc = true → fetch env ≠ FetchConfig →
   e = ValueError "Failed to fetch LLM configuration" ∧ builds result.1.2 = 0%nat).
Proof.
  intros s. pose proof (run_well_formed svc max_inst ttl_minutes ops) as Hwf.
  fold s in Hwf. pose proof (wf_synced _ Hwf) as Hsy.
  assert (llm_config_service s = svc) as Hsvc
    by apply (run_same_config svc max_inst ttl_minutes ops).
  cbv zeta.
  destruct (lookup_cases k env s Hsy)
    as [(i & t & Hi & Ht & Hfresh)|(Hmiss & out1 & Hl & He1 & Hb1)].
  - unfold get_instance. unfold_M. rewrite (lookup_reuse _ _ _ _ _ Hi Ht Hfresh).
    done.
  - rewrite (get_instance_miss _ _ _ _ Hl). cbn [fst snd].
    assert (synced (remove_entry k s)) as Hsy1 by by apply remove_entry_synced.
    pose proof (remove_entry_removes k s) as Hk.
    destruct (create_instance_cases k env (remove_entry k s) Hsy1 Hk) as [Hout _].
    intros Hres. split_and!.
    + destruct Hout; cbn [fst snd] in *; done.
    + destruct Hout; cbn [fst snd] in *; done.
    + rewrite evicted_app, He1. destruct Hout; cbn [fst snd] in *; done.
    + intros -> Hfetch.
      destruct (create_instance_without_config k env (remove_entry k s))
        as (out & Hc & Hb); [done..|].
      rewrite Hc in Hres |- *. cbn [fst snd] in *.
      injection Hres as <-. by rewrite builds_app, Hb1, Hb.
Qed.

Lemma failed_build_caches_nothing_witness :
  let k := ("acme", "proj1") in
  let env :=
    {| now_check := 0; now_stamp := 0; fetch := FetchNone; factory := None;
       construct := inr (sample_instance 1 k) |} in
  builds (get_instance k env (run [] (init true 10 60))).1.2 = 0%nat.
Proof.
  cbv zeta.
  eapply (proj2 (proj2 (proj2
            (failed_build_caches_nothing true 10 60 [] ("acme", "proj1")
               {| now_check := 0; now_stamp := 0; fetch := FetchNone; factory := None;
                  construct := inr (sample_instance 1 ("acme", "proj1")) |}
               _ eq_refl)))).
  - reflexivity.
  - discriminate.
Defined.

(** *** A manager without capacity *)

Lemma empty_without_capacity s :
  well_formed s → max_instances s ≤ 0 → _instances s = [] ∧ _last_access s = [].
Proof.
  intros Hwf Hmax. pose proof (wf_bounded _ Hwf) as Hb.
  assert (_instances s = []) as Hi by (destruct (_instances s); [done|simpl in Hb; lia]).
  split; [done|]. apply keys_nil_inv, elem_of_nil_inv. intros k Hk.
  apply (wf_synced _ Hwf) in Hk. rewrite Hi in Hk. by apply elem_of_nil in Hk.
Qed.

(** What a build that overflows the cache writes: the lines of the build,
    then the eviction of the oldest entry. *)
Lemma create_instance_evicting k env s instance oldest :
  synced s → k ∉ keys (_instances s) →
  (create_instance k env s).2 = inr instance →
  let m := touched k instance (now_stamp env) s in
  ¬ within_capacity m → head (keys (_instances m)) = Some oldest →
  ∃ out,
    create_instance k env s
    = (remove_entry oldest m,
       out ++ InfoEvicting oldest :: finalize_out oldest m
           ++ [InfoActive (length (_instances (remove_entry oldest m)))
                 (max_instances s) k],
       inr instance) ∧
    builds out = 1%nat.
Proof.
  intros Hs Hk. unfold create_instance. unfold_M.
  destruct (fetch_llm_config_spec k.2 env s) as (out1 & -> & He1 & Hb1).
  assert (∃ has_config, has_config = llm_config_service s) as [has_config Hsvc]
    by eauto.
  destruct (build_spec k has_config env s) as (out2 & Hbuild & He2 & Hb2).
  cbv zeta in Hb2. rewrite <- Hsvc.
  destruct has_config; [destruct (fetch env); [done|done|]|].
  all: rewrite Hbuild; clear Hbuild; simpl.
  all: destruct (factory env) as [e0|]; try done.
  all: destruct (construct env) as [e|i]; try done.
  all: rewrite (insert_absent _ _ _ _ Hk).
  all: assert (synced (touched k i (now_stamp env) s)) as Hsm by by apply touched_synced.
  all: destruct (decide (within_capacity (touched k i (now_stamp env) s))) as [Hcap|Hcap];
       [ rewrite enforce_within by done; simpl; intros [= ->]; cbv zeta;
         intros Hn; by destruct Hn |].
  all: destruct (head_touched k i (now_stamp env) s) as [old Ho].
  all: rewrite (enforce_exceeding _ _ Hsm Hcap Ho); simpl.
  all: intros [= ->]; cbv zeta; intros _ Hh;
       change (head (keys (_instances (touched k instance (now_stamp env) s)))
               = Some oldest) in Hh;
       rewrite Ho in Hh; injection Hh as ->.
  all: exists (out1 ++ out2); rewrite <- !app_assoc; split; [done|].
  all: by rewrite builds_app, Hb1, Hb2.
Qed.



(** *** Statistics *)

Lemma instance_stats_of_total la ks :
  (∀ k, k ∈ ks → k ∈ keys la) →
  ∃ l, instance_stats_of la ks = inr l ∧
       (λ i, (stats_tenant_id i, stats_project_id i)) <$> l = ks ∧
       ∀ i, i ∈ l →
         dict_get (stats_tenant_id i, stats_project_id i) la = Some (last_access i).
Proof.
  induction ks as [|[tenant project] ks IH]; intros Hks; simpl.
  - exists []. split_and!; [done..|]. intros i Hi. by apply elem_of_nil in Hi.
  - destruct IH as (l & -> & Hkeys & Hla); [intros k Hk; apply Hks; by right|].
    assert ((tenant, project) ∈ keys la) as Hin by (apply Hks; left).
    destruct (dict_get _ la) as [t|] eqn:Ht; [|by apply dict_get_None in Ht].
    eexists. split_and!; [done|by rewrite fmap_cons, Hkeys|].
    intros i [->|Hi]%elem_of_cons; [done|by apply Hla].
Qed.

Lemma instance_stats_of_error la ks e :
  instance_stats_of la ks = inl e →
  ∃ k, e = KeyError k ∧ k ∈ ks ∧ k ∉ keys la.
Proof.
  induction ks as [|k ks IH]; simpl; [done|].
  destruct (dict_get k la) as [t|] eqn:Ht.
  - destruct (instance_stats_of la ks) as [e'|l]; [|done].
    intros [= <-]. destruct IH as (k' & -> & Hk' & Hla); [done|].
    exists k'. split_and!; [done|by right|done].
  - intros [= <-]. exists k. split_and!; [done|left|by apply dict_get_None].
Qed.

(** A miss is the insertion followed by the eviction. *)
Lemma create_instance_inserts_then_evicts k env s :
  create_instance k env s
  = (instance ← insert_instance k env;
     enforce_max_instances;;
     s' ← self;
     emit [InfoActive (length (_instances s')) (max_instances s') k];;
     mret instance) s.
Proof.
  unfold create_instance, insert_instance. unfold_M.
  destruct (fetch_llm_config k.2 env s) as [[s1 out1] [e|has_config]]; [done|].
  destruct (build k has_config env s1) as [[s2 out2] [e|instance]]; [done|].
  rewrite !app_nil_r.
  destruct (enforce_max_instances _) as [[s3 out3] [e|[]]]; simpl;
    by rewrite ?app_assoc.
Qed.

Lemma insert_instance_absent k env s instance :
  k ∉ keys (_instances s) →
  builder_result (llm_config_service s) env = inr instance →
  ∃ out, insert_instance k env s
         = (touched k instance (now_stamp env) s, out, inr instance).
Proof.
  intros Hk. unfold insert_instance, builder_result. unfold_M.
  destruct (fetch_llm_config_spec k.2 env s) as (out1 & -> & _ & _).
  assert (∃ has_config, has_config = llm_config_service s) as [has_config Hsvc]
    by eauto.
  destruct (build_spec k has_config env s) as (out2 & Hbuild & _ & _).
  rewrite <- Hsvc. destruct has_config; [destruct (fetch env); [done|done|]|].
  all: rewrite Hbuild; clear Hbuild.
  all: destruct (factory env) as [e0|]; try done.
  all: intros ->; rewrite insert_absent by done; eauto.
Qed.

(** [get_stats] reads the two dictionaries without taking the lock. In any
    state in which every cached key has a last access it raises nothing and
    lists the cached keys in the order of the cache, each with its last
    access, [active_instances] being the number of entries; in any other
    state it raises [KeyError] for a cached key that has no last access.
    Between two operations it does not raise, [active_instances] is within a
    non-negative [max_instances], and [max_instances] and [ttl_minutes] are
    those [__init__] was given. While a [get_instance] that has filled a
    full cache awaits the [finalize()] calls of the entry it evicts, the new
    entry is already there, and [get_stats] counts [max_instances + 1]. *)
Theorem get_stats_lists_the_cache :
  (∀ s,
     ((∀ k, k ∈ keys (_instances s) → k ∈ keys (_last_access s)) →
      ∃ st,
        get_stats s = inr st ∧
        active_instances st = length (_instances s) ∧
        stats_max_instances st = max_instances s ∧
        (λ i, (stats_tenant_id i, stats_project_id i)) <$> instances st
        = keys (_instances s) ∧
        ∀ i, i ∈ instances st →
          dict_get (stats_tenant_id i, stats_project_id i) (_last_access s)
          = Some (last_access i)) ∧
     (∀ e, get_stats s = inl e →
        ∃ k, e = KeyError k ∧ k ∈ keys (_instances s) ∧ k ∉ keys (_last_access s))) ∧
  (∀ svc max_inst ttl_minutes_ ops,
     let s := run ops (init svc max_inst ttl_minutes_) in
     (∃ st,
        get_stats s = inr st ∧
        Z.of_nat (active_instances st) ≤ Z.max 0 max_inst ∧
        stats_max_instances st = max_inst ∧
        QArith_base.Qeq (ttl_minutes st) (QArith_base.inject_Z ttl_minutes_)) ∧
     (∀ k env instance,
        k ∉ keys (_instances s) →
        Z.of_nat (length (_instances s)) = max_inst →
        builder_result svc env = inr instance →
        get_instance k env s
        = (instance ← insert_instance k env;
           enforce_max_instances;;
           s' ← self;
           emit [InfoActive (length (_instances s')) (max_instances s') k];;
           mret instance) s ∧
        ∃ st,
          get_stats (insert_instance k env s).1.1 = inr st ∧
          Z.of_nat (active_instances st) = max_inst + 1)).
Proof.
  assert (∀ s, (∀ k, k ∈ keys (_instances s) → k ∈ keys (_last_access s)) →
               ∃ st,
                 get_stats s = inr st ∧
                 active_instances st = length (_instances s) ∧
                 stats_max_instances st = max_instances s ∧
                 (λ i, (stats_tenant_id i, stats_project_id i)) <$> instances st
                 = keys (_instances s) ∧
                 ∀ i, i ∈ instances st →
                   dict_get (stats_tenant_id i, stats_project_id i) (_last_access s)
                   = Some (last_access i)) as Hlist.
  { intros s Hsub.
    destruct (instance_stats_of_total (_last_access s) (keys (_instances s)) Hsub)
      as (l & Hl & Hkeys & Hla).
    unfold get_stats. rewrite Hl. eexists. by split_and!. }
  split.
  - intros s. split; [apply Hlist|].
    intros e. unfold get_stats.
    destruct (instance_stats_of _ _) as [e'|l] eqn:Hl; [|done].
    intros [= <-]. by apply instance_stats_of_error.
  - intros svc max_inst ttl_minutes_ ops s.
    pose proof (run_well_formed svc max_inst ttl_minutes_ ops) as Hwf. fold s in Hwf.
    destruct (run_same_config svc max_inst ttl_minutes_ ops) as (Hc1 & Hc2 & Hc3).
    fold s in Hc1, Hc2, Hc3. simpl in Hc1, Hc2, Hc3.
    split.
    + destruct (Hlist s) as (st & Hst & Hn & Hmax & _);
        [intros k; apply (wf_synced _ Hwf)|].
      exists st. split_and!; [done| |congruence|].
      * rewrite Hn, <- Hc2. apply Hwf.
      * unfold get_stats in Hst. destruct (instance_stats_of _ _); [done|].
        injection Hst as <-. simpl. rewrite Hc3.
        unfold QArith_base.Qeq, minute. simpl. lia.
    + intros k env instance Hk Hfull Hbuilt. split.
      * rewrite <- create_instance_inserts_then_evicts.
        unfold get_instance. unfold mbind, M_bind at 1.
        rewrite lookup_absent by by apply dict_get_None.
        by destruct (create_instance k env s) as [[? ?] ?].
      * rewrite <- Hc1 in Hbuilt.
        destruct (insert_instance_absent k env s instance Hk Hbuilt) as (out & ->).
        cbn [fst].
        destruct (Hlist (touched k instance (now_stamp env) s)) as (st & Hst & Hn & _).
        { intros k'. apply touched_synced, Hwf. }
        exists st. split; [done|]. rewrite Hn, touched_length.
        rewrite dict_del_absent by done. lia.
Qed.

(** A full cache of one entry, seen while the second call awaits the
    eviction. *)
Example get_stats_during_an_eviction :
  let s := run [GetInstance ("acme", "proj1") (sample_env 0 1 ("acme", "proj1"))]
             (init true 1 60) in
  ∃ st,
    get_stats (insert_instance ("acme", "proj2")
                 (sample_env 10 2 ("acme", "proj2")) s).1.1 = inr st ∧
    active_instances st = 2%nat ∧ stats_max_instances st = 1.
Proof. eexists. split_and!; reflexivity. Qed.

(** *** The sweep *)

Lemma keys_remove_entries_sublist ks s :
  keys (_instances (remove_entries ks s)) `sublist_of` keys (_instances s).
Proof.
  revert s. induction ks as [|k ks IH]; intros s; simpl; [done|].
  etrans; [apply IH|]. simpl. rewrite keys_dict_del. apply sublist_filter.
Qed.

Lemma cleanup_expired_out now s :
  synced s →
  cleanup_expired now s
  = (remove_entries (expired_keys now s) s,
     sweep_out (λ k, [InfoCleaningExpired k]) (expired_keys now s) s, inr tt).
Proof.
  intros Hs. unfold cleanup_expired. unfold_M.
  pose proof (remove_each_out (λ k, [InfoCleaningExpired k]) (expired_keys now s) s Hs)
    as Hr.
  unfold expired_keys in Hr |- *. by rewrite Hr.
Qed.

(** [cleanup_expired] does not disturb the entries that are not idle past the
    TTL: each keeps its instance and its last access, and they keep their
    order. When no entry is idle it changes nothing and writes nothing. *)
Theorem cleanup_expired_spares_live_entries svc max_inst ttl_minutes ops now :
  let s := run ops (init svc max_inst ttl_minutes) in
  let result := cleanup_expired now s in
  (∀ k, ¬ idle_past_ttl now s k →
     dict_get k (_instances result.1.1) = dict_get k (_instances s) ∧
     dict_get k (_last_access result.1.1) = dict_get k (_last_access s)) ∧
  keys (_instances result.1.1) `sublist_of` keys (_instances s) ∧
  ((∀ k, ¬ idle_past_ttl now s k) → result = (s, [], inr tt)).
Proof.
  intros s. pose proof (run_well_formed svc max_inst ttl_minutes ops) as Hwf.
  fold s in Hwf. cbv zeta.
  rewrite (cleanup_expired_out _ _ (wf_synced _ Hwf)).
  cbn [fst snd]. split_and!.
  - intros k Hlive.
    assert (k ∉ expired_keys now s) as Hn.
    { intros Hin. apply Hlive. apply elem_of_expired_keys; [apply Hwf|done]. }
    rewrite instances_remove_entries, last_access_remove_entries.
    by rewrite !decide_False.
  - apply keys_remove_entries_sublist.
  - intros Hlive. assert (expired_keys now s = []) as ->; [|done].
    apply elem_of_nil_inv. intros k Hk. apply (Hlive k).
    apply elem_of_expired_keys; [apply Hwf|done].
Qed.

End InstanceManager.

(** ** Project membership ([lightrag/api/services/project_service.py]) *)

Module ProjectService.

(** [auth_models.UserRole], a [str] enumeration. *)
Inductive UserRole := OWNER | ADMIN | MEMBER | VIEWER.

#[global] Instance UserRole_eq_dec : EqDecision UserRole.
Proof. solve_decision. Defined.

Definition value (r : UserRole) : string :=
  match r with
  | OWNER => "owner"
  | ADMIN => "admin"
  | MEMBER => "member"
  | VIEWER => "viewer"
  end.

(** [UserRole(s)]; [None] stands for the [ValueError] of an unknown value. *)
Definition UserRole_of (s : string) : option UserRole :=
  if decide (s = "owner") then Some OWNER
  else if decide (s = "admin") then Some ADMIN
  else if decide (s = "member") then Some MEMBER
  else if decide (s = "viewer") then Some VIEWER
  else None.

(** The columns of [lightrag_project_members] and [lightrag_users] that the
    two operations read or write. *)
Record member_row := {
  pm_id : nat;
  pm_project_id : string;
  pm_tenant_id : string;
  pm_user_id : string;
  pm_role : string;
  pm_joined_at : Z
}.

Record user_row := {
  u_id : string;
  u_email : string;
  u_name : string
}.

Record db := {
  lightrag_project_members : list member_row;
  lightrag_users : list user_row
}.

Record ProjectMemberResponse := {
  id : nat;
  user_id : string;
  user_email : string;
  user_name : string;
  role : UserRole;
  joined_at : Z
}.

Inductive exn :=
| PermissionError (msg : string)
| ValueError (msg : string)
| TypeError (msg : string).

(** [WHERE project_id = $1 AND user_id = $2] *)
Definition is_member (project user : string) (r : member_row) : Prop :=
  pm_project_id r = project ∧ pm_user_id r = user.

#[global] Instance is_member_dec project user r : Decision (is_member project user r).
Proof. unfold is_member. apply _. Defined.

(** [WHERE project_id = $1 AND role = $2], with [$2 = 'owner'] *)
Definition is_owner (project : string) (r : member_row) : Prop :=
  pm_project_id r = project ∧ pm_role r = value OWNER.

#[global] Instance is_owner_dec project r : Decision (is_owner project r).
Proof. unfold is_owner. apply _. Defined.

(** [fetchval("SELECT role FROM lightrag_project_members WHERE project_id = $1
    AND user_id = $2")]: the role of the first row found, or [None]. *)
Definition select_role (project user : string) (d : db) : option string :=
  pm_role <$> head (filter (is_member project user) (lightrag_project_members d)).

(** [SELECT COUNT( * ) ... WHERE project_id = $1 AND role = $2] *)
Definition count_owners (project : string) (d : db) : nat :=
  length (filter (is_owner project) (lightrag_project_members d)).

(** [DELETE FROM lightrag_project_members WHERE project_id = $1 AND user_id = $2] *)
Definition delete_member (project user : string) (d : db) : db :=
  {| lightrag_project_members :=
       filter (λ r, ¬ is_member project user r) (lightrag_project_members d);
     lightrag_users := lightrag_users d |}.

Definition set_role (new_role : string) (r : member_row) : member_row :=
  {| pm_id := pm_id r; pm_project_id := pm_project_id r;
     pm_tenant_id := pm_tenant_id r; pm_user_id := pm_user_id r;
     pm_role := new_role; pm_joined_at := pm_joined_at r |}.

(** [UPDATE lightrag_project_members SET role = $1 WHERE project_id = $2
    AND user_id = $3] *)
Definition update_role (new_role project user : string) (d : db) : db :=
  {| lightrag_project_members :=
       (λ r, if decide (is_member project user r) then set_role new_role r else r)
         <$> lightrag_project_members d;
     lightrag_users := lightrag_users d |}.

(** The row of [pm JOIN u ON u.id = pm.user_id WHERE pm.project_id = $1 AND
    pm.user_id = $2] that [fetchrow] returns. *)
Definition select_member (project user : string) (d : db)
    : option (member_row * user_row) :=
  head (r ← filter (is_member project user) (lightrag_project_members d);
        u ← filter (λ u, u_id u = pm_user_id r) (lightrag_users d);
        [(r, u)]).

(** [remove_member]: the database it leaves and what it raises. *)
Definition remove_member (project_id target_user_id removed_by : string) (d : db)
    : db * (exn + unit) :=
  let remover_role := select_role project_id removed_by d in
  if decide (remover_role ≠ Some (value OWNER)) then
    (d, inl (PermissionError "Only owners can remove members"))
  else
    let target_role := select_role project_id target_user_id d in
    let last_owner :=
      if decide (target_role = Some (value OWNER)) then
        let owner_count := count_owners project_id d in
        if decide (owner_count ≤ 1)%nat then
          Some (ValueError "Cannot remove the last owner")
        else None
      else None in
    match last_owner with
    | Some e => (d, inl e)
    | None => (delete_member project_id target_user_id d, inr tt)
    end.

(** [update_member_role]: the [UPDATE] is done before the member is read
    back. *)
Definition update_member_role (project_id target_user_id : string)
    (new_role : UserRole) (updated_by : string) (d : db)
    : db * (exn + ProjectMemberResponse) :=
  let updater_role := select_role project_id updated_by d in
  if decide (updater_role ≠ Some (value OWNER)) then
    (d, inl (PermissionError "Only owners can update member roles"))
  else
    let d' := update_role (value new_role) project_id target_user_id d in
    match select_member project_id target_user_id d' with
    | None => (d', inl (TypeError "'NoneType' object is not subscriptable"))
    | Some (r, u) =>
        match UserRole_of (pm_role r) with
        | None => (d', inl (ValueError "not a valid UserRole"))
        | Some role =>
            (d', inr {| id := pm_id r; user_id := pm_user_id r;
                        user_email := u_email u; user_name := u_name u;
                        role := role; joined_at := pm_joined_at r |})
        end
    end.

(** [check_user_access] *)
Definition check_user_access (user_id tenant_id project_id : string) (d : db)
    : exn + option UserRole :=
  match
    pm_role <$> head (filter (λ r, pm_user_id r = user_id ∧ pm_tenant_id r = tenant_id
                                   ∧ pm_project_id r = project_id)
                        (lightrag_project_members d))
  with
  | None => inr None
  | Some role =>
      if decide (role = "") then inr None
      else match UserRole_of role with
           | Some r => inr (Some r)
           | None => inl (ValueError "not a valid UserRole")
           end
  end.

(** *** Tenants, projects and invitations *)

(** [auth_models.InvitationStatus], a [str] enumeration. *)
Inductive InvitationStatus := PENDING | ACCEPTED | EXPIRED | CANCELLED.

Definition status_value (s : InvitationStatus) : string :=
  match s with
  | PENDING => "pending"
  | ACCEPTED => "accepted"
  | EXPIRED => "expired"
  | CANCELLED => "cancelled"
  end.

(** [InvitationStatus(s)]; [None] stands for the [ValueError] of an unknown
    value. *)
Definition InvitationStatus_of (s : string) : option InvitationStatus :=
  if decide (s = "pending") then Some PENDING
  else if decide (s = "accepted") then Some ACCEPTED
  else if decide (s = "expired") then Some EXPIRED
  else if decide (s = "cancelled") then Some CANCELLED
  else None.

Record tenant_row := {
  t_id : string;
  t_name : string;
  t_description : option string;
  t_owner_id : string;
  t_is_active : bool;
  t_created_at : Z
}.

Record project_row := {
  p_id : string;
  p_tenant_id : string;
  p_name : string;
  p_description : option string;
  p_created_by : string;
  p_is_active : bool;
  p_created_at : Z
}.

Record invitation_row := {
  i_id : nat;
  i_project_id : string;
  i_tenant_id : string;
  i_email : string;
  i_role : string;
  i_invited_by : string;
  i_token : string;
  i_expires_at : Z;
  i_accepted_at : option Z;
  i_accepted_by : option string;
  i_status : string;
  i_created_at : Z
}.

(** The tables of the service: [lightrag_project_members] and
    [lightrag_users] as above, with the tenants, the projects and the
    invitations. *)
Record tables := {
  membership : db;
  lightrag_tenants : list tenant_row;
  lightrag_projects : list project_row;
  lightrag_invitations : list invitation_row
}.

Definition with_members (rows : list member_row) (d : tables) : tables :=
  {| membership := {| lightrag_project_members := rows;
                      lightrag_users := lightrag_users (membership d) |};
     lightrag_tenants := lightrag_tenants d;
     lightrag_projects := lightrag_projects d;
     lightrag_invitations := lightrag_invitations d |}.

Definition with_projects (rows : list project_row) (d : tables) : tables :=
  {| membership := membership d;
     lightrag_tenants := lightrag_tenants d;
     lightrag_projects := rows;
     lightrag_invitations := lightrag_invitations d |}.

Definition with_invitations (rows : list invitation_row) (d : tables) : tables :=
  {| membership := membership d;
     lightrag_tenants := lightrag_tenants d;
     lightrag_projects := lightrag_projects d;
     lightrag_invitations := rows |}.

Record TenantResponse := {
  tr_id : string;
  tr_name : string;
  tr_description : option string;
  tr_owner_id : string;
  tr_is_active : bool;
  tr_created_at : Z
}.

Record ProjectResponse := {
  pr_id : string;
  pr_tenant_id : string;
  pr_name : string;
  pr_description : option string;
  pr_created_by : string;
  pr_is_active : bool;
  pr_created_at : Z;
  pr_member_count : nat;
  pr_user_role : option UserRole
}.

Record InvitationResponse := {
  ir_id : nat;
  ir_project_id : string;
  ir_tenant_id : string;
  ir_email : string;
  ir_role : UserRole;
  ir_invited_by : string;
  ir_expires_at : Z;
  ir_status : InvitationStatus;
  ir_created_at : Z
}.

(** [get_tenant] *)
Definition get_tenant (tenant_id : string) (d : tables) : exn + TenantResponse :=
  match head (filter (λ t, t_id t = tenant_id) (lightrag_tenants d)) with
  | None => inl (ValueError ("Tenant '" +:+ tenant_id +:+ "' not found"))
  | Some row =>
      inr {| tr_id := t_id row; tr_name := t_name row;
             tr_description := t_description row; tr_owner_id := t_owner_id row;
             tr_is_active := t_is_active row; tr_created_at := t_created_at row |}
  end.

(** The rows of [p LEFT JOIN pm ON pm.project_id = p.id AND pm.user_id = $2
    WHERE p.id = $1]: a project without a row of the user comes once, with a
    [NULL] role. *)
Definition project_with_role (project_id user_id : string) (d : tables)
    : list (project_row * option string) :=
  p ← filter (λ p, p_id p = project_id) (lightrag_projects d);
  match filter (is_member (p_id p) user_id)
          (lightrag_project_members (membership d)) with
  | [] => [(p, None)]
  | pms => (λ pm, (p, Some (pm_role pm))) <$> pms
  end.

(** [get_project] *)
Definition get_project (project_id user_id : string) (d : tables)
    : exn + ProjectResponse :=
  match head (project_with_role project_id user_id d) with
  | None => inl (ValueError ("Project '" +:+ project_id +:+ "' not found"))
  | Some (p, user_role) =>
      let member_count :=
        length (filter (λ pm, pm_project_id pm = p_id p)
                  (lightrag_project_members (membership d))) in
      let response role :=
        {| pr_id := p_id p; pr_tenant_id := p_tenant_id p; pr_name := p_name p;
           pr_description := p_description p; pr_created_by := p_created_by p;
           pr_is_active := p_is_active p; pr_created_at := p_created_at p;
           pr_member_count := member_count; pr_user_role := role |} in
      match user_role with
      | None => inr (response None)
      | Some r =>
          if decide (r = "") then inr (response None)
          else match UserRole_of r with
               | Some role => inr (response (Some role))
               | None => inl (ValueError "not a valid UserRole")
               end
      end
  end.

(** What the database gives the columns that the two [INSERT]s of
    [create_project] leave out. *)
Record create_project_env := {
  cp_is_active : bool;
  cp_created_at : Z;
  cp_member_id : nat;
  cp_joined_at : Z
}.

(** [create_project] *)
Definition create_project (project_id tenant_id name_ user_id : string)
    (description : option string) (env : create_project_env) (d : tables)
    : tables * (exn + ProjectResponse) :=
  match get_tenant tenant_id d with
  | inl e => (d, inl e)
  | inr tenant =>
      let is_admin :=
        bool_decide
          (Exists (λ pm, pm_tenant_id pm = tenant_id ∧ pm_user_id pm = user_id ∧
                         (pm_role pm = "owner" ∨ pm_role pm = "admin"))
             (lightrag_project_members (membership d))) in
      if bool_decide (tr_owner_id tenant ≠ user_id) && negb is_admin then
        (d, inl (PermissionError
                   "User does not have permission to create projects in this tenant"))
      else
        match head (filter (λ p, p_id p = project_id) (lightrag_projects d)) with
        | Some _ =>
            (d, inl (ValueError ("Project '" +:+ project_id +:+ "' already exists")))
        | None =>
            let d1 :=
              with_projects
                (lightrag_projects d ++
                 [{| p_id := project_id; p_tenant_id := tenant_id; p_name := name_;
                     p_description := description; p_created_by := user_id;
                     p_is_active := cp_is_active env;
                     p_created_at := cp_created_at env |}]) d in
            let d2 :=
              with_members
                (lightrag_project_members (membership d1) ++
                 [{| pm_id := cp_member_id env; pm_project_id := project_id;
                     pm_tenant_id := tenant_id; pm_user_id := user_id;
                     pm_role := value OWNER; pm_joined_at := cp_joined_at env |}]) d1 in
            (d2, get_project project_id user_id d2)
        end
  end.

(** [get_invitation] *)
Definition get_invitation (invitation_id : nat) (d : tables)
    : exn + InvitationResponse :=
  match head (filter (λ i, i_id i = invitation_id) (lightrag_invitations d)) with
  | None => inl (ValueError "Invitation not found")
  | Some row =>
      match UserRole_of (i_role row) with
      | None => inl (ValueError "not a valid UserRole")
      | Some role =>
          match InvitationStatus_of (i_status row) with
          | None => inl (ValueError "not a valid InvitationStatus")
          | Some status =>
              inr {| ir_id := i_id row; ir_project_id := i_project_id row;
                     ir_tenant_id := i_tenant_id row; ir_email := i_email row;
                     ir_role := role; ir_invited_by := i_invited_by row;
                     ir_expires_at := i_expires_at row; ir_status := status;
                     ir_created_at := i_created_at row |}
          end
      end
  end.

(** What the outside gives one [invite_member]: the token that
    [secrets.token_urlsafe(32)] draws, the clock, and what the database gives
    the columns that the [INSERT] leaves out. *)
Record invite_env := {
  ie_token : string;
  ie_now : Z;
  ie_id : nat;
  ie_status : string;
  ie_created_at : Z
}.

Definition days (n : Z) : Z := n * 86400000000.

(** [invite_member] *)
Definition invite_member (project_id email : string) (role_ : UserRole)
    (invited_by : string) (env : invite_env) (d : tables)
    : tables * (exn + InvitationResponse) :=
  let inviter_role := select_role project_id invited_by (membership d) in
  if bool_decide (inviter_role ≠ Some (value OWNER) ∧ inviter_role ≠ Some (value ADMIN))
  then (d, inl (PermissionError "Only owners and admins can invite members"))
  else
    match head (filter (λ p, p_id p = project_id) (lightrag_projects d)) with
    | None => (d, inl (ValueError "Project not found"))
    | Some project =>
        let existing_member :=
          bool_decide
            (Exists (λ pm, pm_project_id pm = project_id ∧
                           Exists (λ u, u_id u = pm_user_id pm ∧ u_email u = email)
                             (lightrag_users (membership d)))
               (lightrag_project_members (membership d))) in
        if existing_member then
          (d, inl (ValueError "User is already a member of this project"))
        else
          let existing_invitation :=
            bool_decide
              (Exists (λ i, i_project_id i = project_id ∧ i_email i = email ∧
                            i_status i = "pending")
                 (lightrag_invitations d)) in
          if existing_invitation then
            (d, inl (ValueError "User already has a pending invitation"))
          else
            let token := ie_token env in
            let expires_at := ie_now env + days 7 in
            let d' :=
              with_invitations
                (lightrag_invitations d ++
                 [{| i_id := ie_id env; i_project_id := project_id;
                     i_tenant_id := p_tenant_id project; i_email := email;
                     i_role := value role_; i_invited_by := invited_by;
                     i_token := token; i_expires_at := expires_at;
                     i_accepted_at := None; i_accepted_by := None;
                     i_status := ie_status env;
                     i_created_at := ie_created_at env |}]) d in
            (d', get_invitation (ie_id env) d')
    end.

Definition set_status (status : string) (i : invitation_row) : invitation_row :=
  {| i_id := i_id i; i_project_id := i_project_id i; i_tenant_id := i_tenant_id i;
     i_email := i_email i; i_role := i_role i; i_invited_by := i_invited_by i;
     i_token := i_token i; i_expires_at := i_expires_at i;
     i_accepted_at := i_accepted_at i; i_accepted_by := i_accepted_by i;
     i_status := status; i_created_at := i_created_at i |}.

Definition set_accepted (now : Z) (user : string) (i : invitation_row)
    : invitation_row :=
  {| i_id := i_id i; i_project_id := i_project_id i; i_tenant_id := i_tenant_id i;
     i_email := i_email i; i_role := i_role i; i_invited_by := i_invited_by i;
     i_token := i_token i; i_expires_at := i_expires_at i;
     i_accepted_at := Some now; i_accepted_by := Some user;
     i_status := status_value ACCEPTED; i_created_at := i_created_at i |}.

(** [INSERT INTO lightrag_project_members ... ON CONFLICT (project_id, user_id)
    DO NOTHING] *)
Definition insert_member_or_nothing (row : member_row) (rows : list member_row)
    : list member_row :=
  if bool_decide (Exists (is_member (pm_project_id row) (pm_user_id row)) rows)
  then rows else rows ++ [row].

(** The clock readings of one [accept_invitation], and what the database
    gives the columns that the [INSERT] leaves out. *)
Record accept_env := {
  ae_now : Z;
  ae_accepted_at : Z;
  ae_member_id : nat;
  ae_joined_at : Z
}.

(** [accept_invitation] *)
Definition accept_invitation (token user_id : string) (env : accept_env)
    (d : tables) : tables * (exn + ProjectResponse) :=
  match head (filter (λ i, i_token i = token) (lightrag_invitations d)) with
  | None => (d, inl (ValueError "Invalid invitation token"))
  | Some invitation =>
      if bool_decide (i_status invitation ≠ status_value PENDING) then
        (d, inl (ValueError ("Invitation is " +:+ i_status invitation)))
      else if bool_decide (i_expires_at invitation < ae_now env) then
        (with_invitations
           ((λ i, if decide (i_id i = i_id invitation)
                  then set_status (status_value EXPIRED) i else i)
              <$> lightrag_invitations d) d,
         inl (ValueError "Invitation has expired"))
      else
        let user_email :=
          u_email <$> head (filter (λ u, u_id u = user_id)
                              (lightrag_users (membership d))) in
        if bool_decide (user_email ≠ Some (i_email invitation)) then
          (d, inl (ValueError "This invitation is for a different email address"))
        else
          let d1 :=
            with_members
              (insert_member_or_nothing
                 {| pm_id := ae_member_id env;
                    pm_project_id := i_project_id invitation;
                    pm_tenant_id := i_tenant_id invitation;
                    pm_user_id := user_id; pm_role := i_role invitation;
                    pm_joined_at := ae_joined_at env |}
                 (lightrag_project_members (membership d))) d in
          let d2 :=
            with_invitations
              ((λ i, if decide (i_id i = i_id invitation)
                     then set_accepted (ae_accepted_at env) user_id i else i)
                 <$> lightrag_invitations d1) d1 in
          (d2, get_project (i_project_id invitation) user_id d2)
  end.

(** The project has an owner. *)
Definition has_owner (project : string) (d : db) : Prop :=
  (0 < count_owners project d)%nat.

(** [UNIQUE (project_id, user_id)], the constraint that
    [ON CONFLICT (project_id, user_id)] in [accept_invitation] names. *)
Definition unique_members (d : db) : Prop :=
  NoDup ((λ r, (pm_project_id r, pm_user_id r)) <$> lightrag_project_members d).

(** A project whose only member is its creator, as [create_project] leaves it. *)
Definition solo_project : db :=
  {| lightrag_project_members :=
       [{| pm_id := 1; pm_project_id := "proj1"; pm_tenant_id := "acme";
           pm_user_id := "alice"; pm_role := "owner"; pm_joined_at := 0 |}];
     lightrag_users :=
       [{| u_id := "alice"; u_email := "alice@x.com"; u_name := "Alice" |}] |}.

Definition two_owners : db :=
  {| lightrag_project_members :=
       [{| pm_id := 1; pm_project_id := "proj1"; pm_tenant_id := "acme";
           pm_user_id := "alice"; pm_role := "owner"; pm_joined_at := 0 |};
        {| pm_id := 2; pm_project_id := "proj1"; pm_tenant_id := "acme";
           pm_user_id := "bob"; pm_role := "owner"; pm_joined_at := 1 |}];
     lightrag_users :=
       [{| u_id := "alice"; u_email := "alice@x.com"; u_name := "Alice" |};
        {| u_id := "bob"; u_email := "bob@x.com"; u_name := "Bob" |}] |}.

(** The tables after alice, owner of the tenant acme, has created the project
    proj1 and invited bob as a viewer. *)
Definition sample_tables : tables :=
  {| membership :=
       {| lightrag_project_members := lightrag_project_members solo_project;
          lightrag_users :=
            lightrag_users solo_project ++
            [{| u_id := "bob"; u_email := "bob@x.com"; u_name := "Bob" |}] |};
     lightrag_tenants :=
       [{| t_id := "acme"; t_name := "Acme"; t_description := None;
           t_owner_id := "alice"; t_is_active := true; t_created_at := 0 |}];
     lightrag_projects :=
       [{| p_id := "proj1"; p_tenant_id := "acme"; p_name := "Project";
           p_description := None; p_created_by := "alice"; p_is_active := true;
           p_created_at := 0 |}];
     lightrag_invitations :=
       [{| i_id := 1; i_project_id := "proj1"; i_tenant_id := "acme";
           i_email := "bob@x.com"; i_role := "viewer"; i_invited_by := "alice";
           i_token := "inv1"; i_expires_at := 100; i_accepted_at := None;
           i_accepted_by := None; i_status := "pending"; i_created_at := 0 |}] |}.

Definition sample_accept_env : accept_env :=
  {| ae_now := 10; ae_accepted_at := 11; ae_member_id := 2; ae_joined_at := 11 |}.

(** No project has two pending invitations for one email. *)
Definition one_pending_invitation (d : tables) : Prop :=
  NoDup ((λ i, (i_project_id i, i_email i))
           <$> filter (λ i, i_status i = status_value PENDING)
                 (lightrag_invitations d)).

(** *** [remove_member] keeps an owner *)

Lemma length_filter_split {A} (P Q : A → Prop)
    `{!∀ x, Decision (P x)} `{!∀ x, Decision (Q x)} (l : list A) :
  length (filter P l)
  = (length (filter P (filter (λ x, ¬ Q x) l)) + length (filter P (filter Q l)))%nat.
Proof.
  induction l as [|a l IH]; [done|].
  rewrite !(filter_cons _ a).
  destruct (decide (P a)), (decide (Q a)), (decide (¬ Q a)); try done;
    rewrite ?(filter_cons _ a); repeat case_decide; try done; simpl; lia.
Qed.

Lemma unique_key_rows {A B} `{EqDecision B} (f : A → B) (b : B) (l : list A) :
  NoDup (f <$> l) → (length (filter (λ x, f x = b) l) ≤ 1)%nat.
Proof.
  induction l as [|a l IH]; simpl; [lia|].
  rewrite NoDup_cons. intros [Ha Hnd]. rewrite filter_cons.
  destruct (decide (f a = b)) as [<-|]; [|by auto].
  simpl. rewrite filter_none; [simpl; lia|].
  intros x Hx Heq. apply Ha. rewrite <- Heq. apply list_elem_of_fmap. eauto.
Qed.

Section Membership.
Context (project target : string) (d : db).
Hypothesis Hunique : unique_members d.

Lemma at_most_one_row :
  (length (filter (is_member project target) (lightrag_project_members d)) ≤ 1)%nat.
Proof.
  pose proof (unique_key_rows (λ r, (pm_project_id r, pm_user_id r))
                (project, target) _ Hunique) as Hle.
  erewrite list_filter_iff; [exact Hle|].
  intros r. unfold is_member.
  split; [intros [H1 H2]; by rewrite H1, H2|intros H; by injection H].
Qed.

(** The owner rows that the [DELETE] takes away. *)
Lemma deleted_owners :
  (length (filter (is_owner project)
             (filter (is_member project target) (lightrag_project_members d)))
   ≤ if decide (select_role project target d = Some (value OWNER)) then 1 else 0)%nat.
Proof.
  pose proof at_most_one_row as Hle. unfold select_role.
  destruct (filter (is_member project target) (lightrag_project_members d))
    as [|r [|r2 l]]; simpl in *; [first [lia|case_decide; lia]| |lia].
  rewrite filter_cons. destruct (decide (is_owner project r)) as [[_ Hr]|Hr].
  - rewrite decide_True by by rewrite Hr. simpl. lia.
  - simpl. first [lia|case_decide; lia].
Qed.

Lemma count_owners_delete_member :
  count_owners project d
  = (count_owners project (delete_member project target d)
     + length (filter (is_owner project)
                 (filter (is_member project target) (lightrag_project_members d))))%nat.
Proof. unfold count_owners. simpl. apply length_filter_split. Qed.

Lemma count_owners_delete_other other :
  other ≠ project →
  count_owners other (delete_member project target d) = count_owners other d.
Proof.
  intros Hne. unfold count_owners. simpl. rewrite list_filter_filter.
  f_equal. apply list_filter_iff. intros r. unfold is_owner, is_member.
  split; [tauto|]. intros [Hp Hr]. split; [done|]. intros [Hp2 _]. congruence.
Qed.
End Membership.

(** Under the uniqueness constraint of the table, [remove_member] never
    leaves a project that had an owner without one. *)
Lemma remove_member_keeps_an_owner project target removed_by d other :
  unique_members d →
  has_owner other d →
  has_owner other (remove_member project target removed_by d).1.
Proof.
  intros Hunique Hhas. unfold remove_member.
  destruct (decide (select_role project removed_by d ≠ Some (value OWNER))); [done|].
  pose proof (deleted_owners project target d Hunique) as Hdel.
  pose proof (count_owners_delete_member project target d) as Hcount.
  destruct (decide (other = project)) as [->|Hne].
  - unfold has_owner in *.
    destruct (decide (select_role project target d = Some (value OWNER))).
    + destruct (decide (count_owners project d ≤ 1)%nat); simpl; lia.
    + simpl. lia.
  - assert (has_owner other (delete_member project target d))
      by (unfold has_owner; by rewrite count_owners_delete_other).
    destruct (decide (select_role project target d = Some (value OWNER)));
      [destruct (decide (count_owners project d ≤ 1)%nat)|]; done.
Qed.

(** Removing the last owner is refused and changes nothing. *)
Lemma remove_last_owner_is_refused project target removed_by d :
  select_role project removed_by d = Some (value OWNER) →
  select_role project target d = Some (value OWNER) →
  (count_owners project d ≤ 1)%nat →
  remove_member project target removed_by d
  = (d, inl (ValueError "Cannot remove the last owner")).
Proof.
  intros Hby Htarget Hcount. unfold remove_member.
  rewrite decide_False by (intros Hn; by apply Hn).
  rewrite decide_True by done. by rewrite decide_True.
Qed.

(** Removing an owner succeeds when there is another one. *)
Lemma remove_other_owner_succeeds project target removed_by d :
  select_role project removed_by d = Some (value OWNER) →
  (1 < count_owners project d)%nat →
  remove_member project target removed_by d
  = (delete_member project target d, inr tt).
Proof.
  intros Hby Hcount. unfold remove_member.
  rewrite decide_False by (intros Hn; by apply Hn).
  destruct (decide (select_role project target d = Some (value OWNER))); [|done].
  by rewrite decide_False by lia.
Qed.

(** *** The claim about the owners *)

(** C3. [update_member_role] does not keep the invariant that
    [remove_member] guards: in a project whose only owner is its creator, the
    owner changes their own role to member; the call succeeds and the project
    is left without an owner. *)
Theorem update_member_role_can_leave_no_owner :
  has_owner "proj1" solo_project ∧
  ∃ d2 response,
    update_member_role "proj1" "alice" MEMBER "alice" solo_project = (d2, inr response) ∧
    role response = MEMBER ∧
    count_owners "proj1" d2 = 0%nat.
Proof.
  split; [vm_compute; lia|]. eexists _, _. split_and!; reflexivity.
Qed.

Lemma remove_member_keeps_an_owner_witness :
  has_owner "proj1" (remove_member "proj1" "bob" "alice" two_owners).1.
Proof.
  apply remove_member_keeps_an_owner.
  - unfold unique_members. simpl. apply (bool_decide_unpack _). reflexivity.
  - vm_compute. lia.
Defined.

(** *** Changing a role *)

Lemma UserRole_of_value r : UserRole_of (value r) = Some r.
Proof. by destruct r. Qed.

Lemma value_not_empty r : value r ≠ "".
Proof. by destruct r. Qed.

Lemma is_member_set_role new_role project user r :
  is_member project user (set_role new_role r) ↔ is_member project user r.
Proof. done. Qed.

(** The rows of a member after the [UPDATE] carry the new role. *)
Lemma updated_member_role new_role project user d r :
  r ∈ lightrag_project_members (update_role new_role project user d) →
  is_member project user r → pm_role r = new_role.
Proof.
  simpl. intros Hr Hm. apply list_elem_of_fmap in Hr as (r0 & -> & _).
  destruct (decide (is_member project user r0)); [done|]. contradiction.
Qed.

Lemma select_role_update_role_other new_role project user d p u :
  (p, u) ≠ (project, user) →
  select_role p u (update_role new_role project user d) = select_role p u d.
Proof.
  intros Hne. unfold select_role. simpl.
  rewrite head_filter_fmap by (intros x; case_decide; done).
  destruct (head (filter (is_member p u) (lightrag_project_members d)))
    as [r|] eqn:Hh; [|done].
  simpl. apply head_filter_Some in Hh as [_ [Hp Hu]].
  rewrite decide_False; [done|]. intros [Hp' Hu']. apply Hne. congruence.
Qed.

(** A successful [update_member_role] reports the role it was asked to set,
    and has set it: the target has the new role on every later lookup, in
    [check_user_access] as well, and no other membership has changed. *)
Theorem update_member_role_sets_the_role
    project target new_role updated_by d d' response :
  update_member_role project target new_role updated_by d = (d', inr response) →
  select_role project updated_by d = Some (value OWNER) ∧
  role response = new_role ∧ user_id response = target ∧
  select_role project target d' = Some (value new_role) ∧
  (∀ tenant,
     check_user_access target tenant project d' = inr (Some new_role) ∨
     check_user_access target tenant project d' = inr None) ∧
  (∀ p u, (p, u) ≠ (project, target) → select_role p u d' = select_role p u d) ∧
  lightrag_users d' = lightrag_users d.
Proof.
  unfold update_member_role.
  destruct (decide (select_role project updated_by d ≠ Some (value OWNER)))
    as [|Hby]; [done|].
  apply dec_stable in Hby.
  set (d1 := update_role (value new_role) project target d).
  destruct (select_member project target d1) as [[r u]|] eqn:Hsel; [|done].
  assert (r ∈ lightrag_project_members d1 ∧ is_member project target r) as [Hr Hm].
  { unfold select_member in Hsel. apply head_elem_of in Hsel.
    apply list_elem_of_bind in Hsel as (r' & Hin & Hr').
    apply list_elem_of_bind in Hin as (u' & Hin & _).
    apply list_elem_of_singleton in Hin as [= -> ->].
    by apply list_elem_of_filter in Hr' as [? ?]. }
  pose proof (updated_member_role _ _ _ _ _ Hr Hm) as Hrole.
  rewrite Hrole, UserRole_of_value. intros [= <- <-]. cbn [role user_id].
  split_and!; [done|done|by destruct Hm| | | |done].
  - unfold select_role.
    destruct (head (filter (is_member project target) (lightrag_project_members d1)))
      as [r'|] eqn:Hh.
    + apply head_filter_Some in Hh as [Hr' Hm']. simpl. f_equal.
      by eapply updated_member_role.
    + rewrite head_filter_None in Hh. by destruct (Hh r Hr).
  - intros tenant. unfold check_user_access.
    destruct (head (filter _ (lightrag_project_members d1))) as [r'|] eqn:Hh;
      [|by right].
    apply head_filter_Some in Hh as (Hr' & Hu & _ & Hp). simpl.
    rewrite (updated_member_role _ _ _ _ _ Hr') by done.
    rewrite decide_False by apply value_not_empty.
    rewrite UserRole_of_value. by left.
  - intros p u0 Hne. by apply select_role_update_role_other.
Qed.

Lemma update_member_role_sets_the_role_witness :
  select_role "proj1" "bob"
    (update_member_role "proj1" "bob" VIEWER "alice" two_owners).1
  = Some (value VIEWER).
Proof.
  eapply (update_member_role_sets_the_role "proj1" "bob" VIEWER "alice" two_owners).
  reflexivity.
Defined.

(** An [update_member_role] for a user who is not a member of the project
    changes no row; the member read back is [None], and subscripting it
    raises [TypeError], which the route answers with status 500. *)
Theorem update_member_role_of_a_non_member project target new_role updated_by d :
  select_role project updated_by d = Some (value OWNER) →
  select_role project target d = None →
  update_member_role project target new_role updated_by d
  = (d, inl (TypeError "'NoneType' object is not subscriptable")).
Proof.
  intros Hby Htarget. unfold update_member_role.
  rewrite decide_False by (intros Hn; by apply Hn).
  assert (∀ r, r ∈ lightrag_project_members d → ¬ is_member project target r) as Hnone.
  { unfold select_role in Htarget.
    destruct (head (filter _ _)) eqn:Hh; [done|].
    exact (proj1 (head_filter_None _ _) Hh). }
  assert (update_role (value new_role) project target d = d) as ->.
  { unfold update_role. rewrite fmap_id_on; [by destruct d|].
    intros r Hr. by rewrite decide_False by by apply Hnone. }
  unfold select_member. by rewrite filter_none.
Qed.

Lemma update_member_role_of_a_non_member_witness :
  update_member_role "proj1" "carol" ADMIN "alice" solo_project
  = (solo_project, inl (TypeError "'NoneType' object is not subscriptable")).
Proof.
  apply update_member_role_of_a_non_member; reflexivity.
Defined.

(** *** Creating a project *)

Lemma get_project_id project_id user_id d response :
  get_project project_id user_id d = inr response → pr_id response = project_id.
Proof.
  unfold get_project.
  destruct (head (project_with_role project_id user_id d)) as [[p r]|] eqn:Hh;
    [|done].
  assert (p_id p = project_id) as Hp.
  { apply head_elem_of in Hh. unfold project_with_role in Hh.
    apply list_elem_of_bind in Hh as (p' & Hin & Hp').
    apply list_elem_of_filter in Hp' as [Hid _].
    destruct (filter _ _) in Hin.
    - by apply list_elem_of_singleton in Hin as [= -> ->].
    - by apply list_elem_of_fmap in Hin as (pm & [= -> ->] & _). }
  destruct r as [r|]; [|by intros [= <-]].
  destruct (decide (r = "")); [by intros [= <-]|].
  destruct (UserRole_of r); [by intros [= <-]|done].
Qed.

(** A project that [create_project] has created, under an id that no member
    row names yet, has one member: its creator, as owner. [check_user_access]
    gives the creator the owner role, and [remove_member] refuses to remove the
    creator. The owners of the other projects are the same as before. *)
Theorem create_project_makes_the_creator_owner
    project_id tenant_id name_ user description env d d' response :
  (∀ pm, pm ∈ lightrag_project_members (membership d) →
         pm_project_id pm ≠ project_id) →
  create_project project_id tenant_id name_ user description env d
  = (d', inr response) →
  pr_id response = project_id ∧ pr_tenant_id response = tenant_id ∧
  pr_user_role response = Some OWNER ∧ pr_member_count response = 1%nat ∧
  count_owners project_id (membership d') = 1%nat ∧
  check_user_access user tenant_id project_id (membership d') = inr (Some OWNER) ∧
  remove_member project_id user user (membership d')
  = (membership d', inl (ValueError "Cannot remove the last owner")) ∧
  (∀ other, other ≠ project_id →
     count_owners other (membership d') = count_owners other (membership d)).
Proof.
  intros Hfresh. unfold create_project.
  destruct (get_tenant tenant_id d) as [e|tenant]; [done|].
  destruct (_ && _); [done|].
  destruct (head (filter (λ p, p_id p = project_id) (lightrag_projects d)))
    as [p|] eqn:Hp; [done|].
  rewrite head_filter_None in Hp.
  set (row := {| pm_id := cp_member_id env; pm_project_id := project_id;
                 pm_tenant_id := tenant_id; pm_user_id := user;
                 pm_role := value OWNER; pm_joined_at := cp_joined_at env |}).
  assert (∀ (P : member_row → Prop) `{!∀ x, Decision (P x)},
            (∀ pm, P pm → pm_project_id pm = project_id) → P row →
            filter P (lightrag_project_members (membership d) ++ [row]) = [row])
    as Hfilter.
  { intros P ? HP Hrow. rewrite filter_app, filter_none.
    - simpl. by rewrite filter_cons, decide_True.
    - intros pm Hpm HPpm. by apply (Hfresh pm Hpm), HP. }
  intros [= <- Hget]. cbn [membership with_members with_projects
    lightrag_project_members lightrag_users].
  assert (select_role project_id user
            {| lightrag_project_members :=
                 lightrag_project_members (membership d) ++ [row];
               lightrag_users := lightrag_users (membership d) |}
          = Some (value OWNER)) as Hrole.
  { unfold select_role. cbn [lightrag_project_members].
    rewrite Hfilter; [done|by intros pm [? _]|done]. }
  assert (count_owners project_id
            {| lightrag_project_members :=
                 lightrag_project_members (membership d) ++ [row];
               lightrag_users := lightrag_users (membership d) |} = 1%nat) as Hcount.
  { unfold count_owners. cbn [lightrag_project_members].
    rewrite Hfilter; [done|by intros pm [? _]|done]. }
  unfold get_project, project_with_role in Hget.
  cbn [membership with_members with_projects lightrag_projects
    lightrag_project_members] in Hget.
  rewrite filter_app, filter_none in Hget by done. simpl in Hget.
  rewrite filter_cons, decide_True in Hget by done. simpl in Hget.
  rewrite app_nil_r in Hget.
  rewrite (Hfilter (is_member project_id user)) in Hget; [|by intros pm [? _]|done].
  simpl in Hget.
  rewrite (Hfilter (λ pm, pm_project_id pm = project_id)) in Hget by done.
  injection Hget as <-.
  split_and!; [done..| | |].
  - unfold check_user_access. cbn [lightrag_project_members].
    rewrite Hfilter; [done|by intros pm (_ & _ & ?)|done].
  - apply remove_last_owner_is_refused; [done|done|lia].
  - intros other Hne. unfold count_owners. cbn [lightrag_project_members].
    rewrite filter_app, length_app.
    rewrite (filter_none _ [row]); [simpl; lia|].
    intros pm ->%list_elem_of_singleton [Hp' _]. by apply Hne.
Qed.

Lemma create_project_makes_the_creator_owner_witness :
  let d :=
    {| membership := {| lightrag_project_members := [];
                        lightrag_users := lightrag_users solo_project |};
       lightrag_tenants :=
         [{| t_id := "acme"; t_name := "Acme"; t_description := None;
             t_owner_id := "alice"; t_is_active := true; t_created_at := 0 |}];
       lightrag_projects := []; lightrag_invitations := [] |} in
  let env := {| cp_is_active := true; cp_created_at := 1; cp_member_id := 1;
                cp_joined_at := 1 |} in
  check_user_access "alice" "acme" "proj1"
    (membership (create_project "proj1" "acme" "Project" "alice" None env d).1)
  = inr (Some OWNER).
Proof.
  intros d env.
  eapply (create_project_makes_the_creator_owner
            "proj1" "acme" "Project" "alice" None env d).
  - intros pm Hpm. by apply elem_of_nil in Hpm.
  - reflexivity.
Defined.

(** *** Invitations *)

Lemma select_role_insert_member row rows users p u :
  select_role p u
    {| lightrag_project_members := insert_member_or_nothing row rows;
       lightrag_users := users |}
  = match select_role p u {| lightrag_project_members := rows;
                             lightrag_users := users |} with
    | Some r => Some r
    | None => if decide (is_member p u row) then Some (pm_role row) else None
    end.
Proof.
  unfold select_role, insert_member_or_nothing. cbn [lightrag_project_members].
  case_bool_decide as Hex.
  - destruct (head (filter (is_member p u) rows)) as [r|] eqn:Hh; [done|].
    case_decide as Hm; [|done]. exfalso.
    apply Exists_exists in Hex as (r & Hr & Hmr).
    rewrite head_filter_None in Hh. apply (Hh r Hr).
    destruct Hm as [<- <-]. done.
  - rewrite filter_app.
    destruct (filter (is_member p u) rows) as [|r l]; [|done]. simpl.
    rewrite filter_cons. case_decide; done.
Qed.

Lemma unique_members_insert row rows users :
  unique_members {| lightrag_project_members := rows; lightrag_users := users |} →
  unique_members {| lightrag_project_members := insert_member_or_nothing row rows;
                    lightrag_users := users |}.
Proof.
  unfold unique_members, insert_member_or_nothing. cbn [lightrag_project_members].
  intros Hnd. case_bool_decide as Hex; [done|].
  rewrite fmap_app. apply NoDup_app. split_and!; [done| |apply NoDup_singleton].
  intros x Hx ->%list_elem_of_singleton.
  apply list_elem_of_fmap in Hx as (r & [= Hp Hu] & Hr).
  apply Hex, Exists_exists. exists r. by split.
Qed.

Lemma count_owners_insert row rows users p :
  (count_owners p {| lightrag_project_members := rows; lightrag_users := users |}
   ≤ count_owners p {| lightrag_project_members := insert_member_or_nothing row rows;
                       lightrag_users := users |})%nat.
Proof.
  unfold count_owners, insert_member_or_nothing. cbn [lightrag_project_members].
  case_bool_decide; [done|]. rewrite filter_app, length_app. lia.
Qed.

(** A successful [accept_invitation] was for an invitation that was pending,
    had not run out and was sent to the email of the caller. The caller is a
    member of the project afterwards: with the role of the invitation, or,
    when the caller was a member already, with the role the caller had. No
    other membership changes, no row is duplicated and no project loses an
    owner. *)
Theorem accept_invitation_adds_the_member token user env d d' response :
  accept_invitation token user env d = (d', inr response) →
  ∃ inv,
    head (filter (λ i, i_token i = token) (lightrag_invitations d)) = Some inv ∧
    i_status inv = status_value PENDING ∧ ae_now env ≤ i_expires_at inv ∧
    u_email <$> head (filter (λ u, u_id u = user) (lightrag_users (membership d)))
    = Some (i_email inv) ∧
    pr_id response = i_project_id inv ∧
    select_role (i_project_id inv) user (membership d')
    = Some (default (i_role inv)
              (select_role (i_project_id inv) user (membership d))) ∧
    (∀ p u, (p, u) ≠ (i_project_id inv, user) →
       select_role p u (membership d') = select_role p u (membership d)) ∧
    (unique_members (membership d) → unique_members (membership d')) ∧
    (∀ p, (count_owners p (membership d) ≤ count_owners p (membership d'))%nat).
Proof.
  unfold accept_invitation.
  destruct (head (filter (λ i, i_token i = token) (lightrag_invitations d)))
    as [inv|] eqn:Hinv; [|done].
  case_bool_decide as Hstatus; [done|].
  case_bool_decide as Hexp; [done|].
  case_bool_decide as Hemail; [done|].
  intros [= <- Hget]. exists inv.
  cbn [membership with_members with_invitations].
  destruct (membership d) as [rows users] eqn:Hd. cbn [lightrag_users] in *.
  cbn [lightrag_project_members].
  split_and!; [done|done|lia|done|by eapply get_project_id| | | |].
  - rewrite select_role_insert_member.
    destruct (select_role _ _ _); [done|]. simpl. by rewrite decide_True.
  - intros p u Hne. rewrite select_role_insert_member.
    destruct (select_role _ _ _); [done|].
    rewrite decide_False; [done|]. intros [Hp Hu]. simpl in Hp, Hu.
    apply Hne. congruence.
  - apply unique_members_insert.
  - intros p. apply count_owners_insert.
Qed.

Lemma accept_invitation_adds_the_member_witness :
  select_role "proj1" "bob"
    (membership (accept_invitation "inv1" "bob" sample_accept_env sample_tables).1)
  = Some "viewer".
Proof.
  edestruct (accept_invitation_adds_the_member "inv1" "bob" sample_accept_env
               sample_tables)
    as (inv & Hinv & _ & _ & _ & _ & Hrole & _); [reflexivity|].
  vm_compute in Hinv. injection Hinv as <-. exact Hrole.
Defined.

Lemma head_filter_token token (f : invitation_row → invitation_row) invs inv :
  (∀ i, i_token (f i) = i_token i) →
  head (filter (λ i, i_token i = token) invs) = Some inv →
  head (filter (λ i, i_token i = token) (f <$> invs)) = Some (f inv).
Proof.
  intros Hf Hh. rewrite head_filter_fmap by (intros i; by rewrite Hf).
  by rewrite Hh.
Qed.

(** An invitation is used once. After an [accept_invitation] that succeeded,
    and after one that found the invitation run out, every later call with
    the token, by whomever, raises and changes nothing: the invitation is no
    longer pending. *)
Theorem invitation_is_single_use token user env d :
  let result := accept_invitation token user env d in
  (∀ response, result.2 = inr response →
     ∀ user2 env2,
       accept_invitation token user2 env2 result.1
       = (result.1, inl (ValueError "Invitation is accepted"))) ∧
  (result.2 = inl (ValueError "Invitation has expired") →
   ∀ user2 env2,
     accept_invitation token user2 env2 result.1
     = (result.1, inl (ValueError "Invitation is expired"))).
Proof.
  cbv zeta. destruct (accept_invitation token user env d) as [d' r] eqn:Hres.
  cbn [fst snd]. unfold accept_invitation in Hres.
  destruct (head (filter (λ i, i_token i = token) (lightrag_invitations d)))
    as [inv|] eqn:Hinv; [|by injection Hres as <- <-].
  case_bool_decide as Hstatus;
    [injection Hres as <- <-; split; [done|simpl; by intros [=]]|].
  assert (∀ (f : invitation_row → invitation_row) d1 status user2 env2,
            (∀ i, i_token (f i) = i_token i) →
            i_status (f inv) = status → status ≠ status_value PENDING →
            lightrag_invitations d1 = f <$> lightrag_invitations d →
            accept_invitation token user2 env2 d1
            = (d1, inl (ValueError ("Invitation is " +:+ status)))) as Hlater.
  { intros f d1 status user2 env2 Hf Hs Hne Hd1. unfold accept_invitation.
    rewrite Hd1, (head_filter_token _ _ _ inv) by done.
    rewrite Hs. by rewrite bool_decide_true. }
  case_bool_decide as Hexp.
  - injection Hres as <- <-. split; [done|]. intros _ user2 env2.
    apply (Hlater (λ i, if decide (i_id i = i_id inv)
                        then set_status (status_value EXPIRED) i else i)
             _ (status_value EXPIRED)); [|by rewrite decide_True|done|done].
    intros i. by case_decide.
  - case_bool_decide as Hemail;
      [injection Hres as <- <-; split; [done|simpl; by intros [=]]|].
    injection Hres as <- <-. split.
    + intros response _ user2 env2.
      apply (Hlater (λ i, if decide (i_id i = i_id inv)
                          then set_accepted (ae_accepted_at env) user i else i)
               _ (status_value ACCEPTED)); [|by rewrite decide_True|done|done].
      intros i. by case_decide.
    + unfold get_project.
      destruct (head (project_with_role _ _ _)) as [[p [x|]]|]; [| |simpl; by intros [=]].
      * destruct (decide (x = "")); [done|]. destruct (UserRole_of x); done.
      * done.
Qed.

Lemma pending_after_update (f : invitation_row → invitation_row) invs :
  (∀ i, f i = i ∨ (i_status (f i) ≠ status_value PENDING ∧
                   i_project_id (f i) = i_project_id i ∧ i_email (f i) = i_email i)) →
  (λ i, (i_project_id i, i_email i))
    <$> filter (λ i, i_status i = status_value PENDING) (f <$> invs)
  `sublist_of`
  (λ i, (i_project_id i, i_email i))
    <$> filter (λ i, i_status i = status_value PENDING) invs.
Proof.
  intros Hf. induction invs as [|i invs IH]; [done|].
  rewrite fmap_cons, !filter_cons.
  destruct (Hf i) as [->|(Hs & Hp & He)].
  - case_decide; [|done]. rewrite !fmap_cons. by apply sublist_skip.
  - rewrite decide_False by done. case_decide; [|done].
    rewrite fmap_cons. by apply sublist_cons.
Qed.

(** No project gets two pending invitations for one email: [invite_member]
    refuses to add a second one, and [accept_invitation] only takes
    invitations out of the pending ones. *)
Theorem at_most_one_pending_invitation d :
  one_pending_invitation d →
  (∀ project email role_ invited_by env,
     one_pending_invitation (invite_member project email role_ invited_by env d).1) ∧
  (∀ token user env, one_pending_invitation (accept_invitation token user env d).1).
Proof.
  intros Hone. split.
  - intros project email role_ invited_by env. unfold invite_member.
    case_bool_decide; [done|].
    destruct (head (filter _ (lightrag_projects d))) as [p|]; [|done].
    case_bool_decide; [done|]. case_bool_decide as Hex; [done|].
    unfold one_pending_invitation in *. cbn [fst lightrag_invitations with_invitations].
    rewrite filter_app, fmap_app. apply NoDup_app. split_and!; [done| |].
    + intros x Hx Hnew. apply Hex.
      apply list_elem_of_fmap in Hx as (i & -> & Hi).
      apply list_elem_of_filter in Hi as [Hs Hi].
      rewrite filter_cons in Hnew. case_decide; [|by apply elem_of_nil in Hnew].
      apply list_elem_of_singleton in Hnew as [= Hp He].
      apply Exists_exists. exists i. done.
    + rewrite filter_cons. case_decide; [apply NoDup_singleton|apply NoDup_nil_2].
  - intros token user env. unfold accept_invitation.
    destruct (head (filter _ (lightrag_invitations d))) as [inv|]; [|done].
    case_bool_decide; [done|]. case_bool_decide.
    + unfold one_pending_invitation in *.
      cbn [fst lightrag_invitations with_invitations].
      eapply sublist_NoDup; [done|]. apply pending_after_update.
      intros i. case_decide; [right|by left]. done.
    + case_bool_decide; [done|]. unfold one_pending_invitation in *.
      cbn [fst lightrag_invitations with_invitations with_members].
      eapply sublist_NoDup; [done|]. apply pending_after_update.
      intros i. case_decide; [right|by left]. done.
Qed.

Lemma at_most_one_pending_invitation_witness :
  one_pending_invitation
    (accept_invitation "inv1" "bob" sample_accept_env sample_tables).1.
Proof.
  apply (proj2 (at_most_one_pending_invitation sample_tables
                  ltac:(vm_compute; apply NoDup_singleton))).
Defined.

End ProjectService.

(** ** API keys ([lightrag/api/services/api_key_service.py]) *)

Module APIKeyService.

(** [auth_models.APIKeyScope], a [str] enumeration. *)
Inductive APIKeyScope := QUERY | INSERT | DELETE | ADMIN.

Definition value (s : APIKeyScope) : string :=
  match s with
  | QUERY => "query"
  | INSERT => "insert"
  | DELETE => "delete"
  | ADMIN => "admin"
  end.

(** The columns of [lightrag_api_keys] that the statements name. *)
Record api_key_row := {
  id : nat;
  user_id : string;
  tenant_id : string;
  project_id : string;
  name : string;
  key_prefix : string;
  key_hash : string;
  scopes : string;
  expires_at : option Z;
  is_active : bool;
  revoked_at : option Z;
  revoked_by : option string;
  last_used_at : option Z;
  created_at : Z
}.

Record project_row := { p_id : string; p_tenant_id : string }.

Record member_row := { pm_project_id : string; pm_user_id : string }.

Record db := {
  lightrag_api_keys : list api_key_row;
  lightrag_projects : list project_row;
  lightrag_project_members : list member_row
}.

Definition with_api_keys (rows : list api_key_row) (d : db) : db :=
  {| lightrag_api_keys := rows;
     lightrag_projects := lightrag_projects d;
     lightrag_project_members := lightrag_project_members d |}.

Inductive exn :=
| ValueError (msg : string)
| PermissionError (msg : string).

Record APIKeyCreateResponse := {
  r_id : nat;
  r_name : string;
  r_key : string;
  r_key_prefix : string;
  r_project_id : string;
  r_tenant_id : string;
  r_scopes : list string;
  r_expires_at : option Z;
  r_created_at : Z
}.

(** The dictionary [validate_api_key] returns. *)
Record key_context := {
  c_key_id : nat;
  c_user_id : string;
  c_tenant_id : string;
  c_project_id : string;
  c_scopes : list string
}.

(** Modelled from the spec: the default of the column [is_active], which the
    [INSERT] of [create_api_key] leaves out; the schema is not part of the
    sources. A key is active from its creation until it is revoked. *)
Definition default_is_active : bool := true.

(** Modelled from the spec: the id that [INSERT ... RETURNING id] gives a new
    row is chosen by the database; the schema is not part of the sources. Any
    id that no row has will do, here the successor of the largest. *)
Definition new_id (rows : list api_key_row) : nat :=
  S (foldr Nat.max 0%nat (id <$> rows)).

Section Service.
(** The libraries the service calls: [bcrypt.hashpw] (with the salt that
    [bcrypt.gensalt] drew), [bcrypt.checkpw], [json.dumps] and [json.loads]
    on lists of strings. *)
Context (hashpw : string → string → string) (checkpw : string → string → bool).
Context (dumps : list string → string) (loads : string → list string).

(** [generate_api_key], from the output of [secrets.token_urlsafe(32)] and
    the salt. *)
Definition generate_api_key (random_part salt : string) : string * string * string :=
  let full_key := "lrag_" +:+ random_part in
  let key_prefix := String.substring 0 12 full_key +:+ "..." in
  let key_hash := hashpw full_key salt in
  (full_key, key_prefix, key_hash).

Definition verify_api_key (key key_hash : string) : bool := checkpw key key_hash.

(** [create_api_key]. The columns that the [INSERT] leaves out take their
    defaults: [is_active] is [default_is_active], [created_at] is the time
    [now] of the insertion, the others are [NULL]. *)
Definition create_api_key (user project name_ : string) (scopes_ : list APIKeyScope)
    (expires : option Z) (random_part salt : string) (now : Z) (d : db)
    : db * (exn + APIKeyCreateResponse) :=
  match head (filter (λ p, p_id p = project) (lightrag_projects d)) with
  | None => (d, inl (ValueError "Project not found"))
  | Some project_ =>
      let has_access :=
        bool_decide (Exists (λ m, pm_project_id m = project ∧ pm_user_id m = user)
                       (lightrag_project_members d)) in
      if negb has_access then
        (d, inl (PermissionError "You don't have access to this project"))
      else
        let '(full_key, key_prefix_, key_hash_) := generate_api_key random_part salt in
        let scope_values := value <$> scopes_ in
        let scope_json := dumps scope_values in
        let key_id := new_id (lightrag_api_keys d) in
        let d' :=
          with_api_keys
            (lightrag_api_keys d ++
             [{| id := key_id; user_id := user; tenant_id := p_tenant_id project_;
                 project_id := project; name := name_; key_prefix := key_prefix_;
                 key_hash := key_hash_; scopes := scope_json; expires_at := expires;
                 is_active := default_is_active; revoked_at := None;
                 revoked_by := None; last_used_at := None; created_at := now |}]) d in
        match head (filter (λ r, id r = key_id) (lightrag_api_keys d')) with
        | None => (d', inl (ValueError "'NoneType' object is not subscriptable"))
        | Some row =>
            (d', inr {| r_id := id row; r_name := name row; r_key := full_key;
                        r_key_prefix := key_prefix row;
                        r_project_id := project_id row;
                        r_tenant_id := tenant_id row;
                        r_scopes := loads (scopes row);
                        r_expires_at := expires_at row;
                        r_created_at := created_at row |})
        end
  end.

(** [WHERE is_active = true AND revoked_at IS NULL AND (expires_at IS NULL OR
    expires_at > $1)] *)
Definition usable (now : Z) (r : api_key_row) : Prop :=
  is_active r = true ∧ revoked_at r = None ∧
  match expires_at r with
  | None => True
  | Some t => t > now
  end.

#[global] Instance usable_dec now r : Decision (usable now r).
Proof. unfold usable. destruct (expires_at r); apply _. Defined.

Definition set_last_used (now : Z) (r : api_key_row) : api_key_row :=
  {| id := id r; user_id := user_id r; tenant_id := tenant_id r;
     project_id := project_id r; name := name r; key_prefix := key_prefix r;
     key_hash := key_hash r; scopes := scopes r; expires_at := expires_at r;
     is_active := is_active r; revoked_at := revoked_at r;
     revoked_by := revoked_by r; last_used_at := Some now;
     created_at := created_at r |}.

(** [validate_api_key]; [now] is the time of the query and [now'] the time
    written as last use. *)
Definition validate_api_key (key : string) (now now' : Z) (d : db)
    : db * option key_context :=
  if negb (String.prefix "lrag_" key) then (d, None)
  else
    let rows := filter (usable now) (lightrag_api_keys d) in
    match head (filter (λ row, verify_api_key key (key_hash row) = true) rows) with
    | Some row =>
        (with_api_keys
           ((λ r, if decide (id r = id row) then set_last_used now' r else r)
              <$> lightrag_api_keys d) d,
         Some {| c_key_id := id row; c_user_id := user_id row;
                 c_tenant_id := tenant_id row; c_project_id := project_id row;
                 c_scopes := loads (scopes row) |})
    | None => (d, None)
    end.

Definition set_revoked (now : Z) (user : string) (r : api_key_row) : api_key_row :=
  {| id := id r; user_id := user_id r; tenant_id := tenant_id r;
     project_id := project_id r; name := name r; key_prefix := key_prefix r;
     key_hash := key_hash r; scopes := scopes r; expires_at := expires_at r;
     is_active := false; revoked_at := Some now;
     revoked_by := Some user; last_used_at := last_used_at r;
     created_at := created_at r |}.

(** [revoke_api_key] *)
Definition revoke_api_key (key_id : nat) (user : string) (now : Z) (d : db)
    : db * (exn + bool) :=
  let is_owner :=
    (λ r, bool_decide (user_id r = user))
      <$> head (filter (λ r, id r = key_id) (lightrag_api_keys d)) in
  if negb (default false is_owner) then
    (d, inl (PermissionError "You don't own this API key"))
  else
    (with_api_keys
       ((λ r, if decide (id r = key_id) then set_revoked now user r else r)
          <$> lightrag_api_keys d) d,
     inr true).

(** [delete_api_key] *)
Definition delete_api_key (key_id : nat) (user : string) (d : db)
    : db * (exn + bool) :=
  let is_owner :=
    (λ r, bool_decide (user_id r = user))
      <$> head (filter (λ r, id r = key_id) (lightrag_api_keys d)) in
  if negb (default false is_owner) then
    (d, inl (PermissionError "You don't own this API key"))
  else
    (with_api_keys (filter (λ r, id r ≠ key_id) (lightrag_api_keys d)) d, inr true).

(** [auth_models.APIKeyResponse]: a key without the key itself. *)
Record APIKeyResponse := {
  l_id : nat;
  l_name : string;
  l_key_prefix : string;
  l_project_id : string;
  l_tenant_id : string;
  l_scopes : list string;
  l_is_active : bool;
  l_last_used_at : option Z;
  l_expires_at : option Z;
  l_created_at : Z
}.

(** [ORDER BY created_at DESC] *)
Definition newer (r1 r2 : api_key_row) : Prop := created_at r2 ≤ created_at r1.

#[global] Instance newer_dec r1 r2 : Decision (newer r1 r2).
Proof. unfold newer. apply _. Defined.

(** [list_user_api_keys]; a [project_id] that is [None] or empty selects the
    query without the project. Rows created at the same time come in the
    order of the table. *)
Definition list_user_api_keys (user : string) (project : option string) (d : db)
    : list APIKeyResponse :=
  let rows :=
    match project with
    | Some p =>
        if decide (p = "") then
          filter (λ r, user_id r = user) (lightrag_api_keys d)
        else
          filter (λ r, user_id r = user ∧ project_id r = p) (lightrag_api_keys d)
    | None => filter (λ r, user_id r = user) (lightrag_api_keys d)
    end in
  (λ row,
     {| l_id := id row; l_name := name row; l_key_prefix := key_prefix row;
        l_project_id := project_id row; l_tenant_id := tenant_id row;
        l_scopes := loads (scopes row); l_is_active := is_active row;
        l_last_used_at := last_used_at row; l_expires_at := expires_at row;
        l_created_at := created_at row |})
    <$> merge_sort newer rows.

(** The keys that [list_user_api_keys] is asked for. *)
Definition asked_for (user : string) (project : option string) (r : api_key_row)
    : Prop :=
  user_id r = user ∧
  match project with
  | Some p => p = "" ∨ project_id r = p
  | None => True
  end.

#[global] Instance asked_for_dec user project r : Decision (asked_for user project r).
Proof. unfold asked_for. destruct project; apply _. Defined.

(** The row that a successful [create_api_key] inserts. *)
Definition created_row (user project name_ : string) (scopes_ : list APIKeyScope)
    (expires : option Z) (random_part salt : string) (now : Z) (tenant : string)
    (d : db) : api_key_row :=
  {| id := new_id (lightrag_api_keys d); user_id := user; tenant_id := tenant;
     project_id := project; name := name_;
     key_prefix := String.substring 0 12 ("lrag_" +:+ random_part) +:+ "...";
     key_hash := hashpw ("lrag_" +:+ random_part) salt;
     scopes := dumps (value <$> scopes_); expires_at := expires;
     is_active := default_is_active; revoked_at := None; revoked_by := None;
     last_used_at := None; created_at := now |}.

(** The key is one the table has no usable record for: each row whose hash
    accepts it is revoked or has run out. *)
Definition revoked_or_expired (key : string) (now : Z) (d : db) : Prop :=
  ∀ r, r ∈ lightrag_api_keys d → verify_api_key key (key_hash r) = true →
       ¬ usable now r.

End Service.

(** A table with two keys, of two users. *)
Definition two_keys : db :=
  {| lightrag_api_keys :=
       [{| id := 1; user_id := "bob"; tenant_id := "acme"; project_id := "proj1";
           name := "old"; key_prefix := "lrag_0000000..."; key_hash := "salt$lrag_0000";
           scopes := "admin"; expires_at := None; is_active := true;
           revoked_at := None; revoked_by := None; last_used_at := None;
           created_at := 0 |};
        {| id := 2; user_id := "alice"; tenant_id := "acme"; project_id := "proj1";
           name := "new"; key_prefix := "lrag_1111111..."; key_hash := "salt$lrag_1111";
           scopes := "query"; expires_at := None; is_active := true;
           revoked_at := None; revoked_by := None; last_used_at := None;
           created_at := 1 |}];
     lightrag_projects := [{| p_id := "proj1"; p_tenant_id := "acme" |}];
     lightrag_project_members :=
       [{| pm_project_id := "proj1"; pm_user_id := "alice" |};
        {| pm_project_id := "proj1"; pm_user_id := "bob" |}] |}.

(** Stand-ins for the libraries, and a table with one key, to run the
    service on. *)
Definition sample_hashpw (key salt : string) : string := salt +:+ "$" +:+ key.

Definition sample_checkpw (key key_hash : string) : bool :=
  bool_decide (key_hash = "salt$" +:+ key).

Definition sample_dumps (values : list string) : string := String.concat "," values.

Definition sample_loads (text : string) : list string := [text].

Definition sample_db : db :=
  {| lightrag_api_keys :=
       [{| id := 1; user_id := "bob"; tenant_id := "acme"; project_id := "proj1";
           name := "old"; key_prefix := "lrag_0000000..."; key_hash := "salt$lrag_0000";
           scopes := "admin"; expires_at := None; is_active := true;
           revoked_at := None; revoked_by := None; last_used_at := None;
           created_at := 0 |}];
     lightrag_projects := [{| p_id := "proj1"; p_tenant_id := "acme" |}];
     lightrag_project_members :=
       [{| pm_project_id := "proj1"; pm_user_id := "alice" |};
        {| pm_project_id := "proj1"; pm_user_id := "bob" |}] |}.

(** *** Creating, validating and revoking a key *)

Lemma id_lt_new_id rows r : r ∈ rows → (id r < new_id rows)%nat.
Proof.
  unfold new_id. induction rows as [|r' rows IH]; intros Hin.
  - by apply elem_of_nil in Hin.
  - rewrite fmap_cons. cbn [foldr].
    apply elem_of_cons in Hin as [->|Hin]; [lia|].
    apply IH in Hin. lia.
Qed.

Lemma select_new_row rows row :
  id row = new_id rows →
  head (filter (λ r, id r = new_id rows) (rows ++ [row])) = Some row.
Proof.
  intros Hid. rewrite filter_app, filter_none.
  - simpl. rewrite filter_cons, decide_True by done. done.
  - intros r Hr Heq. apply id_lt_new_id in Hr. lia.
Qed.

Section Service.
Context (hashpw : string → string → string) (checkpw : string → string → bool).
Context (dumps : list string → string) (loads : string → list string).

Local Abbreviation create_api_key := (create_api_key hashpw dumps loads).
Local Abbreviation validate_api_key := (validate_api_key checkpw loads).
Local Abbreviation revoked_or_expired := (revoked_or_expired checkpw).
Local Abbreviation created_row := (created_row hashpw dumps).

Lemma create_api_key_inv user project name_ scopes_ expires random_part salt now d d1 resp :
  create_api_key user project name_ scopes_ expires random_part salt now d
  = (d1, inr resp) →
  ∃ tenant,
    let row := created_row user project name_ scopes_ expires random_part salt now tenant d in
    d1 = with_api_keys (lightrag_api_keys d ++ [row]) d ∧
    r_key resp = "lrag_" +:+ random_part ∧
    r_id resp = id row ∧
    r_tenant_id resp = tenant ∧
    r_project_id resp = project ∧
    r_scopes resp = loads (dumps (value <$> scopes_)).
Proof.
  unfold create_api_key.
  destruct (head (filter _ (lightrag_projects d))) as [p|]; [|done].
  destruct (negb _); [done|]. simpl.
  rewrite (select_new_row _ (created_row user project name_ scopes_ expires
                               random_part salt now (p_tenant_id p) d)) by done.
  intros [= <- <-]. by exists (p_tenant_id p).
Qed.

Lemma validate_none key t1 t2 d :
  revoked_or_expired key t1 d → validate_api_key key t1 t2 d = (d, None).
Proof.
  intros Hre. unfold validate_api_key. destruct (negb _); [done|].
  rewrite filter_none; [done|].
  intros r Hr Hv. apply list_elem_of_filter in Hr as [Hu Hr]. by eapply Hre.
Qed.

Lemma prefix_lrag random_part : String.prefix "lrag_" ("lrag_" +:+ random_part) = true.
Proof. simpl. by destruct random_part. Qed.

Lemma usable_created_row user project name_ scopes_ expires random_part salt now tenant d t :
  usable t (created_row user project name_ scopes_ expires random_part salt now tenant d)
  ↔ match expires with None => True | Some e => e > t end.
Proof. unfold usable. simpl. tauto. Qed.

(** *** The claim about the round trip *)


(** *** Using, revoking and deleting keys *)

(** The row that accepts the key: the first usable row whose hash accepts
    it. *)
Definition accepting (key : string) (now : Z) (r : api_key_row) : Prop :=
  usable now r ∧ verify_api_key checkpw key (key_hash r) = true.

#[local] Instance accepting_dec key now r : Decision (accepting key now r).
Proof. unfold accepting. apply _. Defined.

Lemma validate_api_key_accepting key t1 t2 d :
  validate_api_key key t1 t2 d
  = if negb (String.prefix "lrag_" key) then (d, None)
    else match head (filter (accepting key t1) (lightrag_api_keys d)) with
         | Some row =>
             (with_api_keys
                ((λ r, if decide (id r = id row) then set_last_used t2 r else r)
                   <$> lightrag_api_keys d) d,
              Some {| c_key_id := id row; c_user_id := user_id row;
                      c_tenant_id := tenant_id row; c_project_id := project_id row;
                      c_scopes := loads (scopes row) |})
         | None => (d, None)
         end.
Proof.
  unfold APIKeyService.validate_api_key. destruct (negb _); [done|].
  rewrite list_filter_filter.
  assert (filter (λ x, verify_api_key checkpw key (key_hash x) = true ∧ usable t1 x)
            (lightrag_api_keys d)
          = filter (accepting key t1) (lightrag_api_keys d)) as ->; [|done].
  apply list_filter_iff. intros r. unfold accepting. tauto.
Qed.

(** A validation that accepts a key writes [last_used_at] of the accepting
    row and nothing else: the key was one of a usable row whose hash accepts
    it, the context is that of the row, the rows with the id of that row get
    the time of the call as [last_used_at] and keep every other column, the
    other rows and tables are as they were, and the outcome of every
    validation, of this key or another, at any time, is the same after the
    write as before. *)
Theorem validate_api_key_only_records_the_use key t1 t2 d d' context :
  validate_api_key key t1 t2 d = (d', Some context) →
  String.prefix "lrag_" key = true ∧
  (∃ row, row ∈ lightrag_api_keys d ∧ usable t1 row ∧
          checkpw key (key_hash row) = true ∧
          context = {| c_key_id := id row; c_user_id := user_id row;
                       c_tenant_id := tenant_id row;
                       c_project_id := project_id row;
                       c_scopes := loads (scopes row) |}) ∧
  lightrag_api_keys d'
  = (λ r, if decide (id r = c_key_id context)
          then {| id := id r; user_id := user_id r; tenant_id := tenant_id r;
                  project_id := project_id r; name := name r;
                  key_prefix := key_prefix r; key_hash := key_hash r;
                  scopes := scopes r; expires_at := expires_at r;
                  is_active := is_active r; revoked_at := revoked_at r;
                  revoked_by := revoked_by r; last_used_at := Some t2;
                  created_at := created_at r |}
          else r)
      <$> lightrag_api_keys d ∧
  (∃ row', row' ∈ lightrag_api_keys d' ∧ id row' = c_key_id context ∧
           last_used_at row' = Some t2) ∧
  lightrag_projects d' = lightrag_projects d ∧
  lightrag_project_members d' = lightrag_project_members d ∧
  (∀ key' t t', (validate_api_key key' t t' d').2 = (validate_api_key key' t t' d).2).
Proof.
  rewrite validate_api_key_accepting.
  destruct (String.prefix "lrag_" key); [|done]. cbn [negb].
  destruct (head (filter (accepting key t1) (lightrag_api_keys d))) as [row|] eqn:Hh;
    [|done].
  intros [= <- <-]. apply head_filter_Some in Hh as [Hrow [Hu Hv]].
  split_and!; [done|by exists row|done| |done..|].
  { exists (set_last_used t2 row). split_and!; [|reflexivity..].
    cbn [with_api_keys lightrag_api_keys]. apply list_elem_of_fmap.
    exists row. split; [|done]. by rewrite decide_True. }
  intros key' t t'. rewrite !validate_api_key_accepting.
  destruct (negb _); [done|]. cbn [with_api_keys lightrag_api_keys c_key_id].
  rewrite head_filter_fmap by (intros x; case_decide; done).
  destruct (head (filter (accepting key' t) (lightrag_api_keys d))) as [r|]; [|done].
  cbn [fmap option_fmap option_map snd]. by case_decide.
Qed.

(** Revoking or deleting a key leaves every other key as valid as it was:
    a key that was accepted by a row with another id is still accepted, with
    the same context. *)
Theorem revoking_a_key_spares_the_others key_id user now d key t1 t2 context :
  (validate_api_key key t1 t2 d).2 = Some context →
  c_key_id context ≠ key_id →
  (validate_api_key key t1 t2 (revoke_api_key key_id user now d).1).2 = Some context ∧
  (validate_api_key key t1 t2 (delete_api_key key_id user d).1).2 = Some context.
Proof.
  rewrite !validate_api_key_accepting.
  destruct (negb _); [done|].
  destruct (head (filter (accepting key t1) (lightrag_api_keys d))) as [row|] eqn:Hh;
    [|done].
  cbn [snd]. intros [= <-]. cbn [c_key_id]. intros Hne. split.
  - unfold revoke_api_key. destruct (negb _); cbn [fst]; [by rewrite Hh|].
    cbn [with_api_keys lightrag_api_keys].
    rewrite (head_filter_spared _ _ _ row); [done| |by rewrite decide_False|done].
    intros r. case_decide; [right|by left]. by intros [[? _] _].
  - unfold delete_api_key. destruct (negb _); cbn [fst]; [by rewrite Hh|].
    cbn [with_api_keys lightrag_api_keys].
    by rewrite (head_filter_sub _ _ _ row).
Qed.

(** [delete_api_key] is for the owner of the key: it succeeds exactly when
    the first row with the id is a key of the caller; for a key of another
    user, or an id that no key has, it raises [PermissionError] and changes
    nothing. When it succeeds, the rows with the id are gone and the others
    are left: no key validates to that id any more, and a second
    [delete_api_key] or a [revoke_api_key] for the id raises
    [PermissionError]. *)
Theorem delete_api_key_removes_the_key key_id user d :
  let result := delete_api_key key_id user d in
  let found := head (filter (λ r, id r = key_id) (lightrag_api_keys d)) in
  (∀ row, found = Some row → user_id row ≠ user →
     result = (d, inl (PermissionError "You don't own this API key"))) ∧
  (found = None →
     result = (d, inl (PermissionError "You don't own this API key"))) ∧
  (∀ row, found = Some row → user_id row = user → result.2 = inr true) ∧
  (result.2 = inr true →
   lightrag_api_keys result.1 = filter (λ r, id r ≠ key_id) (lightrag_api_keys d) ∧
   (∀ key t1 t2 context,
      (validate_api_key key t1 t2 result.1).2 = Some context →
      c_key_id context ≠ key_id) ∧
   (∀ user2,
      delete_api_key key_id user2 result.1
      = (result.1, inl (PermissionError "You don't own this API key"))) ∧
   (∀ user2 now,
      revoke_api_key key_id user2 now result.1
      = (result.1, inl (PermissionError "You don't own this API key")))) ∧
  (result.2 ≠ inr true →
   result = (d, inl (PermissionError "You don't own this API key")) ∧
   ∀ row, found = Some row → user_id row ≠ user).
Proof.
  cbv zeta. destruct (delete_api_key key_id user d) as [d' res] eqn:Hres.
  cbn [fst snd]. unfold delete_api_key in Hres.
  destruct (head (filter (λ r, id r = key_id) (lightrag_api_keys d))) as [row|] eqn:Hh;
    cbn [fmap option_fmap option_map default negb] in Hres.
  2: { injection Hres as <- <-. split_and!; try done.
       all: intros _; split; [done|]; by intros row. }
  case_bool_decide as Howner; cbn [negb] in Hres; injection Hres as <- <-.
  2: { split_and!; try done.
       all: try (intros row' [= <-]; done).
       all: intros _; split; [done|]; by intros row' [= <-]. }
  split_and!; try done.
  all: try (intros row' [= <-] Hn; by destruct Hn).
  intros _.
  assert (head (filter (λ r, id r = key_id)
                  (filter (λ r, id r ≠ key_id) (lightrag_api_keys d))) = None) as Hgone.
  { apply (proj2 (head_filter_None _ _)). intros r Hr Hid.
    apply list_elem_of_filter in Hr as [Hn _]. by apply Hn. }
  split_and!; [done| | |].
  - intros key t1 t2 context. rewrite validate_api_key_accepting.
    destruct (negb _); [done|]. cbn [with_api_keys lightrag_api_keys].
    destruct (head (filter (accepting key t1) _)) as [r|] eqn:Hr; [|done].
    apply head_filter_Some in Hr as [Hr _].
    apply list_elem_of_filter in Hr as [Hid _]. by intros [= <-].
  - intros user2. unfold delete_api_key. cbn [with_api_keys lightrag_api_keys].
    by rewrite Hgone.
  - intros user2 now. unfold revoke_api_key. cbn [with_api_keys lightrag_api_keys].
    by rewrite Hgone.
Qed.

(** [list_user_api_keys] shows each key of the user once (of the project,
    when a non-empty project is given), the newest first, and no key of
    another user; an entry has the prefix and the scopes of its row, and no
    field for the key or its hash. *)
Theorem list_user_api_keys_shows_the_keys_of_the_user user project d :
  let listed := list_user_api_keys loads user project d in
  l_id <$> listed ≡ₚ id <$> filter (asked_for user project) (lightrag_api_keys d) ∧
  StronglySorted (λ x y, l_created_at y ≤ l_created_at x) listed ∧
  (∀ x, x ∈ listed →
     ∃ row, row ∈ lightrag_api_keys d ∧ user_id row = user ∧ l_id x = id row ∧
            l_key_prefix x = key_prefix row ∧ l_scopes x = loads (scopes row) ∧
            l_project_id x = project_id row).
Proof.
  cbv zeta. unfold list_user_api_keys.
  set (rows := match project with
               | Some p => if decide (p = "") then _ else _
               | None => _
               end).
  assert (rows = filter (asked_for user project) (lightrag_api_keys d)) as Hrows.
  { unfold rows, asked_for. destruct project as [p|]; [destruct (decide (p = ""))|];
      apply list_filter_iff; intros r; tauto. }
  assert (Total newer) as Htotal by (intros r1 r2; unfold newer; lia).
  assert (Transitive newer) as Htrans by (intros r1 r2 r3; unfold newer; lia).
  split_and!.
  - rewrite <- list_fmap_compose, <- Hrows.
    apply fmap_Permutation, merge_sort_Permutation.
  - pose proof (StronglySorted_merge_sort newer rows) as Hs.
    induction Hs as [|r l Hl IH Hall]; [constructor|].
    rewrite fmap_cons. constructor; [done|].
    rewrite Forall_fmap. eapply Forall_impl; [done|]. by intros r'.
  - intros x Hx. apply list_elem_of_fmap in Hx as (row & -> & Hrow).
    rewrite merge_sort_Permutation, Hrows in Hrow.
    apply list_elem_of_filter in Hrow as [[Hu _] Hrow]. by exists row.
Qed.

End Service.


Lemma validate_api_key_only_records_the_use_witness :
  ∃ row,
    row ∈ lightrag_api_keys sample_db ∧ usable 1 row ∧
    sample_checkpw "lrag_0000" (key_hash row) = true ∧
    id row = 1%nat.
Proof.
  destruct (validate_api_key_only_records_the_use sample_hashpw sample_checkpw
              sample_dumps sample_loads "lrag_0000" 1 2 sample_db _ _ eq_refl)
    as (_ & (row & Hrow & Hu & Hv & Hc) & _).
  exists row. split_and!; [done..|]. by injection Hc.
Defined.

(** Alice revokes her key; the key of Bob is accepted as before, and the
    revoked one no longer. *)
Lemma revoking_a_key_spares_the_others_witness :
  (validate_api_key sample_checkpw sample_loads "lrag_0000" 1 2
     (revoke_api_key 2 "alice" 1 two_keys).1).2
  = Some {| c_key_id := 1; c_user_id := "bob"; c_tenant_id := "acme";
            c_project_id := "proj1"; c_scopes := ["admin"] |} ∧
  (revoke_api_key 2 "alice" 1 two_keys).2 = inr true ∧
  (validate_api_key sample_checkpw sample_loads "lrag_1111" 1 2
     (revoke_api_key 2 "alice" 1 two_keys).1).2 = None.
Proof.
  split; [|split; reflexivity].
  apply (revoking_a_key_spares_the_others sample_hashpw sample_checkpw sample_dumps
           sample_loads 2 "alice" 1 two_keys "lrag_0000" 1 2); [reflexivity|discriminate].
Defined.

End APIKeyService.

(** ** Sessions ([lightrag/api/services/auth_service.py],
       [lightrag/api/routers/auth_routes.py]) *)

Module AuthService.

(** A claim of a token payload. *)
Inductive claim := Str (s : string) | Num (n : Z).

#[global] Instance claim_eq_dec : EqDecision claim.
Proof. solve_decision. Defined.

Definition payload : Type := list (string * claim).

(** What the calls of this module can raise. [ExpiredSignatureError] is a
    subclass of [InvalidTokenError]; [InvalidTokenError cls] stands for
    [jwt.InvalidTokenError] and its other subclasses ([DecodeError],
    [InvalidSignatureError], ...), [Exception cls] for an exception of any
    other class. *)
Inductive exn :=
| ExpiredSignatureError
| InvalidTokenError (cls : string)
| Exception (cls : string).

Definition is_InvalidTokenError (e : exn) : bool :=
  match e with
  | ExpiredSignatureError | InvalidTokenError _ => true
  | Exception _ => false
  end.

(** The columns of [lightrag_users] and [lightrag_refresh_tokens] that the
    statements name. *)
Record user_row := {
  u_id : string;
  u_email : string;
  u_name : string;
  u_phone : option string;
  u_is_active : bool;
  u_is_verified : bool;
  u_created_at : Z;
  u_last_login_at : option Z;
  u_password_reset_token : option string;
  u_password_reset_expires_at : option Z
}.

Record refresh_token_row := {
  rt_id : nat;
  rt_user_id : string;
  rt_token : string;
  rt_expires_at : Z;
  rt_revoked_at : option Z;
  rt_replaced_by : option nat
}.

Record db := {
  lightrag_users : list user_row;
  lightrag_refresh_tokens : list refresh_token_row
}.

Record UserResponse := {
  id : string;
  email : string;
  name : string;
  phone : option string;
  is_active : bool;
  is_verified : bool;
  created_at : Z;
  last_login_at : option Z
}.

Record AuthTokenResponse := {
  access_token : string;
  refresh_token : string;
  token_type : string;
  expires_in : Z;
  user : UserResponse
}.

(** The [AuthService] object. *)
Record service := {
  secret_key : string;
  access_token_expire_minutes : Z;
  refresh_token_expire_days : Z
}.

Definition minutes (n : Z) : Z := n * 60000000.
Definition hours (n : Z) : Z := n * 3600000000.
Definition days (n : Z) : Z := n * 86400000000.

(** Modelled from the spec: the id that [INSERT ... RETURNING id] gives a new
    row is chosen by the database; the schema is not part of the sources. Any
    id that no row has will do, here the successor of the largest. *)
Definition new_id (rows : list refresh_token_row) : nat :=
  S (foldr Nat.max 0%nat (rt_id <$> rows)).

Section Tokens.
(** [jwt.encode] and [jwt.decode] of the PyJWT library, with the key and the
    algorithm HS256. *)
Context (jwt_encode : payload → string → string).
Context (jwt_decode : string → string → exn + payload).
Context (self : service).

(** [create_access_token]; the two times are the two readings of
    [datetime.utcnow()]. *)
Definition create_access_token (user_id email : string) (now now' : Z) : string :=
  let expires := now + minutes (access_token_expire_minutes self) in
  jwt_encode
    [("sub", Str user_id); ("email", Str email); ("exp", Num expires);
     ("iat", Num now'); ("type", Str "access")]
    (secret_key self).

(** [decode_access_token]: the two [except] clauses, in their order; an
    exception of another class goes to the caller. *)
Definition decode_access_token (token : string) : exn + option payload :=
  match jwt_decode token (secret_key self) with
  | inr p =>
      if decide (dict_get "type" p ≠ Some (Str "access")) then inr None
      else inr (Some p)
  | inl ExpiredSignatureError => inr None
  | inl (InvalidTokenError _) => inr None
  | inl (Exception cls) => inl (Exception cls)
  end.

(** The clock readings of one [refresh_access_token], in the order of its
    calls of [datetime.utcnow()]. *)
Record clock := {
  at_query : Z;
  at_access_exp : Z;
  at_access_iat : Z;
  at_refresh_exp : Z;
  at_revoke : Z
}.

(** [WHERE rt.token = $1 AND rt.expires_at > $2 AND rt.revoked_at IS NULL] *)
Definition presentable (token : string) (now : Z) (rt : refresh_token_row) : Prop :=
  rt_token rt = token ∧ rt_expires_at rt > now ∧ rt_revoked_at rt = None.

#[global] Instance presentable_dec token now rt : Decision (presentable token now rt).
Proof. unfold presentable. apply _. Defined.

(** The row that [fetchrow] returns for the query of [refresh_access_token]. *)
Definition select_refresh_token (token : string) (now : Z) (d : db)
    : option (refresh_token_row * user_row) :=
  head (rt ← filter (presentable token now) (lightrag_refresh_tokens d);
        u ← filter (λ u, u_id u = rt_user_id rt) (lightrag_users d);
        [(rt, u)]).

Definition with_refresh_tokens (rows : list refresh_token_row) (d : db) : db :=
  {| lightrag_users := lightrag_users d; lightrag_refresh_tokens := rows |}.

Definition revoke (now : Z) (successor : option nat) (rt : refresh_token_row)
    : refresh_token_row :=
  {| rt_id := rt_id rt; rt_user_id := rt_user_id rt; rt_token := rt_token rt;
     rt_expires_at := rt_expires_at rt; rt_revoked_at := Some now;
     rt_replaced_by := successor |}.

(** [refresh_access_token]; [new_refresh_token] is what
    [create_refresh_token] drew. *)
Definition refresh_access_token (token : string) (t : clock)
    (new_refresh_token : string) (d : db) : db * option AuthTokenResponse :=
  match select_refresh_token token (at_query t) d with
  | None => (d, None)
  | Some (row, u) =>
      let access_token_ :=
        create_access_token (rt_user_id row) (u_email u)
          (at_access_exp t) (at_access_iat t) in
      let refresh_expires := at_refresh_exp t + days (refresh_token_expire_days self) in
      let new_token_id := new_id (lightrag_refresh_tokens d) in
      let inserted :=
        lightrag_refresh_tokens d ++
        [{| rt_id := new_token_id; rt_user_id := rt_user_id row;
            rt_token := new_refresh_token; rt_expires_at := refresh_expires;
            rt_revoked_at := None; rt_replaced_by := None |}] in
      let updated :=
        (λ r, if decide (rt_id r = rt_id row)
              then revoke (at_revoke t) (Some new_token_id) r else r) <$> inserted in
      (with_refresh_tokens updated d,
       Some {| access_token := access_token_;
               refresh_token := new_refresh_token;
               token_type := "bearer";
               expires_in := access_token_expire_minutes self * 60;
               user := {| id := rt_user_id row; email := u_email u; name := u_name u;
                          phone := u_phone u; is_active := u_is_active u;
                          is_verified := u_is_verified u;
                          created_at := u_created_at u;
                          last_login_at := u_last_login_at u |} |})
  end.

(** [logout] *)
Definition logout (token : string) (now : Z) (d : db) : db :=
  with_refresh_tokens
    ((λ r, if decide (rt_token r = token)
           then revoke now (rt_replaced_by r) r else r)
       <$> lightrag_refresh_tokens d) d.

(** *** Refreshes that run at the same time

    [refresh_access_token] takes no lock and awaits the database three times:
    for the query, for the [INSERT] and for the [UPDATE]. Between two awaits a
    coroutine runs alone; at an await another coroutine can run. A call is at
    its query, at its [INSERT], at its [UPDATE], or has returned. *)
Inductive refresh_task :=
| AtQuery (token : string) (t : clock) (new_refresh_token : string)
| AtInsert (row : refresh_token_row) (u : user_row) (t : clock)
    (new_refresh_token : string)
| AtUpdate (row : refresh_token_row) (u : user_row) (t : clock)
    (new_refresh_token : string) (new_token_id : nat)
| Finished (r : option AuthTokenResponse).

(** One statement of the call. *)
Definition refresh_step (task : refresh_task) (d : db) : db * refresh_task :=
  match task with
  | AtQuery token t new_refresh_token =>
      match select_refresh_token token (at_query t) d with
      | None => (d, Finished None)
      | Some (row, u) => (d, AtInsert row u t new_refresh_token)
      end
  | AtInsert row u t new_refresh_token =>
      let refresh_expires := at_refresh_exp t + days (refresh_token_expire_days self) in
      let new_token_id := new_id (lightrag_refresh_tokens d) in
      (with_refresh_tokens
         (lightrag_refresh_tokens d ++
          [{| rt_id := new_token_id; rt_user_id := rt_user_id row;
              rt_token := new_refresh_token; rt_expires_at := refresh_expires;
              rt_revoked_at := None; rt_replaced_by := None |}]) d,
       AtUpdate row u t new_refresh_token new_token_id)
  | AtUpdate row u t new_refresh_token new_token_id =>
      (with_refresh_tokens
         ((λ r, if decide (rt_id r = rt_id row)
                then revoke (at_revoke t) (Some new_token_id) r else r)
            <$> lightrag_refresh_tokens d) d,
       Finished
         (Some {| access_token :=
                    create_access_token (rt_user_id row) (u_email u)
                      (at_access_exp t) (at_access_iat t);
                  refresh_token := new_refresh_token;
                  token_type := "bearer";
                  expires_in := access_token_expire_minutes self * 60;
                  user := {| id := rt_user_id row; email := u_email u;
                             name := u_name u; phone := u_phone u;
                             is_active := u_is_active u;
                             is_verified := u_is_verified u;
                             created_at := u_created_at u;
                             last_login_at := u_last_login_at u |} |}))
  | Finished r => (d, Finished r)
  end.

(** Two calls, run as the schedule says: [false] lets the first call run
    its next statement, [true] the second. *)
Fixpoint run_refreshes (schedule : list bool) (a b : refresh_task) (d : db)
    : db * refresh_task * refresh_task :=
  match schedule with
  | [] => (d, a, b)
  | false :: schedule' =>
      let (d', a') := refresh_step a d in run_refreshes schedule' a' b d'
  | true :: schedule' =>
      let (d', b') := refresh_step b d in run_refreshes schedule' a b' d'
  end.

End Tokens.

(** *** Password reset *)

Definition set_reset_token (token : string) (expires : Z) (u : user_row) : user_row :=
  {| u_id := u_id u; u_email := u_email u; u_name := u_name u; u_phone := u_phone u;
     u_is_active := u_is_active u; u_is_verified := u_is_verified u;
     u_created_at := u_created_at u; u_last_login_at := u_last_login_at u;
     u_password_reset_token := Some token;
     u_password_reset_expires_at := Some expires |}.

(** What the outside gives one reset request: the token that
    [secrets.token_urlsafe(32)] draws, the clock, and the database errors, if
    any, of the query and of the update. *)
Record reset_env := {
  drawn_token : string;
  now : Z;
  fetchval_raises : option exn;
  execute_raises : option exn
}.

(** [AuthService.request_password_reset] *)
Definition request_password_reset (email_ : string) (env : reset_env) (d : db)
    : db * (exn + option string) :=
  match fetchval_raises env with
  | Some e => (d, inl e)
  | None =>
      match head (filter (λ u, u_email u = email_ ∧ u_is_active u = true)
                    (lightrag_users d)) with
      | None => (d, inr None)
      | Some u =>
          if decide (u_id u = "") then (d, inr None)
          else
            let reset_token := drawn_token env in
            let reset_expires := now env + hours 2 in
            match execute_raises env with
            | Some e => (d, inl e)
            | None =>
                ({| lightrag_users :=
                      (λ r, if decide (u_id r = u_id u)
                            then set_reset_token reset_token reset_expires r else r)
                        <$> lightrag_users d;
                    lightrag_refresh_tokens := lightrag_refresh_tokens d |},
                 inr (Some reset_token))
            end
      end
  end.

(** What the route writes with [logger]. *)
Inductive log_line :=
| Info (msg : string) (email_ : string) (token : string)
| Error (msg : string).

(** The body of the HTTP answer, with its status. *)
Record http_response := {
  status_code : Z;
  body : list (string * string)
}.

(** The route [POST /auth/password-reset/request]: the answer, what is
    logged, and the database it leaves. *)
Definition request_password_reset_route (email_ : string) (env : reset_env) (d : db)
    : http_response * list log_line * db :=
  match request_password_reset email_ env d with
  | (d', inr token) =>
      let logged :=
        match token with
        | Some tok => if decide (tok = "") then []
                      else [Info "Password reset requested for" email_ tok]
        | None => []
        end in
      ({| status_code := 200;
          body := [("message",
                    "If the email exists, a password reset link has been sent")] |},
       logged, d')
  | (d', inl e) =>
      ({| status_code := 200;
          body := [("message",
                    "If the email exists, a password reset link has been sent")] |},
       [Error "Password reset request error"], d')
  end.

(** *** Accounts: registration, login, verification and reset *)

(** The [ValueError] that the account operations raise. *)
Inductive value_error := ValueError (msg : string).

(** A row of [lightrag_users] with the columns of registration and login
    beside those above. *)
Record account_row := {
  a_user : user_row;
  a_password_hash : string;
  a_email_verification_token : option string;
  a_email_verification_expires_at : option Z
}.

Record tables := {
  accounts : list account_row;
  refresh_tokens : list refresh_token_row
}.

(** The tables as the token operations above read them. *)
Definition sessions (d : tables) : db :=
  {| lightrag_users := a_user <$> accounts d;
     lightrag_refresh_tokens := refresh_tokens d |}.

Definition with_accounts (rows : list account_row) (d : tables) : tables :=
  {| accounts := rows; refresh_tokens := refresh_tokens d |}.

Definition with_tokens (rows : list refresh_token_row) (d : tables) : tables :=
  {| accounts := accounts d; refresh_tokens := rows |}.

Definition on_user (f : user_row → user_row) (a : account_row) : account_row :=
  {| a_user := f (a_user a); a_password_hash := a_password_hash a;
     a_email_verification_token := a_email_verification_token a;
     a_email_verification_expires_at := a_email_verification_expires_at a |}.

Definition set_last_login (t : Z) (u : user_row) : user_row :=
  {| u_id := u_id u; u_email := u_email u; u_name := u_name u; u_phone := u_phone u;
     u_is_active := u_is_active u; u_is_verified := u_is_verified u;
     u_created_at := u_created_at u; u_last_login_at := Some t;
     u_password_reset_token := u_password_reset_token u;
     u_password_reset_expires_at := u_password_reset_expires_at u |}.

Definition set_verified (u : user_row) : user_row :=
  {| u_id := u_id u; u_email := u_email u; u_name := u_name u; u_phone := u_phone u;
     u_is_active := u_is_active u; u_is_verified := true;
     u_created_at := u_created_at u; u_last_login_at := u_last_login_at u;
     u_password_reset_token := u_password_reset_token u;
     u_password_reset_expires_at := u_password_reset_expires_at u |}.

Definition clear_reset_token (u : user_row) : user_row :=
  {| u_id := u_id u; u_email := u_email u; u_name := u_name u; u_phone := u_phone u;
     u_is_active := u_is_active u; u_is_verified := u_is_verified u;
     u_created_at := u_created_at u; u_last_login_at := u_last_login_at u;
     u_password_reset_token := None;
     u_password_reset_expires_at := None |}.

Definition response_of (u : user_row) : UserResponse :=
  {| id := u_id u; email := u_email u; name := u_name u; phone := u_phone u;
     is_active := u_is_active u; is_verified := u_is_verified u;
     created_at := u_created_at u; last_login_at := u_last_login_at u |}.

(** [get_user_by_id] *)
Definition get_user_by_id (user_id : string) (d : tables)
    : value_error + UserResponse :=
  match head (filter (λ a, u_id (a_user a) = user_id) (accounts d)) with
  | None => inl (ValueError "User not found")
  | Some row => inr (response_of (a_user row))
  end.

(** What the outside gives one [register_user]: the salt of
    [bcrypt.gensalt()], the token of [secrets.token_urlsafe(32)], the clock,
    and in [re_defaults] what the database gives the columns that the
    [INSERT] leaves out (the id among them). *)
Record register_env := {
  re_salt : string;
  re_token : string;
  re_now : Z;
  re_defaults : user_row
}.

(** What the outside gives one [login_user]: the readings of the clock, in
    the order of the calls of [datetime.utcnow()], the refresh token that
    [create_refresh_token] draws and the id that the database gives its row. *)
Record login_env := {
  le_access_exp : Z;
  le_access_iat : Z;
  le_refresh_token : string;
  le_refresh_exp : Z;
  le_token_id : nat;
  le_last_login : Z;
  le_response_login : Z
}.

(** [WHERE email_verification_token = $1 AND email_verification_expires_at >
    $2 AND is_verified = false] *)
Definition verifiable (token : string) (now : Z) (a : account_row) : Prop :=
  a_email_verification_token a = Some token ∧
  match a_email_verification_expires_at a with
  | Some e => e > now
  | None => False
  end ∧
  u_is_verified (a_user a) = false.

#[global] Instance verifiable_dec token now a : Decision (verifiable token now a).
Proof. unfold verifiable. destruct (a_email_verification_expires_at a); apply _. Defined.

Definition set_email_verified (a : account_row) : account_row :=
  {| a_user := set_verified (a_user a); a_password_hash := a_password_hash a;
     a_email_verification_token := None;
     a_email_verification_expires_at := None |}.

(** [verify_email] *)
Definition verify_email (token : string) (now : Z) (d : tables) : tables * bool :=
  match head (filter (verifiable token now) (accounts d)) with
  | None => (d, false)
  | Some row =>
      (with_accounts
         ((λ a, if decide (u_id (a_user a) = u_id (a_user row))
                then set_email_verified a else a) <$> accounts d) d,
       true)
  end.

(** [WHERE password_reset_token = $1 AND password_reset_expires_at > $2] *)
Definition resettable (token : string) (now : Z) (a : account_row) : Prop :=
  u_password_reset_token (a_user a) = Some token ∧
  match u_password_reset_expires_at (a_user a) with
  | Some e => e > now
  | None => False
  end.

#[global] Instance resettable_dec token now a : Decision (resettable token now a).
Proof.
  unfold resettable. destruct (u_password_reset_expires_at (a_user a)); apply _.
Defined.

Section Accounts.
(** [bcrypt.hashpw] (with the salt that [bcrypt.gensalt] drew) and
    [bcrypt.checkpw], and [jwt.encode]. *)
Context (hashpw : string → string → string) (checkpw : string → string → bool).
Context (jwt_encode : payload → string → string).
Context (self : service).

(** [hash_password], from the salt. *)
Definition hash_password (password salt : string) : string := hashpw password salt.

Definition verify_password (password password_hash : string) : bool :=
  checkpw password password_hash.

(** [register_user] *)
Definition register_user (email_ password name_ : string) (phone_ : option string)
    (env : register_env) (d : tables)
    : tables * (value_error + UserResponse * string) :=
  match head (filter (λ a, u_email (a_user a) = email_) (accounts d)) with
  | Some _ => (d, inl (ValueError "Email already registered"))
  | None =>
      let password_hash := hash_password password (re_salt env) in
      let verification_token := re_token env in
      let verification_expires := re_now env + days 7 in
      let defaults := re_defaults env in
      let user_id := u_id defaults in
      let d' :=
        with_accounts
          (accounts d ++
           [{| a_user :=
                 {| u_id := user_id; u_email := email_; u_name := name_;
                    u_phone := phone_; u_is_active := u_is_active defaults;
                    u_is_verified := u_is_verified defaults;
                    u_created_at := u_created_at defaults;
                    u_last_login_at := u_last_login_at defaults;
                    u_password_reset_token := u_password_reset_token defaults;
                    u_password_reset_expires_at :=
                      u_password_reset_expires_at defaults |};
               a_password_hash := password_hash;
               a_email_verification_token := Some verification_token;
               a_email_verification_expires_at := Some verification_expires |}]) d in
      match get_user_by_id user_id d' with
      | inl e => (d', inl e)
      | inr user_ => (d', inr (user_, verification_token))
      end
  end.

(** [login_user] *)
Definition login_user (email_ password : string) (env : login_env) (d : tables)
    : tables * (value_error + AuthTokenResponse) :=
  match head (filter (λ a, u_email (a_user a) = email_) (accounts d)) with
  | None => (d, inl (ValueError "Invalid email or password"))
  | Some row =>
      if negb (verify_password password (a_password_hash row)) then
        (d, inl (ValueError "Invalid email or password"))
      else if negb (u_is_active (a_user row)) then
        (d, inl (ValueError "Account is inactive"))
      else
        let access_token_ :=
          create_access_token jwt_encode self (u_id (a_user row))
            (u_email (a_user row)) (le_access_exp env) (le_access_iat env) in
        let refresh_token_ := le_refresh_token env in
        let refresh_expires :=
          le_refresh_exp env + days (refresh_token_expire_days self) in
        let d1 :=
          with_tokens
            (refresh_tokens d ++
             [{| rt_id := le_token_id env; rt_user_id := u_id (a_user row);
                 rt_token := refresh_token_; rt_expires_at := refresh_expires;
                 rt_revoked_at := None; rt_replaced_by := None |}]) d in
        let d2 :=
          with_accounts
            ((λ a, if decide (u_id (a_user a) = u_id (a_user row))
                   then on_user (set_last_login (le_last_login env)) a else a)
               <$> accounts d1) d1 in
        (d2,
         inr {| access_token := access_token_;
                refresh_token := refresh_token_;
                token_type := "bearer";
                expires_in := access_token_expire_minutes self * 60;
                user := {| id := u_id (a_user row); email := u_email (a_user row);
                           name := u_name (a_user row);
                           phone := u_phone (a_user row);
                           is_active := u_is_active (a_user row);
                           is_verified := u_is_verified (a_user row);
                           created_at := u_created_at (a_user row);
                           last_login_at := Some (le_response_login env) |} |})
  end.

(** [reset_password]; [now] is the time of the query and [now'] the time
    written to the refresh tokens. *)
Definition reset_password (token new_password salt : string) (now now' : Z)
    (d : tables) : tables * bool :=
  match head (filter (resettable token now) (accounts d)) with
  | None => (d, false)
  | Some row =>
      let password_hash := hash_password new_password salt in
      let d1 :=
        with_accounts
          ((λ a, if decide (u_id (a_user a) = u_id (a_user row))
                 then {| a_user := clear_reset_token (a_user a);
                         a_password_hash := password_hash;
                         a_email_verification_token := a_email_verification_token a;
                         a_email_verification_expires_at :=
                           a_email_verification_expires_at a |}
                 else a) <$> accounts d) d in
      let d2 :=
        with_tokens
          ((λ rt, if decide (rt_user_id rt = u_id (a_user row))
                  then revoke now' (rt_replaced_by rt) rt else rt)
             <$> refresh_tokens d1) d1 in
      (d2, true)
  end.

End Accounts.

(** The refresh token is one the query of [refresh_access_token] finds:
    present, not expired, not revoked, and of a user that exists. *)
Definition valid_refresh_token (token : string) (now : Z) (d : db) : Prop :=
  ∃ rt u, rt ∈ lightrag_refresh_tokens d ∧ presentable token now rt ∧
          u ∈ lightrag_users d ∧ u_id u = rt_user_id rt.

(** Stand-ins and a small database to run the service on. *)
Definition sample_service : service :=
  {| secret_key := "secret"; access_token_expire_minutes := 60;
     refresh_token_expire_days := 30 |}.

Definition sample_encode (p : payload) (key : string) : string :=
  match dict_get "sub" p with
  | Some (Str sub) => "jwt." +:+ sub +:+ "." +:+ key
  | _ => "jwt.." +:+ key
  end.

Definition sample_decode (token key : string) : exn + payload :=
  if decide (token = "jwt.alice.secret") then
    inr [("sub", Str "alice"); ("type", Str "access")]
  else if decide (token = "jwt.old.secret") then inl ExpiredSignatureError
  else inl (InvalidTokenError "DecodeError").

Definition sample_db : db :=
  {| lightrag_users :=
       [{| u_id := "alice"; u_email := "alice@x.com"; u_name := "Alice";
           u_phone := None; u_is_active := true; u_is_verified := true;
           u_created_at := 0; u_last_login_at := None;
           u_password_reset_token := None;
           u_password_reset_expires_at := None |}];
     lightrag_refresh_tokens :=
       [{| rt_id := 1; rt_user_id := "alice"; rt_token := "r1";
           rt_expires_at := 1000; rt_revoked_at := None;
           rt_replaced_by := None |}] |}.

Definition sample_clock (t : Z) : clock :=
  {| at_query := t; at_access_exp := t; at_access_iat := t;
     at_refresh_exp := t; at_revoke := t |}.

(** A stand-in for bcrypt and a table with one account and one refresh
    token, to run the account operations on. *)
Definition sample_hashpw (password salt : string) : string :=
  salt +:+ "$" +:+ password.

Definition sample_checkpw (password password_hash : string) : bool :=
  bool_decide (password_hash = "salt$" +:+ password).

Definition sample_tables : tables :=
  {| accounts :=
       [{| a_user :=
             {| u_id := "alice"; u_email := "alice@x.com"; u_name := "Alice";
                u_phone := None; u_is_active := true; u_is_verified := true;
                u_created_at := 0; u_last_login_at := None;
                u_password_reset_token := None;
                u_password_reset_expires_at := None |};
           a_password_hash := "salt$pw";
           a_email_verification_token := None;
           a_email_verification_expires_at := None |}];
     refresh_tokens :=
       [{| rt_id := 1; rt_user_id := "alice"; rt_token := "r1";
           rt_expires_at := 1000; rt_revoked_at := None;
           rt_replaced_by := None |}] |}.

Definition sample_login_env : login_env :=
  {| le_access_exp := 5; le_access_iat := 5; le_refresh_token := "r2";
     le_refresh_exp := 5; le_token_id := 2; le_last_login := 5;
     le_response_login := 5 |}.

Definition sample_register_env : register_env :=
  {| re_salt := "salt"; re_token := "v1"; re_now := 5;
     re_defaults :=
       {| u_id := "bob"; u_email := ""; u_name := ""; u_phone := None;
          u_is_active := true; u_is_verified := false; u_created_at := 5;
          u_last_login_at := None; u_password_reset_token := None;
          u_password_reset_expires_at := None |} |}.

Definition sample_reset_env : reset_env :=
  {| drawn_token := "p1"; now := 5; fetchval_raises := None;
     execute_raises := None |}.

(** The tables after the sample login, the sample registration and the
    sample reset request. *)
Definition sample_logged_in : tables * (value_error + AuthTokenResponse) :=
  Eval vm_compute in
    login_user sample_checkpw sample_encode sample_service "alice@x.com" "pw"
      sample_login_env sample_tables.

Definition sample_registered : tables * (value_error + UserResponse * string) :=
  Eval vm_compute in
    register_user sample_hashpw "bob@x.com" "pw" "Bob" None sample_register_env
      sample_tables.

Definition sample_requested : tables :=
  with_accounts
    ((λ a, if decide (u_email (a_user a) = "alice@x.com")
           then on_user (set_reset_token "p1" (5 + hours 2)) a else a)
       <$> accounts sample_tables) sample_tables.

(** *** Refresh tokens *)

Lemma rt_id_lt_new_id rows r : r ∈ rows → (rt_id r < new_id rows)%nat.
Proof.
  unfold new_id. induction rows as [|r' rows IH]; intros Hin.
  - by apply elem_of_nil in Hin.
  - rewrite fmap_cons. cbn [foldr].
    apply elem_of_cons in Hin as [->|Hin]; [lia|].
    apply IH in Hin. lia.
Qed.

Lemma select_refresh_token_Some token now_ d row u :
  select_refresh_token token now_ d = Some (row, u) →
  row ∈ lightrag_refresh_tokens d ∧ presentable token now_ row ∧
  u ∈ lightrag_users d ∧ u_id u = rt_user_id row.
Proof.
  unfold select_refresh_token. intros Hh.
  assert ((row, u) ∈ (rt ← filter (presentable token now_) (lightrag_refresh_tokens d);
                      u ← filter (λ u, u_id u = rt_user_id rt) (lightrag_users d);
                      [(rt, u)])) as Hin.
  { destruct (_ ≫= _) as [|x l]; [done|]. injection Hh as ->. left. }
  apply list_elem_of_bind in Hin as (rt & Hin & Hrt).
  apply list_elem_of_bind in Hin as (u' & Hin & Hu).
  apply list_elem_of_singleton in Hin as [= -> ->].
  apply list_elem_of_filter in Hrt as [? ?].
  apply list_elem_of_filter in Hu as [? ?]. done.
Qed.

Lemma select_refresh_token_None token now_ d :
  select_refresh_token token now_ d = None ↔ ¬ valid_refresh_token token now_ d.
Proof.
  unfold select_refresh_token. rewrite head_None. split.
  - intros Hnil (rt & u & Hrt & Hp & Hu & Hid).
    assert ((rt, u) ∈ @nil (refresh_token_row * user_row)) as Hin;
      [|by apply elem_of_nil in Hin].
    rewrite <- Hnil. apply list_elem_of_bind. exists rt. split.
    + apply list_elem_of_bind. exists u. split; [left|].
      by apply list_elem_of_filter.
    + by apply list_elem_of_filter.
  - intros Hn. destruct (_ ≫= _) as [|[rt u] l] eqn:Hb; [done|].
    exfalso. apply Hn.
    assert (select_refresh_token token now_ d = Some (rt, u)) as Hs
      by (unfold select_refresh_token; by rewrite Hb).
    apply select_refresh_token_Some in Hs as (? & ? & ? & ?). by exists rt, u.
Qed.

Section Tokens.
Context (jwt_encode : payload → string → string).
Context (jwt_decode : string → string → exn + payload).
Context (self : service).

Local Abbreviation create_access_token := (create_access_token jwt_encode self).
Local Abbreviation decode_access_token := (decode_access_token jwt_decode self).
Local Abbreviation refresh_access_token := (refresh_access_token jwt_encode self).

(** *** The claims about the tokens *)


(** A call that runs its three statements with no other call in between does
    what [refresh_access_token] does. *)
Lemma refresh_steps_alone token t new_refresh_token d other :
  run_refreshes jwt_encode self [false; false; false]
    (AtQuery token t new_refresh_token) other d
  = let result := refresh_access_token token t new_refresh_token d in
    (result.1, Finished result.2, other).
Proof.
  unfold AuthService.refresh_access_token. simpl.
  by destruct (select_refresh_token token (at_query t) d) as [[row u]|].
Qed.

(** C7. [refresh_access_token], run with no other refresh in between, with a
    refresh token that is present, not revoked and not expired returns a new
    access token and the new refresh token, stores the new refresh token, and
    leaves the presented row revoked, with [revoked_at] set and [replaced_by]
    the id of the new row, and the rows with other ids as they were; when the
    token names a single row and the new token differs from it, every later
    refresh with it returns [None]. With a token that is missing, revoked or
    expired it returns [None] and leaves the tables as they were. *)
Theorem refresh_rotates_the_token token t new_refresh_token d :
  let result := refresh_access_token token t new_refresh_token d in
  (valid_refresh_token token (at_query t) d →
   ∃ row u resp,
     select_refresh_token token (at_query t) d = Some (row, u) ∧
     row ∈ lightrag_refresh_tokens d ∧ presentable token (at_query t) row ∧
     result.2 = Some resp ∧
     refresh_token resp = new_refresh_token ∧
     access_token resp
     = create_access_token (rt_user_id row) (u_email u)
         (at_access_exp t) (at_access_iat t) ∧
     let successor := new_id (lightrag_refresh_tokens d) in
     {| rt_id := successor; rt_user_id := rt_user_id row;
        rt_token := new_refresh_token;
        rt_expires_at := at_refresh_exp t + days (refresh_token_expire_days self);
        rt_revoked_at := None; rt_replaced_by := None |}
       ∈ lightrag_refresh_tokens result.1 ∧
     {| rt_id := rt_id row; rt_user_id := rt_user_id row; rt_token := token;
        rt_expires_at := rt_expires_at row;
        rt_revoked_at := Some (at_revoke t);
        rt_replaced_by := Some successor |}
       ∈ lightrag_refresh_tokens result.1 ∧
     (∀ r, r ∈ lightrag_refresh_tokens result.1 → rt_id r = rt_id row →
           rt_revoked_at r = Some (at_revoke t) ∧ rt_replaced_by r = Some successor) ∧
     (∀ r, rt_id r ≠ rt_id row → rt_id r ≠ successor →
           r ∈ lightrag_refresh_tokens result.1 ↔ r ∈ lightrag_refresh_tokens d) ∧
     lightrag_users result.1 = lightrag_users d ∧
     ((∀ r, r ∈ lightrag_refresh_tokens d → rt_token r = token → r = row) →
      new_refresh_token ≠ token →
      ∀ t' new_refresh_token',
        refresh_access_token token t' new_refresh_token' result.1 = (result.1, None))) ∧
  (¬ valid_refresh_token token (at_query t) d → result = (d, None)).
Proof.
  cbv zeta. split.
  - intros Hvalid.
    destruct (select_refresh_token token (at_query t) d) as [[row u]|] eqn:Hsel;
      [|by apply select_refresh_token_None in Hsel].
    pose proof (select_refresh_token_Some _ _ _ _ _ Hsel) as (Hrow & Hp & Hu & Hid).
    unfold AuthService.refresh_access_token. rewrite Hsel. cbn [fst snd].
    set (successor := new_id (lightrag_refresh_tokens d)).
    assert (rt_id row ≠ successor) as Hlt
      by (pose proof (rt_id_lt_new_id _ _ Hrow); unfold successor; lia).
    eexists row, u, _. split_and!; [done..| | | | |done|].
    + cbn [with_refresh_tokens lightrag_refresh_tokens].
      apply list_elem_of_fmap. eexists. split; [|apply elem_of_app; right; left].
      rewrite decide_False; [done|]. simpl. fold successor. congruence.
    + cbn [with_refresh_tokens lightrag_refresh_tokens].
      apply list_elem_of_fmap. exists row. split; [|apply elem_of_app; by left].
      rewrite decide_True by done. unfold revoke. destruct Hp as (<- & _). done.
    + cbn [with_refresh_tokens lightrag_refresh_tokens].
      intros r (r0 & -> & _)%list_elem_of_fmap. case_decide; [done|].
      intros Heq. done.
    + cbn [with_refresh_tokens lightrag_refresh_tokens].
      intros r Hne Hnew. split.
      * intros (r0 & -> & Hr0)%list_elem_of_fmap. revert Hne Hnew.
        case_decide; simpl; [done|]. intros Hne Hnew.
        apply elem_of_app in Hr0 as [?|Hr0%list_elem_of_singleton]; [done|].
        subst r0. by destruct Hnew.
      * intros Hr. apply list_elem_of_fmap. exists r. split.
        -- by rewrite decide_False.
        -- apply elem_of_app. by left.
    + intros Hunique Hnew t' new'.
      unfold AuthService.refresh_access_token.
      rewrite (proj2 (select_refresh_token_None _ _ _)); [done|].
      intros (rt & u' & Hrt & (Htok & _ & Hrev) & _).
      cbn [with_refresh_tokens lightrag_refresh_tokens] in Hrt.
      apply list_elem_of_fmap in Hrt as (r0 & -> & Hr0).
      apply elem_of_app in Hr0 as [Hr0|Hr0%list_elem_of_singleton].
      * assert (rt_token r0 = token) as Htok0 by (revert Htok; case_decide; done).
        rewrite (Hunique r0 Hr0 Htok0), decide_True in Hrev by done. done.
      * subst r0. revert Htok. case_decide; simpl; congruence.
  - intros Hn. unfold AuthService.refresh_access_token.
    by rewrite (proj2 (select_refresh_token_None _ _ _)).
Qed.

End Tokens.


Lemma refresh_rotates_the_token_witness :
  ∃ row u resp,
    select_refresh_token "r1" 10 sample_db = Some (row, u) ∧
    (refresh_access_token sample_encode sample_service "r1" (sample_clock 10)
       "r2" sample_db).2 = Some resp ∧
    refresh_token resp = "r2".
Proof.
  destruct (proj1 (refresh_rotates_the_token sample_encode sample_service "r1"
                     (sample_clock 10) "r2" sample_db))
    as (row & u & resp & Hsel & _ & _ & Hres & Hnew & _).
  - eexists _, _. split_and!; [left|split_and!; reflexivity|left|reflexivity].
  - by exists row, u, resp.
Defined.

(** Two refreshes with the same token whose queries both run before either
    [UPDATE]: both find the token valid and both return a new pair, so the
    token has been used twice, and each of the two new refresh tokens is
    accepted afterwards. *)
Theorem refresh_token_is_used_twice_when_interleaved :
  let result :=
    run_refreshes sample_encode sample_service
      [false; true; false; false; true; true]
      (AtQuery "r1" (sample_clock 10) "r2") (AtQuery "r1" (sample_clock 10) "r3")
      sample_db in
  ∃ first second,
    result.1.2 = Finished (Some first) ∧ result.2 = Finished (Some second) ∧
    refresh_token first = "r2" ∧ refresh_token second = "r3" ∧
    is_Some (refresh_access_token sample_encode sample_service "r2"
               (sample_clock 20) "r4" result.1.1).2 ∧
    is_Some (refresh_access_token sample_encode sample_service "r3"
               (sample_clock 20) "r4" result.1.1).2.
Proof. vm_compute. eexists _, _. split_and!; try reflexivity; by eexists. Qed.

(** The two conditions of single use are needed: a second row with the token
    is still accepted, and so is a new token that equals the presented one. *)
Example refresh_with_a_token_stored_twice :
  let d := with_refresh_tokens
             (lightrag_refresh_tokens sample_db ++
              [{| rt_id := 2; rt_user_id := "alice"; rt_token := "r1";
                  rt_expires_at := 1000; rt_revoked_at := None;
                  rt_replaced_by := None |}]) sample_db in
  let d' := (refresh_access_token sample_encode sample_service "r1"
               (sample_clock 10) "r2" d).1 in
  is_Some (refresh_access_token sample_encode sample_service "r1"
             (sample_clock 11) "r3" d').2.
Proof. vm_compute. by eexists. Qed.

Example refresh_with_the_same_token_drawn :
  let d' := (refresh_access_token sample_encode sample_service "r1"
               (sample_clock 10) "r1" sample_db).1 in
  is_Some (refresh_access_token sample_encode sample_service "r1"
             (sample_clock 11) "r3" d').2.
Proof. vm_compute. by eexists. Qed.

(** *** The claim about password reset *)

(** C9. The answer of [POST /auth/password-reset/request] is the same for
    every email, database, drawn token, clock and database error: two
    requests that differ in whether the account exists, or is active, get the
    same status and the same body. *)
Theorem password_reset_response_is_uniform email1 env1 d1 email2 env2 d2 :
  (request_password_reset_route email1 env1 d1).1.1
  = (request_password_reset_route email2 env2 d2).1.1.
Proof.
  unfold request_password_reset_route.
  destruct (request_password_reset email1 env1 d1) as [? [?|?]],
           (request_password_reset email2 env2 d2) as [? [?|?]]; reflexivity.
Qed.

(** *** Logging out *)

(** After [logout] no refresh with the token succeeds, whatever the clock;
    the other refresh tokens are as valid as they were, and no user row
    changes. *)
Theorem logout_revokes_the_token jwt_encode self token now_ d :
  let d' := logout token now_ d in
  (∀ t new_refresh_token,
     refresh_access_token jwt_encode self token t new_refresh_token d' = (d', None)) ∧
  (∀ token' q, token' ≠ token →
     valid_refresh_token token' q d' ↔ valid_refresh_token token' q d) ∧
  lightrag_users d' = lightrag_users d.
Proof.
  cbv zeta. split_and!; [| |done].
  - intros t new_. unfold refresh_access_token.
    rewrite (proj2 (select_refresh_token_None _ _ _)); [done|].
    intros (rt & u & Hrt & (Htok & _ & Hrev) & _).
    apply list_elem_of_fmap in Hrt as (r0 & -> & _).
    revert Htok Hrev. case_decide; simpl; congruence.
  - intros token' q Hne. split.
    + intros (rt & u & Hrt & Hp & Hu & Hid).
      apply list_elem_of_fmap in Hrt as (r0 & -> & Hr0).
      destruct Hp as (Htok & Hexp & Hrev). revert Htok Hexp Hrev Hid.
      case_decide; simpl; [congruence|]. intros. by exists r0, u.
    + intros (rt & u & Hrt & Hp & Hu & Hid). exists rt, u. split_and!; [|done..].
      apply list_elem_of_fmap. exists rt. split; [|done].
      destruct Hp as (Htok & _). rewrite decide_False; congruence.
Qed.

Section Accounts.
Context (hashpw : string → string → string) (checkpw : string → string → bool).
Context (jwt_encode : payload → string → string).
Context (self : service).

(** *** Logging in *)

(** [login_user] raises the same [ValueError] for an email that no account
    has and for a password that [bcrypt.checkpw] does not accept, and a login
    that raises changes nothing. A login that returns was given the password of
    the first account with the email, which is active; it returns the drawn
    refresh token and stores it for that account, to expire after
    [refresh_token_expire_days]. *)
Theorem login_user_checks_the_credentials email_ password env d :
  let account := head (filter (λ a, u_email (a_user a) = email_) (accounts d)) in
  let result := login_user checkpw jwt_encode self email_ password env d in
  ((∀ row, account = Some row → checkpw password (a_password_hash row) = false) →
   result = (d, inl (ValueError "Invalid email or password"))) ∧
  (∀ e, result.2 = inl e → result.1 = d) ∧
  (∀ response, result.2 = inr response →
     ∃ row, account = Some row ∧
       checkpw password (a_password_hash row) = true ∧
       u_is_active (a_user row) = true ∧
       id (user response) = u_id (a_user row) ∧
       email (user response) = email_ ∧
       refresh_token response = le_refresh_token env ∧
       refresh_tokens result.1
       = refresh_tokens d ++
         [{| rt_id := le_token_id env; rt_user_id := u_id (a_user row);
             rt_token := le_refresh_token env;
             rt_expires_at :=
               le_refresh_exp env + days (refresh_token_expire_days self);
             rt_revoked_at := None; rt_replaced_by := None |}]).
Proof.
  cbv zeta. unfold login_user, verify_password.
  destruct (head (filter _ (accounts d))) as [row|] eqn:Hrow.
  - destruct (checkpw password (a_password_hash row)) eqn:Hpw; simpl.
    + destruct (u_is_active (a_user row)) eqn:Hact; simpl.
      * split_and!; [|done|].
        -- intros Hno. by rewrite (Hno row eq_refl) in Hpw.
        -- intros response [= <-]. exists row. simpl.
           apply head_filter_Some in Hrow as [_ Hemail]. done.
      * split_and!; [|done..]. intros Hno. by rewrite (Hno row eq_refl) in Hpw.
    + done.
  - done.
Qed.

(** The refresh token that a login returns is accepted by
    [refresh_access_token], for the user who logged in, as long as the clock
    of the query is before the expiry that the login stored, and no longer
    from then on; no stored token is the drawn one. *)
Theorem login_then_refresh email_ password env d d' response :
  login_user checkpw jwt_encode self email_ password env d = (d', inr response) →
  (∀ rt, rt ∈ refresh_tokens d → rt_token rt ≠ refresh_token response) →
  ∀ t new_refresh_token,
    let result :=
      refresh_access_token jwt_encode self (refresh_token response) t
        new_refresh_token (sessions d') in
    (at_query t < le_refresh_exp env + days (refresh_token_expire_days self) →
     ∃ response', result.2 = Some response' ∧
       id (user response') = id (user response) ∧
       refresh_token response' = new_refresh_token) ∧
    (le_refresh_exp env + days (refresh_token_expire_days self) ≤ at_query t →
     result = (sessions d', None)).
Proof.
  unfold login_user, verify_password.
  destruct (head (filter _ (accounts d))) as [row|] eqn:Hrow; [|done].
  destruct (checkpw password (a_password_hash row)); simpl; [|done].
  destruct (u_is_active (a_user row)); simpl; [|done].
  intros [= <- <-] Hfresh t new_. simpl in Hfresh. cbv zeta.
  apply head_filter_Some in Hrow as [Hrow _].
  set (d' := with_accounts _ _).
  set (drawn := {| rt_id := le_token_id env |}) in d'.
  assert (∀ rt q, rt ∈ lightrag_refresh_tokens (sessions d') →
                  presentable (le_refresh_token env) q rt → rt = drawn) as Honly.
  { intros rt q Hrt (Htok & _). simpl in Hrt.
    apply elem_of_app in Hrt as [Hrt|Hrt%list_elem_of_singleton]; [|done].
    by destruct (Hfresh rt Hrt). }
  unfold refresh_access_token. split.
  - intros Hlt.
    destruct (select_refresh_token _ _ _) as [[rt u]|] eqn:Hsel.
    + apply select_refresh_token_Some in Hsel as (Hrt & Hp & _).
      rewrite (Honly _ _ Hrt Hp). eexists. by split_and!.
    + apply select_refresh_token_None in Hsel. destruct Hsel.
      exists drawn, (set_last_login (le_last_login env) (a_user row)). split_and!.
      * simpl. apply elem_of_app. right. left.
      * unfold presentable. simpl. split_and!; [done|lia|done].
      * simpl. apply list_elem_of_fmap.
        exists (on_user (set_last_login (le_last_login env)) row). split; [done|].
        apply list_elem_of_fmap. exists row. by rewrite decide_True.
      * done.
  - intros Hge. rewrite (proj2 (select_refresh_token_None _ _ _)); [done|].
    intros (rt & u & Hrt & Hp & _). pose proof (Honly _ _ Hrt Hp) as ->.
    destruct Hp as (_ & Hexp & _). simpl in Hexp. lia.
Qed.

(** *** Registration *)

(** After [register_user] returned, the email is taken: registering it
    again raises [ValueError] and changes nothing. Where [bcrypt.checkpw]
    accepts the password for the hash that [bcrypt.hashpw] made of it and the
    new account is active, logging in with the email and the password
    succeeds, as the new user; and where the new account is not verified,
    [verify_email] accepts the returned token during the next seven days. *)
Theorem register_then_login email_ password name_ phone_ env d d' response token :
  register_user hashpw email_ password name_ phone_ env d
  = (d', inr (response, token)) →
  (∀ password' name' phone' env',
     register_user hashpw email_ password' name' phone' env' d'
     = (d', inl (ValueError "Email already registered"))) ∧
  (checkpw password (hashpw password (re_salt env)) = true →
   u_is_active (re_defaults env) = true →
   ∀ lenv, ∃ tokens,
     (login_user checkpw jwt_encode self email_ password lenv d').2 = inr tokens ∧
     id (user tokens) = u_id (re_defaults env)) ∧
  (u_is_verified (re_defaults env) = false →
   ∀ q, q < re_now env + days 7 → (verify_email token q d').2 = true).
Proof.
  unfold register_user.
  destruct (head (filter _ (accounts d))) eqn:Hnone; [done|]. cbv zeta.
  set (row := {| a_user := _ |}).
  destruct (get_user_by_id _ _); [done|]. intros [= <- _ <-].
  assert (head (filter (λ a, u_email (a_user a) = email_)
                  (accounts (with_accounts (accounts d ++ [row]) d))) = Some row) as Hfirst.
  { simpl. rewrite (head_filter_app_None _ _ _ Hnone).
    by rewrite filter_cons, decide_True. }
  split_and!.
  - intros password' name' phone' env'. by rewrite Hfirst.
  - intros Hpw Hact lenv. unfold login_user, verify_password.
    rewrite Hfirst. simpl a_password_hash. unfold hash_password. rewrite Hpw.
    simpl. rewrite Hact. simpl. by eexists.
  - intros Hver q Hq. unfold verify_email.
    destruct (head_filter_is_Some (verifiable (re_token env) q)
                (accounts (with_accounts (accounts d ++ [row]) d)) row) as [a ->];
      [|split_and!; simpl|done]; [|done|lia|done].
    simpl. apply elem_of_app. right. left.
Qed.

(** *** Verifying an email *)

(** [verify_email] returns [False] and changes nothing unless an account
    that is not yet verified has the token with an expiry after the clock.
    Then every account with the id of the first such one is verified and has
    no token left, the accounts with other ids are as they were, and, where
    only that id had the token, the token is spent: every later
    [verify_email] with it returns [False]. *)
Theorem verify_email_verifies_once token now_ d :
  let result := verify_email token now_ d in
  (result.2 = false →
   result.1 = d ∧ ∀ a, a ∈ accounts d → ¬ verifiable token now_ a) ∧
  (result.2 = true →
   ∃ row, row ∈ accounts d ∧ verifiable token now_ row ∧
     (∀ a, a ∈ accounts result.1 → u_id (a_user a) = u_id (a_user row) →
           u_is_verified (a_user a) = true ∧ a_email_verification_token a = None) ∧
     (∀ a, u_id (a_user a) ≠ u_id (a_user row) →
           a ∈ accounts result.1 ↔ a ∈ accounts d) ∧
     refresh_tokens result.1 = refresh_tokens d ∧
     ((∀ a, a ∈ accounts d → a_email_verification_token a = Some token →
            u_id (a_user a) = u_id (a_user row)) →
      ∀ now', verify_email token now' result.1 = (result.1, false))).
Proof.
  cbv zeta. destruct (verify_email token now_ d) as [d' r] eqn:Hres.
  unfold verify_email in Hres.
  destruct (head (filter _ (accounts d))) as [row|] eqn:Hrow;
    injection Hres as <- <-; simpl.
  - split; [done|]. intros _.
    apply head_filter_Some in Hrow as [Hrow Hv]. exists row.
    assert (∀ a, a ∈ ((λ a, if decide (u_id (a_user a) = u_id (a_user row))
                           then set_email_verified a else a) <$> accounts d) →
                 (u_id (a_user a) = u_id (a_user row) ∧
                  u_is_verified (a_user a) = true ∧
                  a_email_verification_token a = None) ∨
                 (u_id (a_user a) ≠ u_id (a_user row) ∧ a ∈ accounts d)) as Hrows.
    { intros a (a0 & -> & Ha0)%list_elem_of_fmap. case_decide; [by left|by right]. }
    split_and!; [done..| | |done|].
    + intros a Ha Hid. destruct (Hrows a Ha) as [(_ & ? & ?)|[? _]]; done.
    + intros a Hid. split.
      * intros Ha. destruct (Hrows a Ha) as [(? & _)|[_ ?]]; done.
      * intros Ha. apply list_elem_of_fmap. exists a. by rewrite decide_False.
    + intros Honly now'. unfold verify_email.
      rewrite (proj2 (head_filter_None _ _)); [done|].
      intros a Ha (Htok & _). simpl in Ha.
      destruct (Hrows a Ha) as [(_ & _ & Hnone)|[Hid Hin]]; [congruence|].
      by apply Hid, Honly.
  - split; [|done]. intros _. split; [done|].
    exact (proj1 (head_filter_None _ _) Hrow).
Qed.

(** *** Resetting a password *)

(** [reset_password] returns [False] and changes nothing unless an account
    has the token with an expiry after the clock. Then every account with the
    id of the first such one has the hash of the new password and no reset
    token, no refresh token of that user is accepted any more, and, where only
    that id had the token, every later [reset_password] with it returns
    [False]. *)
Theorem reset_password_revokes_the_sessions token new_password salt now_ now' d :
  let result := reset_password hashpw token new_password salt now_ now' d in
  (result.2 = false →
   result.1 = d ∧ ∀ a, a ∈ accounts d → ¬ resettable token now_ a) ∧
  (result.2 = true →
   ∃ row, row ∈ accounts d ∧ resettable token now_ row ∧
     (∀ a, a ∈ accounts result.1 → u_id (a_user a) = u_id (a_user row) →
           a_password_hash a = hashpw new_password salt ∧
           u_password_reset_token (a_user a) = None) ∧
     (∀ a, u_id (a_user a) ≠ u_id (a_user row) →
           a ∈ accounts result.1 ↔ a ∈ accounts d) ∧
     (∀ refresh_token_ t new_refresh_token response,
        (refresh_access_token jwt_encode self refresh_token_ t new_refresh_token
           (sessions result.1)).2 = Some response →
        id (user response) ≠ u_id (a_user row)) ∧
     ((∀ a, a ∈ accounts d → u_password_reset_token (a_user a) = Some token →
            u_id (a_user a) = u_id (a_user row)) →
      ∀ password' salt' q q',
        reset_password hashpw token password' salt' q q' result.1
        = (result.1, false))).
Proof.
  cbv zeta.
  destruct (reset_password hashpw token new_password salt now_ now' d)
    as [d' r] eqn:Hres.
  unfold reset_password in Hres.
  destruct (head (filter _ (accounts d))) as [row|] eqn:Hrow;
    injection Hres as <- <-; simpl.
  - split; [done|]. intros _.
    apply head_filter_Some in Hrow as [Hrow Hv]. exists row.
    set (f := λ a : account_row, if decide (u_id (a_user a) = u_id (a_user row))
                then _ else a).
    assert (∀ a, a ∈ f <$> accounts d →
                 (u_id (a_user a) = u_id (a_user row) ∧
                  a_password_hash a = hashpw new_password salt ∧
                  u_password_reset_token (a_user a) = None) ∨
                 (u_id (a_user a) ≠ u_id (a_user row) ∧ a ∈ accounts d)) as Hrows.
    { intros a (a0 & -> & Ha0)%list_elem_of_fmap. unfold f.
      case_decide; [by left|by right]. }
    split_and!; [done..| | | |].
    + intros a Ha Hid. destruct (Hrows a Ha) as [(_ & ? & ?)|[? _]]; done.
    + intros a Hid. split.
      * intros Ha. destruct (Hrows a Ha) as [(? & _)|[_ ?]]; done.
      * intros Ha. apply list_elem_of_fmap. exists a. unfold f.
        by rewrite decide_False.
    + intros tok t new_ response. unfold refresh_access_token.
      destruct (select_refresh_token _ _ _) as [[rt u]|] eqn:Hsel; [|done].
      apply select_refresh_token_Some in Hsel as (Hrt & (_ & _ & Hrev) & _).
      simpl. intros [= <-]. simpl.
      apply list_elem_of_fmap in Hrt as (r0 & -> & _).
      revert Hrev. case_decide; simpl; done.
    + intros Honly password' salt' q q'. unfold reset_password.
      rewrite (proj2 (head_filter_None _ _)); [done|].
      intros a Ha (Htok & _). simpl in Ha.
      destruct (Hrows a Ha) as [(_ & _ & Hnone)|[Hid Hin]]; [congruence|].
      by apply Hid, Honly.
  - split; [|done]. intros _. split; [done|].
    exact (proj1 (head_filter_None _ _) Hrow).
Qed.

(** A reset token that [request_password_reset] returned is accepted by
    [reset_password] exactly while the clock of the query is less than two
    hours after the request; no account had the drawn token before. *)
Theorem reset_token_lives_two_hours email_ env d d' token :
  request_password_reset email_ env (sessions d) = (sessions d', inr (Some token)) →
  (∀ a, a ∈ accounts d → u_password_reset_token (a_user a) ≠ Some token) →
  ∀ new_password salt q q',
    (reset_password hashpw token new_password salt q q' d').2
    = bool_decide (q < now env + hours 2).
Proof.
  unfold request_password_reset.
  destruct (fetchval_raises env); [done|].
  destruct (head (filter _ (lightrag_users (sessions d)))) as [u|] eqn:Hu; [|done].
  case_decide; [done|]. destruct (execute_raises env); [done|].
  intros [= Hview _ <-] Hfresh new_password salt q q'.
  apply head_filter_Some in Hu as [Hu _].
  set (f := λ r : user_row, if decide (u_id r = u_id u) then _ else r) in Hview.
  assert (∀ a, a ∈ accounts d' → resettable (drawn_token env) q a →
               q < now env + hours 2) as Hlive.
  { intros a Ha (Htok & Hexp).
    assert (a_user a ∈ f <$> (a_user <$> accounts d)) as Hin.
    { rewrite Hview. by apply list_elem_of_fmap_2. }
    apply list_elem_of_fmap in Hin as (r & Hr & (a0 & -> & Ha0)%list_elem_of_fmap).
    rewrite Hr in Htok, Hexp. unfold f in Htok, Hexp. revert Htok Hexp.
    case_decide; simpl; [lia|]. intros Htok. by destruct (Hfresh a0 Ha0). }
  unfold reset_password.
  destruct (head (filter _ (accounts d'))) as [row|] eqn:Hrow; simpl.
  - apply head_filter_Some in Hrow as [Hrow Hres].
    symmetry. apply bool_decide_eq_true. by eapply Hlive.
  - symmetry. apply bool_decide_eq_false. intros Hq.
    assert (f u ∈ a_user <$> accounts d') as (a & Ha & Hin)%list_elem_of_fmap.
    { rewrite <- Hview. apply list_elem_of_fmap_2, Hu. }
    apply (proj1 (head_filter_None _ _) Hrow a Hin).
    unfold resettable. rewrite <- Ha. unfold f. rewrite decide_True by done.
    simpl. split; [done|lia].
Qed.

End Accounts.

Lemma login_then_refresh_witness :
  ∃ response',
    (refresh_access_token sample_encode sample_service "r2" (sample_clock 10) "r3"
       (sessions sample_logged_in.1)).2 = Some response' ∧
    id (user response') = "alice" ∧ refresh_token response' = "r3".
Proof.
  destruct sample_logged_in as [d' [e|response]] eqn:Hlogin; [done|].
  injection Hlogin as <- <-.
  refine (proj1 (login_then_refresh sample_checkpw sample_encode sample_service
                   "alice@x.com" "pw" sample_login_env sample_tables _ _ eq_refl _
                   (sample_clock 10) "r3") _).
  - intros rt [->|[]%elem_of_nil]%elem_of_cons. done.
  - vm_compute. done.
Defined.

Lemma register_then_login_witness :
  ∃ tokens,
    (login_user sample_checkpw sample_encode sample_service "bob@x.com" "pw"
       sample_login_env sample_registered.1).2 = inr tokens ∧
    id (user tokens) = "bob".
Proof.
  destruct sample_registered as [d' [e|[response token]]] eqn:Hreg; [done|].
  injection Hreg as <- <- <-.
  refine (proj1 (proj2 (register_then_login sample_hashpw sample_checkpw sample_encode
                          sample_service "bob@x.com" "pw" "Bob" None
                          sample_register_env sample_tables _ _ _ eq_refl))
            eq_refl eq_refl sample_login_env).
Defined.

Lemma reset_token_lives_two_hours_witness :
  (reset_password sample_hashpw "p1" "new" "salt" 6 6 sample_requested).2 = true.
Proof.
  refine (reset_token_lives_two_hours sample_hashpw "alice@x.com" sample_reset_env
            sample_tables sample_requested "p1" eq_refl _ "new" "salt" 6 6).
  intros a [->|[]%elem_of_nil]%elem_of_cons. done.
Defined.

End AuthService.

(** ** Access control ([lightrag/api/middleware/auth_middleware.py]) *)

Module AuthMiddleware.

Import AuthService(claim, Str, Num, payload).
Import APIKeyService(key_context, c_key_id, c_user_id, c_tenant_id, c_project_id, c_scopes).
Import ProjectService(UserRole).

Inductive exn :=
| HTTPException (status_code : Z) (detail : string)
| Exception (cls : string).

(** [request.state]; an attribute that was never set is [None]. *)
Record request_state := {
  user_id : option claim;
  user_email : option claim;
  tenant_id : option string;
  project_id : option string;
  scopes : option (list string);
  auth_type : option string
}.

Definition empty_state : request_state :=
  {| user_id := None; user_email := None; tenant_id := None; project_id := None;
     scopes := None; auth_type := None |}.

Record request := {
  path : string;
  authorization : option string
}.

(** [s.replace(old, new)] for a non-empty [old]: [skip] characters of a match
    are still to be dropped. *)
Fixpoint replace_from (old new : string) (skip : nat) (s : string) : string :=
  match s with
  | EmptyString => EmptyString
  | String c s' =>
      match skip with
      | S n => replace_from old new n s'
      | O =>
          if String.prefix old s then
            new +:+ replace_from old new (String.length old - 1) s'
          else String c (replace_from old new 0 s')
      end
  end.

Definition replace (old new s : string) : string := replace_from old new 0 s.

Definition public_paths : list string :=
  ["/auth/register"; "/auth/login"; "/auth/verify-email";
   "/auth/password-reset/request"; "/auth/password-reset/confirm";
   "/auth/refresh"; "/docs"; "/redoc"; "/openapi.json"; "/health";
   "/auth-status"].

Definition is_public (p : string) : bool :=
  existsb (λ public, String.prefix public p) public_paths.

Section Middleware.
(** The services of the middleware: [api_key_service.validate_api_key] (the
    service may be absent) and [auth_service.decode_access_token]. *)
Context (api_key_service : option (string → exn + option key_context)).
Context (decode_access_token : string → exn + option payload).

(** [AuthMiddleware.dispatch], up to [call_next]: the state the endpoint
    sees. *)
Definition dispatch (req : request) : request_state :=
  if is_public (path req) then empty_state
  else
    match authorization req with
    | None => empty_state
    | Some auth_header =>
        if negb (String.prefix "Bearer " auth_header)
           || bool_decide (auth_header = "") then empty_state
        else
          let token := replace "Bearer " "" auth_header in
          match api_key_service with
          | Some validate_api_key =>
              if String.prefix "lrag_" token then
                match validate_api_key token with
                | inr (Some api_key_context) =>
                    {| user_id := Some (Str (c_user_id api_key_context));
                       user_email := None;
                       tenant_id := Some (c_tenant_id api_key_context);
                       project_id := Some (c_project_id api_key_context);
                       scopes := Some (c_scopes api_key_context);
                       auth_type := Some "api_key" |}
                | inr None => empty_state
                | inl _ => empty_state
                end
              else
                match decode_access_token token with
                | inr (Some p) =>
                    {| user_id := dict_get "sub" p; user_email := dict_get "email" p;
                       tenant_id := None; project_id := None; scopes := None;
                       auth_type := Some "jwt" |}
                | _ => empty_state
                end
          | None =>
              match decode_access_token token with
              | inr (Some p) =>
                  {| user_id := dict_get "sub" p; user_email := dict_get "email" p;
                     tenant_id := None; project_id := None; scopes := None;
                     auth_type := Some "jwt" |}
              | _ => empty_state
              end
          end
    end.

End Middleware.

(** The truth value of a claim. *)
Definition truthy (c : option claim) : bool :=
  match c with
  | Some (Str s) => negb (bool_decide (s = ""))
  | Some (Num n) => negb (bool_decide (n = 0))
  | None => false
  end.

(** [require_auth] *)
Definition require_auth (state : request_state) : exn + claim :=
  match user_id state with
  | Some c => if truthy (Some c) then inr c
              else inl (HTTPException 401 "Authentication required")
  | None => inl (HTTPException 401 "Authentication required")
  end.

(** What [check_project_access] returns: ["api_key"], or the user's role. *)
Inductive access := ApiKey | Role (r : UserRole).

(** [check_project_access]; [check_user_access] is the method of the project
    service, [required_roles] is [None] by default. *)
Definition check_project_access (state : request_state) (tenant project : string)
    (check_user_access : claim → string → string → exn + option UserRole)
    (required_roles : option (list string)) : exn + access :=
  if decide (auth_type state = Some "api_key") then
    let api_tenant_id := tenant_id state in
    let api_project_id := project_id state in
    if decide (api_tenant_id ≠ Some tenant ∨ api_project_id ≠ Some project) then
      inl (HTTPException 403 "API key is not authorized for this project")
    else
      let scopes_ := default [] (scopes state) in
      if decide ("admin" ∈ scopes_) then inr ApiKey
      else
        if decide (default [] required_roles ≠ [] ∧ "admin" ∉ scopes_) then
          inl (HTTPException 403 "This operation requires admin API key scope")
        else inr ApiKey
  else
    match require_auth state with
    | inl e => inl e
    | inr user =>
        match check_user_access user tenant project with
        | inl e => inl e
        | inr None => inl (HTTPException 403 "You don't have access to this project")
        | inr (Some user_role) =>
            if decide (default [] required_roles ≠ []
                       ∧ ProjectService.value user_role ∉ default [] required_roles) then
              inl (HTTPException 403 "This operation requires one of these roles")
            else inr (Role user_role)
        end
    end.

(** [require_scope] *)
Definition require_scope (state : request_state) (required_scope : string)
    : exn + unit :=
  if decide (auth_type state = Some "api_key") then
    let scopes_ := default [] (scopes state) in
    if decide ("admin" ∈ scopes_ ∨ required_scope ∈ scopes_) then inr tt
    else inl (HTTPException 403 "API key requires this scope for this operation")
  else inr tt.

(** [get_current_user_id] of [lightrag/api/routers/api_key_routes.py]: the
    user, and the state it leaves. A payload that is an empty dict counts as
    no payload. *)
Definition get_current_user_id (decode_access_token : string → exn + option payload)
    (state : request_state) (req : request) : exn + request_state * claim :=
  let from_header :=
    match authorization req with
    | None => inl (HTTPException 401 "Not authenticated")
    | Some auth_header =>
        if bool_decide (auth_header = "") || negb (String.prefix "Bearer " auth_header)
        then inl (HTTPException 401 "Not authenticated")
        else
          let token := replace "Bearer " "" auth_header in
          if String.prefix "lrag_" token then
            inl (HTTPException 401
                   "API keys cannot manage API keys. Use JWT token from login.")
          else
            match decode_access_token token with
            | inl e => inl e
            | inr None => inl (HTTPException 401 "Invalid or expired token")
            | inr (Some p) =>
                if decide (p = []) then
                  inl (HTTPException 401 "Invalid or expired token")
                else
                  match dict_get "sub" p with
                  | Some c =>
                      if truthy (Some c) then
                        inr ({| user_id := Some c; user_email := dict_get "email" p;
                                tenant_id := tenant_id state;
                                project_id := project_id state;
                                scopes := scopes state;
                                auth_type := Some "jwt" |}, c)
                      else inl (HTTPException 401 "Invalid token payload")
                  | None => inl (HTTPException 401 "Invalid token payload")
                  end
            end
    end in
  match user_id state with
  | Some c => if truthy (Some c) then inr (state, c) else from_header
  | None => from_header
  end.

(** A signer and a decoder that know one set of claims, those of the token
    of the sample service, and a request that bears that token. *)
Definition sample_claims : payload :=
  [("sub", Str "alice"); ("email", Str "alice@x.com");
   ("exp", Num (10 + AuthService.minutes 60)); ("iat", Num 10);
   ("type", Str "access")].

Definition sample_jwt_encode (p : payload) (key : string) : string :=
  if decide (p = sample_claims) then "jwt.alice.secret" else "jwt.other".

Definition sample_jwt_decode (token key : string) : AuthService.exn + payload :=
  if decide (token = "jwt.alice.secret") then inr sample_claims
  else inl (AuthService.InvalidTokenError "DecodeError").

Definition sample_decode_access_token (token : string) : exn + option payload :=
  match AuthService.decode_access_token sample_jwt_decode AuthService.sample_service
          token with
  | inr p => inr p
  | inl _ => inl (Exception "Exception")
  end.

Definition sample_jwt_request : request :=
  {| path := "/projects/proj1/members";
     authorization := Some "Bearer jwt.alice.secret" |}.

(** The project service on a database, as [check_project_access] calls it. *)
Definition sample_project_service (d : ProjectService.db) (user : claim)
    (tenant project : string) : exn + option UserRole :=
  match user with
  | Str u =>
      match ProjectService.check_user_access u tenant project d with
      | inr r => inr r
      | inl _ => inl (Exception "ValueError")
      end
  | Num _ => inl (Exception "DataError")
  end.

(** A request with an API key of the project [("acme", "proj1")] that has every
    scope. *)
Definition sample_validate (token : string) : exn + option key_context :=
  if decide (token = "lrag_s3cr3t") then
    inr (Some {| c_key_id := 2; c_user_id := "alice"; c_tenant_id := "acme";
                 c_project_id := "proj1"; c_scopes := ["admin"] |})
  else inr None.

Definition sample_request : request :=
  {| path := "/projects/proj2/members";
     authorization := Some "Bearer lrag_s3cr3t" |}.

(** *** The claim about API keys and projects *)

(** An API-key principal is refused for every project other than the one in
    its state, whatever its scopes and the roles asked for. *)
Lemma check_project_access_other_project state tenant project svc required_roles :
  auth_type state = Some "api_key" →
  (tenant_id state, project_id state) ≠ (Some tenant, Some project) →
  check_project_access state tenant project svc required_roles
  = inl (HTTPException 403 "API key is not authorized for this project").
Proof.
  intros Hkey Hother. unfold check_project_access.
  rewrite decide_True by done. rewrite decide_True; [done|].
  destruct (decide (tenant_id state = Some tenant)) as [Ht|]; [|by left].
  destruct (decide (project_id state = Some project)) as [Hp|]; [|by right].
  exfalso. apply Hother. by rewrite Ht, Hp.
Qed.

(** C4. A request that the middleware authenticates with an API key gets the
    tenant and the project of the key record, whatever the request names;
    and [check_project_access] refuses it with 403 for every other tenant or
    project, whatever the scopes of the key, [admin] included, and whatever
    roles are required. *)
Theorem api_key_is_bound_to_its_project
    validate decode req header context tenant project svc required_roles :
  is_public (path req) = false →
  authorization req = Some header →
  String.prefix "Bearer " header = true →
  String.prefix "lrag_" (replace "Bearer " "" header) = true →
  validate (replace "Bearer " "" header) = inr (Some context) →
  (c_tenant_id context, c_project_id context) ≠ (tenant, project) →
  let state := dispatch (Some validate) decode req in
  auth_type state = Some "api_key" ∧
  tenant_id state = Some (c_tenant_id context) ∧
  project_id state = Some (c_project_id context) ∧
  scopes state = Some (c_scopes context) ∧
  check_project_access state tenant project svc required_roles
  = inl (HTTPException 403 "API key is not authorized for this project").
Proof.
  intros Hpath Hauth Hbearer Hkey Hvalid Hother. unfold dispatch.
  rewrite Hpath, Hauth, Hbearer, Hkey, Hvalid.
  assert (header ≠ "") as Hne by (intros ->; done).
  rewrite bool_decide_false by done. cbn [negb orb].
  split_and!; [done..|].
  apply check_project_access_other_project; [done|]. simpl.
  intros [= Ht Hp]. apply Hother. by rewrite Ht, Hp.
Qed.

Lemma api_key_is_bound_to_its_project_witness :
  check_project_access
    (dispatch (Some sample_validate) (λ _, inr None) sample_request)
    "acme" "proj2" (λ _ _ _, inr None) (Some ["owner"])
  = inl (HTTPException 403 "API key is not authorized for this project").
Proof.
  eapply (api_key_is_bound_to_its_project sample_validate (λ _, inr None)
            sample_request "Bearer lrag_s3cr3t"); try reflexivity.
  discriminate.
Defined.

(** *** What the middleware lets through *)

Lemma prefix_Bearer_space s :
  String.prefix "Bearer " s = true → String.get 6 s = Some Ascii.Space.
Proof.
  intros Hp%String.prefix_correct.
  pose proof (String.substring_correct1 s 0 7 6) as Hget.
  simpl in Hp. rewrite Hp in Hget. symmetry. apply Hget. lia.
Qed.

(** [replace] finds nothing to drop in a string without a space. *)
Lemma replace_Bearer_no_space s :
  (∀ n, String.get n s ≠ Some Ascii.Space) → replace "Bearer " "" s = s.
Proof.
  unfold replace. induction s as [|c s IH]; intros Hs; [done|].
  cbn [replace_from].
  destruct (String.prefix "Bearer " (String c s)) eqn:Hp.
  - apply prefix_Bearer_space in Hp. by destruct (Hs 6%nat).
  - f_equal. apply IH. intros n. apply (Hs (S n)).
Qed.

Lemma prefix_Bearer_app token : String.prefix "Bearer " ("Bearer " +:+ token) = true.
Proof. destruct token; reflexivity. Qed.

Lemma replace_Bearer_token token :
  (∀ n, String.get n token ≠ Some Ascii.Space) →
  replace "Bearer " "" ("Bearer " +:+ token) = token.
Proof.
  intros Hs. rewrite <- (replace_Bearer_no_space token Hs) at 2.
  pose proof (prefix_Bearer_app token) as Hp.
  unfold replace. destruct ("Bearer " +:+ token) as [|c rest] eqn:Heq; [done|].
  cbn [replace_from]. rewrite Hp. simpl in Heq. injection Heq as <- <-.
  reflexivity.
Qed.

(** The middleware sets a principal only for a token that a service
    accepted: the state it leaves is empty, or that of an API key that
    [validate_api_key] returned a context for, or that of a token that
    [decode_access_token] returned a payload for, and for a public path it is
    empty whatever the request bears. With the empty state [require_auth] and
    [check_project_access] answer 401. *)
Theorem dispatch_sets_no_principal_unless_accepted svc decode req :
  let state := dispatch svc decode req in
  (is_public (path req) = true → state = empty_state) ∧
  (state = empty_state ∨
   (∃ validate header context,
      svc = Some validate ∧ authorization req = Some header ∧
      String.prefix "lrag_" (replace "Bearer " "" header) = true ∧
      validate (replace "Bearer " "" header) = inr (Some context) ∧
      state = {| user_id := Some (Str (c_user_id context)); user_email := None;
                 tenant_id := Some (c_tenant_id context);
                 project_id := Some (c_project_id context);
                 scopes := Some (c_scopes context);
                 auth_type := Some "api_key" |}) ∨
   (∃ header p,
      authorization req = Some header ∧
      decode (replace "Bearer " "" header) = inr (Some p) ∧
      state = {| user_id := dict_get "sub" p; user_email := dict_get "email" p;
                 tenant_id := None; project_id := None; scopes := None;
                 auth_type := Some "jwt" |})) ∧
  require_auth empty_state = inl (HTTPException 401 "Authentication required") ∧
  (∀ tenant project project_service required_roles,
     check_project_access empty_state tenant project project_service required_roles
     = inl (HTTPException 401 "Authentication required")).
Proof.
  cbv zeta. split_and!; [| |done..].
  - intros Hpub. unfold dispatch. by rewrite Hpub.
  - unfold dispatch. destruct (is_public (path req)); [by left|].
    destruct (authorization req) as [header|]; [|by left].
    destruct (negb _ || _); [by left|].
    destruct svc as [validate|].
    + destruct (String.prefix "lrag_" _) eqn:Hkey.
      * destruct (validate _) as [e|[context|]] eqn:Hv; [by left| |by left].
        right. left. by exists validate, header, context.
      * destruct (decode _) as [e|[p|]] eqn:Hd; [by left| |by left].
        right. right. by exists header, p.
    + destruct (decode _) as [e|[p|]] eqn:Hd; [by left| |by left].
      right. right. by exists header, p.
Qed.

(** The access token that [create_access_token] makes for a user
    authenticates that user: sent as [Bearer <token>] to a path that is not
    public, it leaves the state of a JWT principal with the id and the email
    of the user, and [require_auth] returns the id. The token has no space
    and does not begin with [lrag_]; what PyJWT decodes from a token it
    signed are the claims that were signed, and it decodes this token (which
    has not expired); the middleware decodes with [decode_access_token]. *)
Theorem access_token_authenticates
    jwt_encode jwt_decode self svc decode req user email_ now_ now' :
  let token := AuthService.create_access_token jwt_encode self user email_ now_ now' in
  is_public (path req) = false →
  authorization req = Some ("Bearer " +:+ token) →
  (∀ n, String.get n token ≠ Some Ascii.Space) →
  String.prefix "lrag_" token = false →
  (∀ p r, jwt_decode (jwt_encode p (AuthService.secret_key self))
            (AuthService.secret_key self) = inr r → r = p) →
  (∃ r, jwt_decode token (AuthService.secret_key self) = inr r) →
  (∀ r, AuthService.decode_access_token jwt_decode self token = inr r →
        decode token = inr r) →
  user ≠ "" →
  let state := dispatch svc decode req in
  require_auth state = inr (Str user) ∧
  user_id state = Some (Str user) ∧
  user_email state = Some (Str email_) ∧
  auth_type state = Some "jwt".
Proof.
  cbv zeta. intros Hpub Hauth Hspace Hkey Hround [r Hlib] Hdecode Huser.
  pose proof Hlib as Hr. unfold AuthService.create_access_token in Hr.
  apply Hround in Hr. subst r.
  set (token := AuthService.create_access_token _ _ _ _ _ _) in *.
  assert (∃ p, decode token = inr (Some p) ∧
               dict_get "sub" p = Some (Str user) ∧
               dict_get "email" p = Some (Str email_)) as (p & Hp & Hsub & Hemail).
  { eexists. split.
    - apply Hdecode. unfold AuthService.decode_access_token. rewrite Hlib.
      reflexivity.
    - split; reflexivity. }
  assert (dispatch svc decode req
          = {| user_id := Some (Str user); user_email := Some (Str email_);
               tenant_id := None; project_id := None; scopes := None;
               auth_type := Some "jwt" |}) as ->.
  { unfold dispatch. rewrite Hpub, Hauth, prefix_Bearer_app.
    rewrite bool_decide_false by (intros Heq; by destruct token).
    cbn [negb orb]. rewrite (replace_Bearer_token _ Hspace), Hkey, Hp, Hsub, Hemail.
    by destruct svc. }
  split_and!; [|done..].
  unfold require_auth. simpl. by rewrite bool_decide_false.
Qed.

(** A member who was removed has no access: after a [remove_member] that
    succeeded, [check_project_access] answers 403 to the JWT principal of the
    removed user, for every tenant and whatever roles are asked for. The
    project service is the one of the database that [remove_member] left. *)
Theorem removed_member_loses_access
    project target removed_by d d' state tenant project_service required_roles :
  ProjectService.remove_member project target removed_by d = (d', inr tt) →
  (∀ r, ProjectService.check_user_access target tenant project d' = inr r →
        project_service (Str target) tenant project = inr r) →
  user_id state = Some (Str target) →
  target ≠ "" →
  auth_type state ≠ Some "api_key" →
  check_project_access state tenant project project_service required_roles
  = inl (HTTPException 403 "You don't have access to this project").
Proof.
  intros Hremove Hsvc Huser Hne Hjwt.
  assert (d' = ProjectService.delete_member project target d) as ->.
  { unfold ProjectService.remove_member in Hremove.
    repeat case_decide; by injection Hremove as <-. }
  unfold check_project_access. rewrite decide_False by done.
  unfold require_auth. rewrite Huser. simpl. rewrite bool_decide_false by done. simpl.
  rewrite (Hsvc None); [done|].
  unfold ProjectService.check_user_access, ProjectService.delete_member. simpl.
  rewrite (proj2 (head_filter_None _ _)); [done|].
  intros r [Hr _]%list_elem_of_filter (Hu & _ & Hp). by apply Hr.
Qed.

(** [get_current_user_id] of the API key routes refuses an API key in the
    header, with 401, when the state has no user; when the middleware has
    authenticated the request it returns the user of the state, and that is
    the user of the key for a request that bears a valid API key. *)
Theorem get_current_user_id_trusts_the_state validate decode req header :
  is_public (path req) = false →
  authorization req = Some header →
  String.prefix "Bearer " header = true →
  String.prefix "lrag_" (replace "Bearer " "" header) = true →
  get_current_user_id decode empty_state req
  = inl (HTTPException 401
           "API keys cannot manage API keys. Use JWT token from login.") ∧
  (∀ context,
     validate (replace "Bearer " "" header) = inr (Some context) →
     c_user_id context ≠ "" →
     let state := dispatch (Some validate) decode req in
     get_current_user_id decode state req = inr (state, Str (c_user_id context))).
Proof.
  intros Hpub Hauth Hbearer Hkey.
  assert (header ≠ "") as Hne by (intros ->; done).
  split.
  - unfold get_current_user_id. simpl. rewrite Hauth, Hbearer, Hkey.
    by rewrite bool_decide_false.
  - intros context Hvalid Huser. cbv zeta. unfold dispatch.
    rewrite Hpub, Hauth, Hbearer, Hkey, Hvalid.
    rewrite bool_decide_false by done. cbn [negb orb].
    unfold get_current_user_id. simpl. by rewrite bool_decide_false.
Qed.

Lemma access_token_authenticates_witness :
  require_auth (dispatch None sample_decode_access_token sample_jwt_request)
  = inr (Str "alice").
Proof.
  refine (proj1 (access_token_authenticates sample_jwt_encode
                   sample_jwt_decode AuthService.sample_service None
                   sample_decode_access_token sample_jwt_request
                   "alice" "alice@x.com" 10 10 eq_refl eq_refl _ eq_refl _ _ _ _)).
  - intros n. do 16 (destruct n as [|n]; [done|]). by destruct n.
  - intros p r. unfold sample_jwt_encode, sample_jwt_decode.
    destruct (decide (p = sample_claims)) as [->|Hne]; [by intros [= <-]|done].
  - by eexists.
  - intros r. vm_compute. by intros [= <-].
  - done.
Defined.

Lemma removed_member_loses_access_witness :
  check_project_access
    {| user_id := Some (Str "bob"); user_email := None; tenant_id := None;
       project_id := None; scopes := None; auth_type := Some "jwt" |}
    "acme" "proj1"
    (sample_project_service
       (ProjectService.remove_member "proj1" "bob" "alice" ProjectService.two_owners).1)
    (Some ["owner"])
  = inl (HTTPException 403 "You don't have access to this project").
Proof.
  apply (removed_member_loses_access "proj1" "bob" "alice" ProjectService.two_owners
           (ProjectService.remove_member "proj1" "bob" "alice"
              ProjectService.two_owners).1).
  - reflexivity.
  - intros r. vm_compute. by intros [= <-].
  - reflexivity.
  - done.
  - done.
Defined.

Lemma get_current_user_id_trusts_the_state_witness :
  get_current_user_id (λ _, inr None) empty_state sample_request
  = inl (HTTPException 401
           "API keys cannot manage API keys. Use JWT token from login.").
Proof.
  refine (proj1 (get_current_user_id_trusts_the_state sample_validate (λ _, inr None)
                   sample_request "Bearer lrag_s3cr3t" eq_refl eq_refl eq_refl eq_refl)).
Defined.

End AuthMiddleware.
